(** * ReAMP-Utility: the classification-and-update cycle, its audit trail
      and the rollback executor

    A shallow embedding of

      - [tools/ticket_classifier.py]   ([TaskClassifier])
      - [connectors/servicenow_connector.py] ([ServiceNowConnector],
        [MockServiceNowConnector])
      - [tools/output_writer.py]       ([append_task_result],
        [append_audit_entry])
      - [app/scheduler.py]             ([TaskParserScheduler])
      - [tools/rollback_from_audit.py] ([main])
      - [tests/run_task_classifier_snow.py] ([main])
      - [utils/validators.py]          ([validate_required_fields])
      - [utils/config_loader.py]       ([merge])
      - [tools/validate_mapping.py]    ([load_mapping], [main])

    The Python code talks to three outside parties: the Azure OpenAI
    completion endpoint, the ServiceNow REST API and the local file
    system.  All three are represented by an environment [env] of
    oracles that are consulted with the number of interactions made so
    far, so that an arbitrary (also failing, also non-deterministic)
    outside world is covered.  Everything the code sends out is kept in
    the [world]: the completion requests, the PATCH requests, the files
    and the lines printed by the rollback script. *)

From Stdlib Require Import ZArith String Ascii List Floats Lia.
From stdpp Require Import base gmap strings list.

Set Warnings "-inexact-float,-register-all".
Local Open Scope string_scope.

(* ===================================================================== *)
(** * Python values *)
(* ===================================================================== *)

(** What [json.loads] can produce.  A JSON object is kept as the list of
    its members; [dict_get] reads the first member with the given key. *)
Inductive pyval : Type :=
| PNone
| PBool (b : bool)
| PInt (z : Z)
| PFloat (f : float)
| PStr (s : string)
| PList (l : list pyval)
| PDict (members : list (string * pyval)).

(** Python truth value testing ([if v:], [not v], [a or b]). *)
Definition truthy (v : pyval) : bool :=
  match v with
  | PNone => false
  | PBool b => b
  | PInt z => negb (z =? 0)%Z
  | PFloat f => negb (PrimFloat.eqb f 0)
  | PStr s => negb (String.eqb s "")
  | PList l => match l with [] => false | _ => true end
  | PDict d => match d with [] => false | _ => true end
  end.

(** [v in choices] for a [List[str]]: [in] compares with [==], and a
    [str] is equal to nothing but an equal [str]. *)
Definition py_in (v : pyval) (choices : list string) : bool :=
  match v with
  | PStr s => bool_decide (s ∈ choices)
  | _ => false
  end.

(** The exceptions that the modelled code raises or lets through. *)
Inductive exn : Type :=
| ValueError_invalid (field : string) (value : pyval)
    (* ValueError(f"Model returned invalid {field}: {value}") *)
| ValueError_no_json
    (* ValueError("Model did not return valid JSON"), json.JSONDecodeError *)
| AttributeError   (* [.get] on something that is not a dict *)
| TypeError (msg : string)
| RequestException (* requests / HTTP status / reply shape *)
| OSError          (* file system *)
| RuntimeError     (* RuntimeError("Azure OpenAI env vars missing: ...") *)
| ValueError_interval.
    (* ValueError of [int()] on the SCHEDULE_INTERVAL variable *)

(** [d.get(key, default)]. *)
Fixpoint assoc_get (members : list (string * pyval)) (key : string) : option pyval :=
  match members with
  | [] => None
  | (k, v) :: rest => if String.eqb k key then Some v else assoc_get rest key
  end.

Definition dict_get (d : pyval) (key : string) (dflt : pyval) : exn + pyval :=
  match d with
  | PDict members => inr (default dflt (assoc_get members key))
  | _ => inl AttributeError
  end.

(* ===================================================================== *)
(** * Python strings *)
(* ===================================================================== *)

(** A [str] is kept as the sequence of its characters, and a character
    is an [ascii], that is a code point below U+0100: [s[:40]], [find],
    [strip] and [lower] work on characters.  Strings with a character
    from U+0100 on are outside the model. *)

(** What [str.strip()] removes: the characters that Unicode counts as
    white space, which below U+0100 are U+0009 to U+000D, U+001C to
    U+0020, U+0085 and U+00A0. *)
Definition is_space (c : ascii) : bool :=
  let n := nat_of_ascii c in
  ((9 <=? n)%nat && (n <=? 13)%nat) || ((28 <=? n)%nat && (n <=? 32)%nat)
  || (n =? 133)%nat || (n =? 160)%nat.

(** What [float()] removes around a literal.  CPython first turns every
    character from U+0080 on that is white space into a space, then
    skips the white space of C: U+0009 to U+000D and U+0020.  The
    separators U+001C to U+001F are below U+0080 and stay, so that
    [float()] rejects a string that starts or ends with one. *)
Definition is_float_space (c : ascii) : bool :=
  let n := nat_of_ascii c in
  ((9 <=? n)%nat && (n <=? 13)%nat) || (n =? 32)%nat
  || (n =? 133)%nat || (n =? 160)%nat.

(** The decimal digits: below U+0100 only "0" to "9" are decimal digits
    for [float()]. *)
Definition is_digit (c : ascii) : bool :=
  let n := nat_of_ascii c in (48 <=? n)%nat && (n <=? 57)%nat.

(** The lower case of an ASCII letter, as C compares "inf" and "nan". *)
Definition lower_ascii (c : ascii) : ascii :=
  let n := nat_of_ascii c in
  if (65 <=? n)%nat && (n <=? 90)%nat then ascii_of_nat (n + 32) else c.

(** The lower case of a character for [str.lower()]: below U+0100 the
    upper-case letters are "A" to "Z" and U+00C0 to U+00DE without the
    multiplication sign U+00D7, each 32 below its lower case. *)
Definition lower_char (c : ascii) : ascii :=
  let n := nat_of_ascii c in
  if ((65 <=? n)%nat && (n <=? 90)%nat)
     || ((192 <=? n)%nat && (n <=? 222)%nat && negb (n =? 215)%nat)
  then ascii_of_nat (n + 32) else c.

Fixpoint lstrip_by (space : ascii -> bool) (l : list ascii) : list ascii :=
  match l with
  | c :: rest => if space c then lstrip_by space rest else l
  | [] => []
  end.

(** what is left without the leading and trailing [space] characters *)
Definition strip_by (space : ascii -> bool) (s : string) : string :=
  string_of_list_ascii
    (rev (lstrip_by space (rev (lstrip_by space (list_ascii_of_string s))))).

(** [s.strip()] *)
Definition str_strip (s : string) : string := strip_by is_space s.

(** [s.lower()] *)
Definition str_lower (s : string) : string :=
  string_of_list_ascii (map lower_char (list_ascii_of_string s)).

(** [s[:n]] for [0 <= n] *)
Definition str_take (n : nat) (s : string) : string := substring 0 n s.

(** [l[:n]] for any integer [n] *)
Definition py_slice_to {A} (n : Z) (l : list A) : list A :=
  if (0 <=? n)%Z then take (Z.to_nat n) l
  else take (length l - Z.to_nat (- n)) l.

(** [s.find(c)] and [s.rfind(c)] for a one-character needle; [None] is
    Python's [-1]. *)
Fixpoint find_char (c : ascii) (l : list ascii) : option nat :=
  match l with
  | [] => None
  | x :: rest =>
      if Ascii.eqb x c then Some 0
      else match find_char c rest with Some i => Some (S i) | None => None end
  end.

Fixpoint rfind_char (c : ascii) (l : list ascii) : option nat :=
  match l with
  | [] => None
  | x :: rest =>
      match rfind_char c rest with
      | Some i => Some (S i)
      | None => if Ascii.eqb x c then Some 0 else None
      end
  end.

(* ===================================================================== *)
(** * Python floats *)
(* ===================================================================== *)

(** [float] is IEEE binary64.  [float(z)] for an [int] rounds to nearest
    even and raises [OverflowError] when the result is out of range. *)
Definition float_of_Z (z : Z) : option float :=
  match binary_normalize 53 1024 z 0 false with
  | S754_infinity _ => None
  | sf => Some (SF2Prim sf)
  end.

(** Which strings [float(s)] accepts, after removing the white space of
    [is_float_space] around them:
<<
    floatvalue ::= [sign] (floatnumber | "inf" | "infinity" | "nan")
    floatnumber ::= ([digitpart] "." digitpart | digitpart ["."]) [exponent]
    digitpart ::= digit (["_"] digit)*
    exponent ::= ("e" | "E") [sign] digitpart
>>
    An underscore is accepted between two digits only.  The value of an
    accepted literal is the environment's [strtod]. *)
Fixpoint after_digits (l : list ascii) : list ascii :=
  match l with
  | c :: rest =>
      if is_digit c then after_digits rest
      else if Ascii.eqb c "_"%char then
        match rest with
        | d :: rest' => if is_digit d then after_digits rest' else l
        | [] => l
        end
      else l
  | [] => []
  end.

(** a [digitpart] at the head of [l]: what follows it *)
Definition digitpart (l : list ascii) : option (list ascii) :=
  match l with
  | c :: rest => if is_digit c then Some (after_digits rest) else None
  | [] => None
  end.

Definition skip_sign (l : list ascii) : list ascii :=
  match l with
  | c :: rest => if Ascii.eqb c "+"%char || Ascii.eqb c "-"%char then rest else l
  | [] => []
  end.

Definition exponent_then_end (l : list ascii) : bool :=
  match l with
  | [] => true
  | c :: rest =>
      if Ascii.eqb c "e"%char || Ascii.eqb c "E"%char then
        match digitpart (skip_sign rest) with
        | Some [] => true
        | _ => false
        end
      else false
  end.

Definition is_floatnumber (l : list ascii) : bool :=
  match l with
  | [] => false
  | c :: rest =>
      if Ascii.eqb c "."%char then
        match digitpart rest with
        | Some l' => exponent_then_end l'
        | None => false
        end
      else
        match digitpart l with
        | Some (d :: l') =>
            if Ascii.eqb d "."%char then
              match digitpart l' with
              | Some l'' => exponent_then_end l''
              | None => exponent_then_end l'
              end
            else exponent_then_end (d :: l')
        | Some [] => true
        | None => false
        end
  end.

Definition is_float_literal (s : string) : bool :=
  let body := skip_sign (list_ascii_of_string (strip_by is_float_space s)) in
  let word := string_of_list_ascii (map lower_ascii body) in
  String.eqb word "inf" || String.eqb word "infinity" || String.eqb word "nan"
  || is_floatnumber body.

(* ===================================================================== *)
(** * The outside world *)
(* ===================================================================== *)

(** An incident as the Table API returns it: a dict of strings.  A field
    is [None] when its key is absent. *)
Record incident := {
  inc_sys_id : option string;             (* 'sys_id' *)
  inc_number : option string;             (* 'number' *)
  inc_short_description : option string;  (* 'short_description' *)
  inc_category : option string;           (* 'category' *)
}.

(** The body of the completion request of [classify]: the user message
    with the description and the four vocabularies. *)
Record llm_request := {
  req_description : string;
  req_category_choices : list string;
  req_subcategory_choices : list string;
  req_impact_choices : list string;
  req_urgency_choices : list string;
}.

(** A PATCH on [/api/now/table/incident/{ticket_id}] with its JSON body. *)
Record patch_request := {
  patch_ticket : option string;
  patch_body : gmap string pyval;
}.

(** The file operations that can fail.  [IoOpenCsv] and [IoOpenAudit]
    are [open(path, "a")], which creates a missing file; [IoAppendCsv]
    and [IoAppendAudit] are the writes to the open file. *)
Inductive io_op : Type :=
| IoMakedirs | IoReadJson | IoCopyArchive | IoWriteJson | IoWriteLatest
| IoOpenCsv | IoAppendCsv | IoOpenAudit | IoAppendAudit | IoReadAudit.

Record env := {
  (* built-ins of Python on floats and values *)
  strtod : string -> float;        (* float(s) for an accepted literal *)
  py_round2 : float -> float;      (* round(x, 2) *)
  float_str : float -> string;     (* str(x) *)
  fmt_pct1 : float -> string;      (* format(x, ".1%") *)
  fmt_f3 : float -> string;        (* format(x, ".3f") *)
  py_str : pyval -> string;        (* str(v) for a v that is not a str *)
  json_loads : string -> option pyval;
  (* the outside world at the n-th interaction *)
  utc_iso : nat -> string;         (* datetime.utcnow().isoformat() *)
  utc_compact : nat -> string;     (* ...strftime("%Y%m%dT%H%M%SZ") *)
  elapsed_ms : nat -> Z;           (* int((end - start) * 1000) *)
  azure_openai : nat -> llm_request -> exn + string;
  snow_incidents : nat -> Z -> list incident;
  snow_choices : nat -> string -> list string;
  snow_priority : nat -> list string * list string;
  snow_patch : nat -> patch_request -> option Z;  (* status code, or raises *)
  io_fails : nat -> io_op -> bool;
}.

(** ** Files *)

Record result_record := {
  rr_timestamp : string;
  rr_ticket_id : option string;
  rr_input_text : string;
  rr_category : pyval;
  rr_confidence : float;
  rr_matched_keywords : list string;
  rr_execution_time_ms : Z;
}.

(** What [outputs/task_classifier_results.json] holds: a JSON array of
    records, or something that [append_task_result] starts over from
    (empty, not JSON, not an array). *)
Inductive feed_content : Type :=
| FeedRecords (records : list result_record)
| FeedOther.

(** A row of an audit CSV, as text. *)
Record audit_row := {
  row_run_timestamp : string;
  row_ticket_number : string;
  row_ticket_id : string;
  row_old_category : string;
  row_new_category : string;
  row_confidence : string;
  row_dry_run : string;
}.

(** A line printed by the rollback script. *)
Inductive printed : Type :=
| PrintNotFound (audit_file : string)
| PrintFound (entries : nat) (commit : bool)
| PrintWouldPatch (ticket_number ticket_id old_category : string)
| PrintPatched (ticket_number ticket_id : string)
| PrintFailed (ticket_number ticket_id : string).

Record world := {
  w_step : nat;                              (* interactions so far *)
  w_llm : list llm_request;                  (* completion requests sent *)
  w_patch : list patch_request;              (* PATCH requests sent *)
  w_feed : option feed_content;              (* task_classifier_results.json *)
  w_latest : option (list result_record);    (* ..._latest.json *)
  w_archive : gmap string feed_content;      (* archive/..._{ts}.json *)
  w_csv : option (list result_record);       (* task_classifier_results.csv *)
  w_audit : gmap string (list audit_row);    (* audit CSV files by path *)
  w_out : list printed;                      (* standard output *)
}.

Definition tick (w : world) : world :=
  {| w_step := S (w_step w); w_llm := w_llm w; w_patch := w_patch w;
     w_feed := w_feed w; w_latest := w_latest w; w_archive := w_archive w;
     w_csv := w_csv w; w_audit := w_audit w; w_out := w_out w |}.

Definition log_llm (r : llm_request) (w : world) : world :=
  {| w_step := w_step w; w_llm := w_llm w ++ [r]; w_patch := w_patch w;
     w_feed := w_feed w; w_latest := w_latest w; w_archive := w_archive w;
     w_csv := w_csv w; w_audit := w_audit w; w_out := w_out w |}.

Definition log_patch (r : patch_request) (w : world) : world :=
  {| w_step := w_step w; w_llm := w_llm w; w_patch := w_patch w ++ [r];
     w_feed := w_feed w; w_latest := w_latest w; w_archive := w_archive w;
     w_csv := w_csv w; w_audit := w_audit w; w_out := w_out w |}.

Definition set_feed (f : feed_content) (w : world) : world :=
  {| w_step := w_step w; w_llm := w_llm w; w_patch := w_patch w;
     w_feed := Some f; w_latest := w_latest w; w_archive := w_archive w;
     w_csv := w_csv w; w_audit := w_audit w; w_out := w_out w |}.

Definition set_latest (l : list result_record) (w : world) : world :=
  {| w_step := w_step w; w_llm := w_llm w; w_patch := w_patch w;
     w_feed := w_feed w; w_latest := Some l; w_archive := w_archive w;
     w_csv := w_csv w; w_audit := w_audit w; w_out := w_out w |}.

Definition set_archive (a : gmap string feed_content) (w : world) : world :=
  {| w_step := w_step w; w_llm := w_llm w; w_patch := w_patch w;
     w_feed := w_feed w; w_latest := w_latest w; w_archive := a;
     w_csv := w_csv w; w_audit := w_audit w; w_out := w_out w |}.

Definition set_csv (l : list result_record) (w : world) : world :=
  {| w_step := w_step w; w_llm := w_llm w; w_patch := w_patch w;
     w_feed := w_feed w; w_latest := w_latest w; w_archive := w_archive w;
     w_csv := Some l; w_audit := w_audit w; w_out := w_out w |}.

Definition set_audit (a : gmap string (list audit_row)) (w : world) : world :=
  {| w_step := w_step w; w_llm := w_llm w; w_patch := w_patch w;
     w_feed := w_feed w; w_latest := w_latest w; w_archive := w_archive w;
     w_csv := w_csv w; w_audit := a; w_out := w_out w |}.

Definition log_out (p : printed) (w : world) : world :=
  {| w_step := w_step w; w_llm := w_llm w; w_patch := w_patch w;
     w_feed := w_feed w; w_latest := w_latest w; w_archive := w_archive w;
     w_csv := w_csv w; w_audit := w_audit w; w_out := w_out w ++ [p] |}.

(** ** Computations: state passing with exceptions

    A raised exception keeps what was done to the world before it. *)
Definition M (A : Type) : Type := world -> world * (exn + A).

Definition ret {A} (a : A) : M A := fun w => (w, inr a).
Definition raise {A} (e : exn) : M A := fun w => (w, inl e).
Definition bind {A B} (c : M A) (k : A -> M B) : M B :=
  fun w => match c w with
           | (w', inr a) => k a w'
           | (w', inl e) => (w', inl e)
           end.
(** [try: c  except Exception: h] *)
Definition try_except {A} (c : M A) (h : exn -> M A) : M A :=
  fun w => match c w with
           | (w', inl e) => h e w'
           | r => r
           end.
(** run [c] and hand its outcome, raised or returned, to the caller *)
Definition attempt {A} (c : M A) : M (exn + A) :=
  fun w => let (w', r) := c w in (w', inr r).
Definition lift {A} (r : exn + A) : M A := fun w => (w, r).
Definition modify (f : world -> world) : M unit := fun w => (f w, inr tt).
Definition get {A} (f : world -> A) : M A := fun w => (w, inr (f w)).
(** consult an oracle: one more interaction *)
Definition ask {A} (f : nat -> A) : M A := fun w => (tick w, inr (f (w_step w))).

Notation "x <- c ;; k" := (bind c (fun x => k))
  (at level 100, c at next level, right associativity).
Notation "c ;;; k" := (bind c (fun _ => k))
  (at level 100, right associativity).

(** a file operation that may fail with [OSError] *)
Definition io (E : env) (op : io_op) : M unit :=
  failed <- ask (fun n => io_fails E n op) ;;
  if failed : bool then raise OSError else ret tt.

(* ===================================================================== *)
(** * tools/ticket_classifier.py *)
(* ===================================================================== *)

(** The ["details"] of a successful classification. *)
Record details := {
  d_category : pyval;
  d_subcategory : pyval;
  d_impact : pyval;
  d_urgency : pyval;
  d_confidence : float;
}.

(** What [classify] returns: [{"status": "FAILED", "summary": ...}] or
    [{"status": "SUCCESS", "details": ...}]. *)
Inductive classification : Type :=
| FAILED (summary : string)
| SUCCESS (d : details).

(** [_call_azure_openai]: one POST; the oracle gives the message content
    or the exception of [requests], of [raise_for_status] or of reading
    the reply. *)
Definition call_azure_openai (E : env) (req : llm_request) : M string :=
  modify (log_llm req) ;;;
  reply <- ask (fun n => azure_openai E n req) ;;
  lift reply.

(** [_extract_json] *)
Definition extract_json (E : env) (text : string) : exn + pyval :=
  match json_loads E text with
  | Some v => inr v
  | None =>
      let chars := list_ascii_of_string text in
      match find_char "{"%char chars, rfind_char "}"%char chars with
      | Some start, Some end_ =>
          if (start <? end_)%nat then
            match json_loads E (substring start (end_ + 1 - start) text) with
            | Some v => inr v
            | None => inl ValueError_no_json
            end
          else inl ValueError_no_json
      | _, _ => inl ValueError_no_json
      end
  end.

(** [float(v)]; [None] when it raises *)
Definition py_float (E : env) (v : pyval) : option float :=
  match v with
  | PFloat f => Some f
  | PInt z => float_of_Z z
  | PBool b => Some (if b then 1 else 0)%float
  | PStr s => if is_float_literal s then Some (strtod E s) else None
  | PNone | PList _ | PDict _ => None
  end.

(** lines 99-114 of [classify] *)
Definition normalize_confidence (E : env) (confidence_raw : pyval) : float :=
  match py_float E confidence_raw with
  | Some confidence => confidence
  | None =>
      match confidence_raw with
      | PStr s =>
          let norm := str_lower (str_strip s) in
          if String.eqb norm "high" then 0.9
          else if String.eqb norm "medium" then 0.6
          else if String.eqb norm "low" then 0.3
          else 0.0
      | _ => 0.0
      end
  end%float.

Definition classify (E : env) (description : string)
    (category_choices subcategory_choices impact_choices urgency_choices : list string)
  : M classification :=
  if String.eqb description "" then ret (FAILED "Empty description")
  else
    raw <- call_azure_openai E
             {| req_description := description;
                req_category_choices := category_choices;
                req_subcategory_choices := subcategory_choices;
                req_impact_choices := impact_choices;
                req_urgency_choices := urgency_choices |} ;;
    result <- lift (extract_json E raw) ;;
    category <- lift (dict_get result "category" PNone) ;;
    subcategory <- lift (dict_get result "subcategory" PNone) ;;
    impact <- lift (dict_get result "impact" PNone) ;;
    urgency <- lift (dict_get result "urgency" PNone) ;;
    confidence_raw <- lift (dict_get result "confidence" (PFloat 0)) ;;
    let confidence := normalize_confidence E confidence_raw in
    if negb (py_in category category_choices) then
      raise (ValueError_invalid "category" category)
    else if truthy subcategory && negb (py_in subcategory subcategory_choices) then
      raise (ValueError_invalid "subcategory" subcategory)
    else if negb (py_in impact impact_choices) then
      raise (ValueError_invalid "impact" impact)
    else if negb (py_in urgency urgency_choices) then
      raise (ValueError_invalid "urgency" urgency)
    else
      ret (SUCCESS {| d_category := category; d_subcategory := subcategory;
                      d_impact := impact; d_urgency := urgency;
                      d_confidence := confidence |}).

(* ===================================================================== *)
(** * connectors/servicenow_connector.py *)
(* ===================================================================== *)

(** The two connectors of the scheduler.  [get_choice_values] and
    [get_priority_lookup_values] are not overridden by the mock. *)
Inductive connector : Type :=
| ServiceNowConnector (dry_run : bool)
| MockServiceNowConnector (test_data : list incident).

(** [str(v)] inside an f-string *)
Definition py_format (E : env) (v : pyval) : string :=
  match v with
  | PStr s => s
  | _ => py_str E v
  end.

Definition opt_truthy (o : option string) : bool :=
  match o with
  | Some s => negb (String.eqb s "")
  | None => false
  end.

Definition get_new_incidents (E : env) (c : connector) (limit : Z) : M (list incident) :=
  match c with
  | ServiceNowConnector _ => ask (fun n => snow_incidents E n limit)
  | MockServiceNowConnector test_data => ret (py_slice_to limit test_data)
  end.

Definition get_choice_values (E : env) (element : string) : M (list string) :=
  ask (fun n => snow_choices E n element).

Definition get_priority_lookup_values (E : env) : M (list string * list string) :=
  ask (snow_priority E).

(** The dict [update_data] that [update_incident] builds (lines
    240-267); [now] is the reading of the clock. *)
Definition update_data (E : env) (now : string)
    (category : pyval) (confidence : float)
    (assignment_group work_notes : option string)
    (snow_category subcategory impact urgency : pyval) : gmap string pyval :=
  let data : gmap string pyval :=
    <["u_classification_timestamp" := PStr now]>
    (<["u_auto_classified" := PStr "true"]>
    (<["u_confidence_score" :=
         PStr (float_str E (py_round2 E (confidence * 100)%float))]>
    (<["u_auto_classification_category" := category]> ∅))) in
  let data :=
    if opt_truthy assignment_group
    then <["assignment_group" := PStr (default "" assignment_group)]> data
    else data in
  let data :=
    if truthy snow_category then
      match snow_category with
      | PStr s => <["category" := PStr (str_take 40 s)]> data
      | _ => data                 (* not isinstance(snow_category, str) *)
      end
    else data in
  let data :=
    if truthy subcategory then <["subcategory" := subcategory]> data else data in
  let data :=
    if truthy impact then <["impact" := impact]> data else data in
  let data :=
    if truthy urgency then <["urgency" := urgency]> data else data in
  if opt_truthy work_notes
  then <["work_notes" := PStr (default "" work_notes)]> data
  else <["work_notes" :=
           PStr ("Auto-classified as " ++ py_format E category
                 ++ " (confidence: " ++ fmt_pct1 E confidence
                 ++ ") by Task Classifier")]> data.

(** [ServiceNowConnector.update_incident].  Everything after the dry-run
    test is inside [try]: an exception of the request gives [False]. *)
Definition update_incident (E : env) (dry_run : bool)
    (ticket_id : option string) (category : pyval) (confidence : float)
    (assignment_group work_notes : option string)
    (snow_category subcategory impact urgency : pyval) : M bool :=
  if dry_run then ret true
  else
    now <- ask (utc_iso E) ;;
    let request :=
      {| patch_ticket := ticket_id;
         patch_body := update_data E now category confidence assignment_group
                         work_notes snow_category subcategory impact urgency |} in
    modify (log_patch request) ;;;
    status <- ask (fun n => snow_patch E n request) ;;
    ret (match status with
         | Some code => (code =? 200)%Z
         | None => false
         end).

(** The call of the scheduler, with the keywords [subcategory], [impact]
    and [urgency].  [MockServiceNowConnector.update_incident] has no such
    parameters, so that the call raises before the mock records
    anything. *)
Definition connector_update_incident (E : env) (c : connector)
    (ticket_id : option string) (category : pyval) (confidence : float)
    (work_notes : option string)
    (snow_category subcategory impact urgency : pyval) : M bool :=
  match c with
  | ServiceNowConnector dry_run =>
      update_incident E dry_run ticket_id category confidence None work_notes
        snow_category subcategory impact urgency
  | MockServiceNowConnector _ =>
      raise (TypeError "update_incident() got an unexpected keyword argument 'subcategory'")
  end.

(* ===================================================================== *)
(** * tools/output_writer.py *)
(* ===================================================================== *)

Definition archive_path (ts : string) : string :=
  "outputs/archive/task_classifier_results_" ++ ts ++ ".json".

(** [append_task_result], with the default [output_json] and
    [output_csv]. *)
Definition append_task_result (E : env)
    (ticket_id : option string) (input_text : string) (category : pyval)
    (confidence : float) (matched_keywords : list string)
    (execution_time_ms : Z) : M unit :=
  now <- ask (utc_iso E) ;;
  let record :=
    {| rr_timestamp := now ++ "Z"; rr_ticket_id := ticket_id;
       rr_input_text := input_text; rr_category := category;
       rr_confidence := confidence; rr_matched_keywords := matched_keywords;
       rr_execution_time_ms := execution_time_ms |} in
  io E IoMakedirs ;;;
  (* read the existing array; anything else, or a failure, starts anew *)
  data <- try_except
            (feed <- get w_feed ;;
             match feed with
             | Some content =>
                 io E IoReadJson ;;;
                 ret (match content with
                      | FeedRecords records => records
                      | FeedOther => []
                      end)
             | None => ret []
             end)
            (fun _ => ret []) ;;
  let data := (data ++ [record])%list in
  io E IoMakedirs ;;;
  (* archive the existing main snapshot, best effort *)
  try_except
    (feed <- get w_feed ;;
     match feed with
     | Some content =>
         ts <- ask (utc_compact E) ;;
         try_except
           (io E IoCopyArchive ;;;
            modify (fun w => set_archive (<[archive_path ts := content]> (w_archive w)) w))
           (fun _ => ret tt)
     | None => ret tt
     end)
    (fun _ => ret tt) ;;;
  (* temporary file, then os.replace *)
  io E IoWriteJson ;;;
  modify (set_feed (FeedRecords data)) ;;;
  try_except
    (io E IoWriteLatest ;;; modify (set_latest data))
    (fun _ => ret tt) ;;;
  csv <- get w_csv ;;
  io E IoMakedirs ;;;
  (* open(output_csv, "a") creates the file; a failing write leaves it
     without the new row *)
  io E IoOpenCsv ;;;
  modify (set_csv (default [] csv)) ;;;
  io E IoAppendCsv ;;;
  modify (set_csv (default [] csv ++ [record])%list).

(** how [csv.DictWriter] writes a value: [None] as the empty field *)
Definition csv_field (E : env) (v : pyval) : string :=
  match v with
  | PNone => ""
  | _ => py_format E v
  end.

Definition append_audit_entry (E : env) (audit_csv_path : string)
    (ticket_number ticket_id old_category : option string)
    (new_category : pyval) (confidence : float) (run_timestamp : string)
    (dry_run : bool) : M unit :=
  io E IoMakedirs ;;;
  (* open(audit_csv_path, "a") creates the file: when the write of the
     row fails after it, a file that was missing is left behind without
     rows (with the header, which is written first), and a file that was
     there keeps its rows *)
  io E IoOpenAudit ;;;
  modify (fun w =>
    set_audit (<[audit_csv_path := default [] (w_audit w !! audit_csv_path)]>
                 (w_audit w)) w) ;;;
  io E IoAppendAudit ;;;
  let row :=
    {| row_run_timestamp := run_timestamp;
       row_ticket_number := default "" ticket_number;
       row_ticket_id := default "" ticket_id;
       row_old_category := default "" old_category;
       row_new_category := csv_field E new_category;
       row_confidence := fmt_f3 E confidence;
       row_dry_run := if dry_run then "True" else "False" |} in
  modify (fun w =>
    set_audit (<[audit_csv_path := (default [] (w_audit w !! audit_csv_path) ++ [row])%list]>
                 (w_audit w)) w).

(* ===================================================================== *)
(** * app/scheduler.py *)
(* ===================================================================== *)

Record CycleStats := {
  retrieved : nat;
  classified : nat;
  updated : nat;
  errors : nat;
}.

(** [self.stats] *)
Record stats := {
  total_processed : nat;
  successfully_classified : nat;
  successfully_updated : nat;
  stats_errors : nat;
}.

Record TaskParserScheduler := {
  sch_dry_run : bool;
  sch_connector : connector;
  sch_stats : stats;
}.

(** [os.environ] as far as the constructors read it: [None] is a
    variable that is not set.  [SCHEDULE_INTERVAL_is_int] tells whether
    [int()] accepts the value of SCHEDULE_INTERVAL; it is [true] when
    the variable is not set, the default being the int 300. *)
Record environ := {
  AZURE_OPENAI_ENDPOINT : option string;
  AZURE_OPENAI_API_KEY : option string;
  AZURE_OPENAI_DEPLOYMENT : option string;
  DRY_RUN : option string;
  SCHEDULE_INTERVAL_is_int : bool;
}.

(** [TaskClassifier.__init__] (lines 17-24) raises unless the three
    variables are set and not empty. *)
Definition classifier_init (vars : environ) : exn + unit :=
  if opt_truthy (AZURE_OPENAI_ENDPOINT vars)
     && opt_truthy (AZURE_OPENAI_API_KEY vars)
     && opt_truthy (AZURE_OPENAI_DEPLOYMENT vars)
  then inr tt else inl RuntimeError.

(** The scheduler that [__init__] leaves when nothing raises. *)
Definition new_scheduler (use_mock dry : bool) : TaskParserScheduler :=
  {| sch_dry_run := dry;
     sch_connector := if use_mock then MockServiceNowConnector []
                      else ServiceNowConnector dry;
     sch_stats := {| total_processed := 0; successfully_classified := 0;
                     successfully_updated := 0; stats_errors := 0 |} |}.

(** [TaskParserScheduler.__init__]: the classifier is built first (line
    37); an explicit [dry_run] overrides the DRY_RUN variable, whose
    default is 'true'; the last line logs [get_schedule_interval()],
    which is [int(os.getenv('SCHEDULE_INTERVAL', 300))].  The probe
    [_check_connection] of the live connector catches its exceptions
    and changes nothing that the world records. *)
Definition init (vars : environ) (use_mock : bool) (dry_run : option bool)
  : exn + TaskParserScheduler :=
  match classifier_init vars with
  | inl e => inl e
  | inr _ =>
      let dry := match dry_run with
                 | None => String.eqb (str_lower (default "true" (DRY_RUN vars))) "true"
                 | Some b => b
                 end in
      if SCHEDULE_INTERVAL_is_int vars then inr (new_scheduler use_mock dry)
      else inl ValueError_interval
  end.

Definition incr_classified (c : CycleStats) : CycleStats :=
  {| retrieved := retrieved c; classified := S (classified c);
     updated := updated c; errors := errors c |}.
Definition incr_updated (c : CycleStats) : CycleStats :=
  {| retrieved := retrieved c; classified := classified c;
     updated := S (updated c); errors := errors c |}.
Definition incr_errors (c : CycleStats) : CycleStats :=
  {| retrieved := retrieved c; classified := classified c;
     updated := updated c; errors := S (errors c) |}.

(** The vocabularies loaded once per cycle. *)
Record choices := {
  category_choices : list string;
  subcategory_choices : list string;
  impact_choices : list string;
  urgency_choices : list string;
}.

Definition is_empty {A} (l : list A) : bool :=
  match l with [] => true | _ => false end.

(** The notes of line 179; [now] is the reading of the clock. *)
Definition classification_notes (E : env) (category : pyval) (confidence : float)
    (matched_keywords : list string) (now : string) : string :=
  "Auto-classified as " ++ py_format E category ++ " ("
  ++ fmt_pct1 E confidence ++ ")" ++ String "010" ""
  ++ "Keywords matched: " ++ String.concat ", " matched_keywords ++ String "010" ""
  ++ "Processed by Task Classifier at " ++ now.

(** The body of the loop of [process_tickets] after a successful
    classification (lines 154-220): persist the result, update the
    ticket, write the audit entry.  [cycle_stats] is updated in place by
    the code, so that the handler of line 222 counts an exception of
    [update_incident] on top of the classification already counted. *)
Definition update_classified (E : env) (self : TaskParserScheduler)
    (audit_csv_path : option string) (run_ts : string)
    (cycle_stats : CycleStats) (inc : incident) (exec_ms : Z) (d : details)
  : M CycleStats :=
  let ticket_id := inc_sys_id inc in
  let ticket_number := inc_number inc in
  let description := default "" (inc_short_description inc) in
  let old_category := inc_category inc in
  let category := d_category d in
  let subcategory := d_subcategory d in
  let impact := d_impact d in
  let urgency := d_urgency d in
  let confidence := d_confidence d in
  let matched_keywords : list string := [] in
  let cycle_stats := incr_classified cycle_stats in
  try_except
    (append_task_result E ticket_id description category confidence
       matched_keywords exec_ms)
    (fun _ => ret tt) ;;;
  now <- ask (utc_iso E) ;;
  let work_notes :=
    classification_notes E category confidence matched_keywords now in
  success <- attempt (connector_update_incident E (sch_connector self)
                        ticket_id category confidence (Some work_notes)
                        category subcategory impact urgency) ;;
  match success with
  | inl _ => ret (incr_errors cycle_stats)
  | inr true =>
      let cycle_stats := incr_updated cycle_stats in
      try_except
        (match audit_csv_path with
         | Some path =>
             append_audit_entry E path ticket_number ticket_id
               old_category category confidence run_ts (sch_dry_run self)
         | None => ret tt
         end)
        (fun _ => ret tt) ;;;
      ret cycle_stats
  | inr false => ret (incr_errors cycle_stats)
  end.

(** The body of the loop of [process_tickets] (lines 128-225) for one
    incident.  An exception of [classify] reaches the handler of line
    222, a ["FAILED"] result is counted at line 151. *)
Definition process_incident (E : env) (self : TaskParserScheduler)
    (ch : choices) (audit_csv_path : option string) (run_ts : string)
    (cycle_stats : CycleStats) (inc : incident) : M CycleStats :=
  let description := default "" (inc_short_description inc) in
  result <- attempt (classify E description (category_choices ch)
                       (subcategory_choices ch) (impact_choices ch)
                       (urgency_choices ch)) ;;
  match result with
  | inl _ => ret (incr_errors cycle_stats)
  | inr result =>
      exec_ms <- ask (elapsed_ms E) ;;
      match result with
      | FAILED _ => ret (incr_errors cycle_stats)
      | SUCCESS d =>
          update_classified E self audit_csv_path run_ts cycle_stats inc exec_ms d
      end
  end.

Fixpoint process_incidents (E : env) (self : TaskParserScheduler)
    (ch : choices) (audit_csv_path : option string) (run_ts : string)
    (cycle_stats : CycleStats) (incidents : list incident) : M CycleStats :=
  match incidents with
  | [] => ret cycle_stats
  | inc :: rest =>
      cycle_stats <- process_incident E self ch audit_csv_path run_ts cycle_stats inc ;;
      process_incidents E self ch audit_csv_path run_ts cycle_stats rest
  end.

(** How the first part of [process_tickets] (lines 84-124) ends. *)
Inductive prepared : Type :=
| Return                 (* [return cycle_stats] of line 98 or 116 *)
| Fatal                  (* an exception reaches the handler of line 232 *)
| Loop (incidents : list incident) (ch : choices)
       (audit_csv_path : option string) (run_ts : string).

Definition audit_path (run_ts : string) : string :=
  "outputs/audit_" ++ run_ts ++ ".csv".

Definition prepare_cycle (E : env) (self : TaskParserScheduler)
    (limit : Z) (sample_size : option Z) : M (CycleStats * prepared) :=
  incidents <- get_new_incidents E (sch_connector self) limit ;;
  let cycle_stats :=
    {| retrieved := length incidents; classified := 0; updated := 0; errors := 0 |} in
  if is_empty incidents then ret (cycle_stats, Return)
  else
    let incidents :=
      match sample_size with
      | Some n => if (0 <? n)%Z then take (Z.to_nat n) incidents else incidents
      | None => incidents
      end in
    category_choices <- get_choice_values E "category" ;;
    subcategory_choices <- get_choice_values E "subcategory" ;;
    priority_values <- get_priority_lookup_values E ;;
    let impact_choices := fst priority_values in
    let urgency_choices := snd priority_values in
    if is_empty category_choices || is_empty impact_choices || is_empty urgency_choices
    then ret (cycle_stats, Return)
    else
      run_ts <- ask (utc_compact E) ;;
      made <- attempt (if sch_dry_run self then ret None
                       else io E IoMakedirs ;;; ret (Some (audit_path run_ts))) ;;
      match made with
      | inl _ => ret (cycle_stats, Fatal)
      | inr audit_csv_path =>
          ret (cycle_stats,
               Loop incidents
                 {| category_choices := category_choices;
                    subcategory_choices := subcategory_choices;
                    impact_choices := impact_choices;
                    urgency_choices := urgency_choices |}
                 audit_csv_path run_ts)
      end.

Definition add_cycle (s : stats) (c : CycleStats) : stats :=
  {| total_processed := total_processed s + classified c;
     successfully_classified := successfully_classified s;
     successfully_updated := successfully_updated s + updated c;
     stats_errors := stats_errors s + errors c |}.

Definition add_fatal (s : stats) : stats :=
  {| total_processed := total_processed s;
     successfully_classified := successfully_classified s;
     successfully_updated := successfully_updated s;
     stats_errors := stats_errors s + 1 |}.

Definition with_stats (self : TaskParserScheduler) (s : stats) : TaskParserScheduler :=
  {| sch_dry_run := sch_dry_run self; sch_connector := sch_connector self;
     sch_stats := s |}.

(** [process_tickets]: the scheduler with its updated [self.stats], and
    the returned [cycle_stats]. *)
Definition process_tickets (E : env) (self : TaskParserScheduler)
    (limit : Z) (sample_size : option Z) : M (TaskParserScheduler * CycleStats) :=
  p <- prepare_cycle E self limit sample_size ;;
  match p with
  | (cycle_stats, Return) => ret (self, cycle_stats)
  | (cycle_stats, Fatal) =>
      ret (with_stats self (add_fatal (sch_stats self)), cycle_stats)
  | (cycle_stats, Loop incidents ch audit_csv_path run_ts) =>
      cycle_stats <- process_incidents E self ch audit_csv_path run_ts
                       cycle_stats incidents ;;
      ret (with_stats self (add_cycle (sch_stats self) cycle_stats), cycle_stats)
  end.

(* ===================================================================== *)
(** * tools/rollback_from_audit.py *)
(* ===================================================================== *)

Module Rollback.

(** [patch_data] of the loop of [main] *)
Definition patch_data (old_category new_category : string) : gmap string pyval :=
  <["work_notes" := PStr ("Rollback: restored category to '" ++ old_category
                          ++ "' (was: '" ++ new_category ++ "')")]>
  (<["u_auto_classification_category" := PStr ""]>
  (<["u_auto_classified" := PStr "false"]>
  (<["category" := PStr old_category]> ∅))).

Definition work_notes_of (patch : gmap string pyval) : option string :=
  match patch !! "work_notes" with
  | Some (PStr s) => Some s
  | _ => None
  end.

(** one turn of the second loop of [main]; an action is
    [(ticket_id, ticket_number, old_category, new_category)] *)
Definition rollback_action (E : env) (commit : bool)
    (action : string * string * string * string) : M unit :=
  let '(ticket_id, ticket_number, old_category, new_category) := action in
  let patch := patch_data old_category new_category in
  if negb commit then
    modify (log_out (PrintWouldPatch ticket_number ticket_id old_category))
  else
    success <- update_incident E (negb commit) (Some ticket_id)
                 (PStr old_category) 0.0%float None (work_notes_of patch)
                 (PStr old_category) PNone PNone PNone ;;
    if success : bool then modify (log_out (PrintPatched ticket_number ticket_id))
    else modify (log_out (PrintFailed ticket_number ticket_id)).

Fixpoint rollback_actions (E : env) (commit : bool)
    (actions : list (string * string * string * string)) : M unit :=
  match actions with
  | [] => ret tt
  | a :: rest => rollback_action E commit a ;;; rollback_actions E commit rest
  end.

Definition action_of_row (row : audit_row) : string * string * string * string :=
  (row_ticket_id row, row_ticket_number row, row_old_category row,
   row_new_category row).

Definition main (E : env) (audit_file : string) (commit : bool) : M unit :=
  file <- get (fun w => w_audit w !! audit_file) ;;
  match file with
  | None => modify (log_out (PrintNotFound audit_file))
  | Some rows =>
      io E IoReadAudit ;;;
      let actions := map action_of_row rows in
      modify (log_out (PrintFound (length actions) commit)) ;;;
      rollback_actions E commit actions
  end.

End Rollback.

(* ===================================================================== *)
(** * Notions used by the statements *)
(* ===================================================================== *)

(** Does the classification of [inc], started in [w], end otherwise than
    with a ["SUCCESS"] result? *)
Definition classification_fails (E : env) (ch : choices) (inc : incident)
    (w : world) : bool :=
  match snd (classify E (default "" (inc_short_description inc))
               (category_choices ch) (subcategory_choices ch)
               (impact_choices ch) (urgency_choices ch) w) with
  | inr (SUCCESS _) => false
  | _ => true
  end.

(** The number of incidents of the loop whose classification fails. *)
Fixpoint classification_errors (E : env) (self : TaskParserScheduler)
    (ch : choices) (audit_csv_path : option string) (run_ts : string)
    (cycle_stats : CycleStats) (incidents : list incident) (w : world) : nat :=
  match incidents with
  | [] => 0
  | inc :: rest =>
      (if classification_fails E ch inc w then 1 else 0) +
      match process_incident E self ch audit_csv_path run_ts cycle_stats inc w with
      | (w', inr cycle_stats') =>
          classification_errors E self ch audit_csv_path run_ts cycle_stats' rest w'
      | (_, inl _) => 0
      end
  end.

(** The errors of a whole cycle that come from classification. *)
Definition errors_from_classification (E : env) (self : TaskParserScheduler)
    (limit : Z) (sample_size : option Z) (w : world) : nat :=
  match prepare_cycle E self limit sample_size w with
  | (w', inr (cycle_stats, Loop incidents ch audit_csv_path run_ts)) =>
      classification_errors E self ch audit_csv_path run_ts cycle_stats incidents w'
  | _ => 0
  end.

(** The data rows of the audit file at [path]; none when it does not
    exist. *)
Definition audit_rows (w : world) (path : string) : list audit_row :=
  default [] (w_audit w !! path).

(** The records of the result feed. *)
Definition feed_records (w : world) : list result_record :=
  match w_feed w with
  | Some (FeedRecords records) => records
  | _ => []
  end.

(** What the Table API does with an accepted PATCH: the fields of the
    body replace those of the ticket, every other field stays. *)
Definition patched (ticket body : gmap string pyval) : gmap string pyval :=
  body ∪ ticket.

(** A computation leaves the component [f] of the world alone. *)
Definition preserves {A X} (f : world -> X) (c : M A) : Prop :=
  forall w, f (fst (c w)) = f w.

(** A computation never raises. *)
Definition total {A} (c : M A) : Prop :=
  forall w, exists w' a, c w = (w', inr a).

(** Started in [w], the computation returns, and [Q] holds of the world
    it leaves and of what it returns. *)
Definition post {A} (c : M A) (w : world) (Q : world -> A -> Prop) : Prop :=
  exists w' a, c w = (w', inr a) /\ Q w' a.

(** The completion request for a description. *)
Definition request_of (description : string) (ch : choices) : llm_request :=
  {| req_description := description;
     req_category_choices := category_choices ch;
     req_subcategory_choices := subcategory_choices ch;
     req_impact_choices := impact_choices ch;
     req_urgency_choices := urgency_choices ch |}.

Definition field (result : list (string * pyval)) (key : string) : pyval :=
  default PNone (assoc_get result key).

(** The first check of lines 116-123 that a decoded answer fails: the
    field and its value. *)
Definition invalid_enum (result : list (string * pyval)) (ch : choices)
  : option (string * pyval) :=
  if negb (py_in (field result "category") (category_choices ch)) then
    Some ("category", field result "category")
  else if truthy (field result "subcategory")
          && negb (py_in (field result "subcategory") (subcategory_choices ch)) then
    Some ("subcategory", field result "subcategory")
  else if negb (py_in (field result "impact") (impact_choices ch)) then
    Some ("impact", field result "impact")
  else if negb (py_in (field result "urgency") (urgency_choices ch)) then
    Some ("urgency", field result "urgency")
  else None.

(** The details of an answer that passes the checks. *)
Definition details_of (E : env) (result : list (string * pyval)) : details :=
  {| d_category := field result "category";
     d_subcategory := field result "subcategory";
     d_impact := field result "impact";
     d_urgency := field result "urgency";
     d_confidence :=
       normalize_confidence E (default (PFloat 0) (assoc_get result "confidence")) |}.


(** The confidence rule in the words of the specification: a number is
    kept, the strings "high", "medium" and "low" in any case give 0.9,
    0.6 and 0.3, everything else gives 0.0. *)
Definition stated_confidence (confidence_raw : pyval) : float :=
  match confidence_raw with
  | PFloat f => f
  | PInt z => default 0%float (float_of_Z z)
  | PStr s =>
      let norm := str_lower s in
      if String.eqb norm "high" then 0.9
      else if String.eqb norm "medium" then 0.6
      else if String.eqb norm "low" then 0.3
      else 0.0
  | _ => 0.0
  end%float.

(** The completion requests of one incident: one for a non-empty
    description, none for an empty one. *)
Definition requests_for (ch : choices) (inc : incident) : list llm_request :=
  let description := default "" (inc_short_description inc) in
  if String.eqb description "" then [] else [request_of description ch].

(** Between [w] and [w'] exactly one PATCH was sent, and its body has no
    "category": the ticket keeps the category it has. *)
Definition sent_without_category (w w' : world) : Prop :=
  exists request,
    w_patch w' = (w_patch w ++ [request])%list
    /\ patch_body request !! "category" = None
    /\ forall ticket : gmap string pyval,
         patched ticket (patch_body request) !! "category" = ticket !! "category".

(** No file operation fails. *)
Definition reliable_files (E : env) : Prop :=
  forall n op, io_fails E n op = false.

(** The file operations on the audit file go through. *)
Definition audit_io_works (E : env) : Prop :=
  forall n,
    io_fails E n IoMakedirs = false /\ io_fails E n IoOpenAudit = false
    /\ io_fails E n IoAppendAudit = false /\ io_fails E n IoReadAudit = false.

(** [row] is the audit row of the incident [inc]. *)
Definition row_of_incident (row : audit_row) (inc : incident) : Prop :=
  row_ticket_id row = default "" (inc_sys_id inc)
  /\ row_ticket_number row = default "" (inc_number inc)
  /\ row_old_category row = default "" (inc_category inc).

(** [request] is the inverse update of the audit row [row]: a PATCH on
    the ticket of the row that, when the old category of the row is not
    empty, sets "category" to it (to its first 40 characters). *)
Definition inverse_update (row : audit_row) (request : patch_request) : Prop :=
  patch_ticket request = Some (row_ticket_id row)
  /\ (row_old_category row <> "" ->
      patch_body request !! "category"
      = Some (PStr (str_take 40 (row_old_category row)))).

(** The conditional assignments of [update_data], one by one; they serve
    to read the dict without opening all its tests at once. *)
Definition cond_insert (b : bool) (key : string) (v : pyval)
    (data : gmap string pyval) : gmap string pyval :=
  if b then <[key := v]> data else data.

Definition category_layer (snow_category : pyval) (data : gmap string pyval)
  : gmap string pyval :=
  if truthy snow_category then
    match snow_category with
    | PStr s => <["category" := PStr (str_take 40 s)]> data
    | _ => data
    end
  else data.

Definition notes_layer (E : env) (category : pyval) (confidence : float)
    (work_notes : option string) (data : gmap string pyval) : gmap string pyval :=
  if opt_truthy work_notes
  then <["work_notes" := PStr (default "" work_notes)]> data
  else <["work_notes" :=
           PStr ("Auto-classified as " ++ py_format E category
                 ++ " (confidence: " ++ fmt_pct1 E confidence
                 ++ ") by Task Classifier")]> data.

(** [w1] has the completion log, the PATCH log, the audit files and the
    result feed of [w]. *)
Definition kept (w w1 : world) : Prop :=
  w_llm w1 = w_llm w /\ w_patch w1 = w_patch w /\ w_audit w1 = w_audit w
  /\ w_feed w1 = w_feed w.

(** The incidents that a cycle started in [w] hands to its loop: none
    when it returns early or fails before the loop. *)
Definition processed_incidents (E : env) (self : TaskParserScheduler)
    (limit : Z) (sample_size : option Z) (w : world) : list incident :=
  match prepare_cycle E self limit sample_size w with
  | (_, inr (_, Loop incidents _ _ _)) => incidents
  | _ => []
  end.

(* ===================================================================== *)
(** * Python dicts, continued *)
(* ===================================================================== *)

(** [d[key] = v] on a dict kept as the list of its members: a key that
    is there keeps its place, a new key goes to the end. *)
Fixpoint dict_set (key : string) (v : pyval) (members : list (string * pyval))
  : list (string * pyval) :=
  match members with
  | [] => [(key, v)]
  | (k, x) :: rest =>
      if String.eqb k key then (k, v) :: rest
      else (k, x) :: dict_set key v rest
  end.

(* ===================================================================== *)
(** * tests/run_task_classifier_snow.py *)
(* ===================================================================== *)

Module Runner.

(** [main]: one cycle against the live connector; [commit], [limit] and
    [sample_size] are the parsed arguments, [vars] the environment
    variables.  An exception of the constructor ends the run before the
    cycle. *)
Definition main (E : env) (vars : environ) (commit : bool)
    (limit sample_size : Z) : M (TaskParserScheduler * CycleStats) :=
  let dry_run := negb commit in
  scheduler <- lift (init vars false (Some dry_run)) ;;
  let sample_size := if (0 <? sample_size)%Z then Some sample_size else None in
  process_tickets E scheduler limit sample_size.

End Runner.

(* ===================================================================== *)
(** * utils/validators.py *)
(* ===================================================================== *)

Module Validators.

Record required_report := {
  valid : bool;
  missing_fields : list string;
}.

(** [field not in data or not data[field]] *)
Definition absent (data : gmap string pyval) (field : string) : bool :=
  match data !! field with
  | None => true
  | Some v => negb (truthy v)
  end.

(** the loop of [validate_required_fields] *)
Fixpoint collect_missing (data : gmap string pyval) (required_fields : list string)
    (missing : list string) : list string :=
  match required_fields with
  | [] => missing
  | field :: rest =>
      collect_missing data rest
        (if absent data field then (missing ++ [field])%list else missing)
  end.

Definition validate_required_fields (data : gmap string pyval)
    (required_fields : list string) : required_report :=
  let missing := collect_missing data required_fields [] in
  {| valid := Nat.eqb (length missing) 0; missing_fields := missing |}.

End Validators.

(* ===================================================================== *)
(** * utils/config_loader.py *)
(* ===================================================================== *)

Module ConfigLoader.

(** What the loop of [merge] assigns to [result[key]]: the merge of the
    two values when [key in result] and both are dicts, [value]
    otherwise.  [current] is [result.get(key)], and the inner loop is
    that of the recursive call [merge(result[key], value)]. *)
Fixpoint merged_value (current : option pyval) (value : pyval) {struct value}
  : pyval :=
  match current, value with
  | Some (PDict base), PDict override =>
      PDict
        ((fix loop (items result : list (string * pyval)) {struct items}
            : list (string * pyval) :=
            match items with
            | [] => result
            | (key, v) :: rest =>
                loop rest
                  (dict_set key (merged_value (assoc_get result key) v) result)
            end) override base)
  | _, _ => value
  end.

(** the loop of [merge] over [override.items()] *)
Fixpoint merge_loop (items result : list (string * pyval)) {struct items}
  : list (string * pyval) :=
  match items with
  | [] => result
  | (key, value) :: rest =>
      merge_loop rest
        (dict_set key (merged_value (assoc_get result key) value) result)
  end.

(** [merge(base, override)]: [result = base.copy()], the loop, [return
    result]. *)
Definition merge (base override : list (string * pyval)) : list (string * pyval) :=
  merge_loop override base.

End ConfigLoader.

(* ===================================================================== *)
(** * tools/validate_mapping.py *)
(* ===================================================================== *)

Module ValidateMapping.

(** An entry of [report['missing_mappings']]. *)
Inductive entry : Type :=
| EmptyMapping (category : string)
    (* {'category': .., 'issue': 'empty', 'suggestion': None} *)
| Unmapped (category : string) (mapped_value : pyval) (suggestion : option string).
    (* {'category': .., 'mapped_value': .., 'suggestion': ..} *)

Definition entry_category (e : entry) : string :=
  match e with
  | EmptyMapping category => category
  | Unmapped category _ _ => category
  end.

(** [entry.get('suggestion')] *)
Definition entry_suggestion (e : entry) : option string :=
  match e with
  | EmptyMapping _ => None
  | Unmapped _ _ suggestion => suggestion
  end.

Record report := {
  available_choices_count : nat;
  missing_mappings : list entry;
}.

Inductive line : Type :=
| NoChoices          (* "No category choices available ..." *)
| WroteReport        (* "Wrote mapping validation report to ..." *)
| AppliedFixes       (* "Applied suggested fixes to ..." *)
| NothingToApply.    (* "No automatic suggestions available to apply." *)

(** Where [main] can stop with an exception. *)
Inductive failure : Type :=
| LoadFailed         (* [open] or [yaml.safe_load] in [load_mapping] *)
| NotAMapping        (* [mapping.items()] on what is not a dict *)
| MatchFailed        (* [difflib.get_close_matches] *)
| ReportFailed       (* [os.makedirs], [open] or [json.dump] of the report *)
| SaveFailed.        (* [open] or [yaml.safe_dump] in [save_mapping] *)

(** The two files and the standard output.  [mapping_file] is what
    [yaml.safe_load] makes of category_mapping.yaml. *)
Record files := {
  mapping_file : option pyval;
  report_file : option report;
  out : list line;
}.

(** What [main] gets from outside: the category choices of the
    connector (a [List[str]], empty when the request fails), the result
    of [difflib.get_close_matches(word, choices, n=1)] or that it
    raises, which file operations fail, and what a failed write leaves
    of a file.  Both files are opened with [open(path, 'w')], which
    empties the file before anything is dumped: a write that fails in
    [os.makedirs] or [open] leaves the file as it was, one that fails
    later leaves an empty or partial file. *)
Record outside := {
  get_category_choices : list string;
  get_close_matches : pyval -> list string -> option (list string);
  load_fails : bool;
  report_fails : bool;
  save_fails : bool;
  after_failed_report : option report -> option report;
  after_failed_save : option pyval -> option pyval;
}.

Definition print (l : line) (f : files) : files :=
  {| mapping_file := mapping_file f; report_file := report_file f;
     out := (out f ++ [l])%list |}.

(** [load_mapping] *)
Definition load_mapping (O : outside) (f : files) : failure + pyval :=
  match mapping_file f with
  | None => inr (PDict [])
  | Some content =>
      if load_fails O then inl LoadFailed
      else inr (if truthy content then content else PDict [])
  end.

(** the first loop of [main] *)
Fixpoint check_mapping (O : outside) (choices : list string)
    (items : list (string * pyval)) (missing : list entry)
  : failure + list entry :=
  match items with
  | [] => inr missing
  | (internal_cat, mapped_value) :: rest =>
      if negb (truthy mapped_value) then
        check_mapping O choices rest (missing ++ [EmptyMapping internal_cat])%list
      else if py_in mapped_value choices then
        check_mapping O choices rest missing
      else
        match get_close_matches O mapped_value choices with
        | None => inl MatchFailed
        | Some suggestion =>
            let suggestion := head suggestion in
            check_mapping O choices rest
              (missing ++ [Unmapped internal_cat mapped_value suggestion])%list
        end
  end.

(** the loop of the [--apply] part: the mapping and [changed] *)
Fixpoint apply_suggestions (entries : list entry)
    (mapping : list (string * pyval)) (changed : bool)
  : list (string * pyval) * bool :=
  match entries with
  | [] => (mapping, changed)
  | e :: rest =>
      if opt_truthy (entry_suggestion e) then
        apply_suggestions rest
          (dict_set (entry_category e)
             (PStr (default "" (entry_suggestion e))) mapping)
          true
      else apply_suggestions rest mapping changed
  end.

Definition main (O : outside) (apply : bool) (f : files)
  : files * (failure + unit) :=
  let choices := get_category_choices O in
  if is_empty choices then (print NoChoices f, inr tt)
  else
    match load_mapping O f with
    | inl e => (f, inl e)
    | inr (PDict mapping) =>
        match check_mapping O choices mapping [] with
        | inl e => (f, inl e)
        | inr missing =>
            if report_fails O then
              ({| mapping_file := mapping_file f;
                  report_file := after_failed_report O (report_file f);
                  out := out f |},
               inl ReportFailed)
            else
              let f :=
                print WroteReport
                  {| mapping_file := mapping_file f;
                     report_file :=
                       Some {| available_choices_count := length choices;
                               missing_mappings := missing |};
                     out := out f |} in
              if apply && negb (is_empty missing) then
                let '(mapping, changed) := apply_suggestions missing mapping false in
                if changed then
                  if save_fails O then
                    ({| mapping_file := after_failed_save O (mapping_file f);
                        report_file := report_file f; out := out f |},
                     inl SaveFailed)
                  else
                    (print AppliedFixes
                       {| mapping_file := Some (PDict mapping);
                          report_file := report_file f; out := out f |},
                     inr tt)
                else (print NothingToApply f, inr tt)
              else (f, inr tt)
        end
    | inr _ => (f, inl NotAMapping)
    end.

End ValidateMapping.

(* ===================================================================== *)
(** * Notions for the mapping validation *)
(* ===================================================================== *)

(** The suggestion that [--apply] uses for a mapped value: the first
    close match, when the value is true for Python, is not among the
    choices, and the match is not the empty string. *)
Definition usable_suggestion (O : ValidateMapping.outside) (value : pyval)
  : option string :=
  if truthy value && negb (py_in value (ValidateMapping.get_category_choices O)) then
    match ValidateMapping.get_close_matches O value
            (ValidateMapping.get_category_choices O) with
    | Some (s :: _) => if String.eqb s "" then None else Some s
    | _ => None
    end
  else None.

(** An item of the mapping with its value replaced by the suggestion,
    when there is one. *)
Definition repaired (O : ValidateMapping.outside) (item : string * pyval)
  : string * pyval :=
  match usable_suggestion O (snd item) with
  | Some s => (fst item, PStr s)
  | None => item
  end.

(** The mapped value is empty or is not among the choices. *)
Definition lacking (O : ValidateMapping.outside) (item : string * pyval) : bool :=
  negb (truthy (snd item))
  || negb (py_in (snd item) (ValidateMapping.get_category_choices O)).

(** What the first loop of [main] adds to [missing] for one item of the
    mapping, when [get_close_matches] returns. *)
Definition found_for (O : ValidateMapping.outside) (item : string * pyval)
  : list ValidateMapping.entry :=
  if negb (truthy (snd item)) then [ValidateMapping.EmptyMapping (fst item)]
  else if py_in (snd item) (ValidateMapping.get_category_choices O) then []
  else [ValidateMapping.Unmapped (fst item) (snd item)
          (head (default [] (ValidateMapping.get_close_matches O (snd item)
                               (ValidateMapping.get_category_choices O))))].

(* ===================================================================== *)
(** * Worlds and environments of the examples *)
(* ===================================================================== *)

Definition empty_world : world :=
  {| w_step := 0; w_llm := []; w_patch := []; w_feed := None; w_latest := None;
     w_archive := ∅; w_csv := None; w_audit := ∅; w_out := [] |}.

(** An outside world in which the model answers the description [d] with
    a text that decodes to [reply d], the ticket system hands out
    [incidents] and the four vocabularies and answers every PATCH with
    [status], and the file operations in [broken] fail. *)
Definition example_env (reply : string -> option pyval)
    (incidents : list incident) (ch : choices) (status : option Z)
    (broken : io_op -> bool) : env :=
  {| strtod := fun _ => 0%float;
     py_round2 := fun x => x;
     float_str := fun _ => "<float>";
     fmt_pct1 := fun _ => "<percent>";
     fmt_f3 := fun _ => "<fixed>";
     py_str := fun _ => "<value>";
     json_loads := reply;
     utc_iso := fun _ => "2026-01-13T11:50:55";
     utc_compact := fun _ => "20260113T115055Z";
     elapsed_ms := fun _ => 12%Z;
     azure_openai := fun _ req => inr (req_description req);
     snow_incidents := fun _ limit => py_slice_to limit incidents;
     snow_choices := fun _ element =>
       if String.eqb element "category" then category_choices ch
       else subcategory_choices ch;
     snow_priority := fun _ => (impact_choices ch, urgency_choices ch);
     snow_patch := fun _ _ => status;
     io_fails := fun _ op => broken op |}.

Definition no_failure (op : io_op) : bool := false.

Definition example_choices : choices :=
  {| category_choices := ["inquiry"; "software"; "hardware"; "network"; "database"];
     subcategory_choices := ["email"; "os"];
     impact_choices := ["1"; "2"; "3"];
     urgency_choices := ["1"; "2"; "3"] |}.

Definition answer (category subcategory : pyval) : pyval :=
  PDict [("category", category); ("subcategory", subcategory);
         ("impact", PStr "2"); ("urgency", PStr "3");
         ("confidence", PFloat 0.73)].

(** The model's answers, by description. *)
Definition example_reply (description : string) : option pyval :=
  if String.eqb description "mail client crashes" then
    Some (answer (PStr "software") (PStr "email"))
  else if String.eqb description "switch port down" then
    Some (answer (PStr "network") PNone)
  else if String.eqb description "laptop screen broken" then
    Some (answer (PStr "Hardware") PNone)
  else if String.eqb description "odd subcategory" then
    Some (answer (PStr "software") (PStr "printer"))
  else if String.eqb description "empty subcategory" then
    Some (answer (PStr "software") (PStr ""))
  else if String.eqb description "empty category" then
    Some (answer (PStr "") PNone)
  else None.

Definition example_incident (id description : string) (category : option string)
  : incident :=
  {| inc_sys_id := Some id; inc_number := Some ("INC" ++ id);
     inc_short_description := Some description; inc_category := category |}.

(** Environment variables with which the constructors do not raise. *)
Definition example_environ : environ :=
  {| AZURE_OPENAI_ENDPOINT := Some "https://example.openai.azure.com";
     AZURE_OPENAI_API_KEY := Some "key";
     AZURE_OPENAI_DEPLOYMENT := Some "gpt";
     DRY_RUN := None;
     SCHEDULE_INTERVAL_is_int := true |}.

(** The schedulers of [TaskParserScheduler(use_mock=False, dry_run=False)]
    and [TaskParserScheduler(use_mock=False, dry_run=True)]. *)
Definition live_scheduler : TaskParserScheduler := new_scheduler false false.
Definition dry_scheduler : TaskParserScheduler := new_scheduler false true.

(* ===================================================================== *)
(** * Laws of the computations *)
(* ===================================================================== *)

Local Open Scope list_scope.

Section Laws.
Context {A B X : Type} (f : world -> X).

Lemma preserves_ret (a : A) : preserves f (ret a).
Proof. intros w; reflexivity. Qed.

Lemma preserves_raise (e : exn) : preserves f (@raise A e).
Proof. intros w; reflexivity. Qed.

Lemma preserves_lift (r : exn + A) : preserves f (lift r).
Proof. intros w; reflexivity. Qed.

Lemma preserves_get (g : world -> A) : preserves f (get g).
Proof. intros w; reflexivity. Qed.

Lemma preserves_modify (g : world -> world) :
  (forall w, f (g w) = f w) -> preserves f (modify g).
Proof. intros H w; apply H. Qed.

Lemma preserves_ask (o : nat -> A) :
  (forall w, f (tick w) = f w) -> preserves f (ask o).
Proof. intros H w; apply H. Qed.

Lemma preserves_bind (c : M A) (k : A -> M B) :
  preserves f c -> (forall a, preserves f (k a)) -> preserves f (bind c k).
Proof.
  intros Hc Hk w. unfold bind. specialize (Hc w).
  destruct (c w) as [w' [e | a]]; simpl in *.
  - exact Hc.
  - rewrite Hk. exact Hc.
Qed.

Lemma preserves_try_except (c : M A) (h : exn -> M A) :
  preserves f c -> (forall e, preserves f (h e)) -> preserves f (try_except c h).
Proof.
  intros Hc Hh w. unfold try_except. specialize (Hc w).
  destruct (c w) as [w' [e | a]]; simpl in *.
  - rewrite Hh. exact Hc.
  - exact Hc.
Qed.

Lemma preserves_attempt (c : M A) : preserves f c -> preserves f (attempt c).
Proof.
  intros Hc w. unfold attempt. specialize (Hc w).
  destruct (c w) as [w' r]; exact Hc.
Qed.
End Laws.

Section Totality.
Context {A B : Type}.

Lemma total_ret (a : A) : total (ret a).
Proof. intros w; eexists _, _; reflexivity. Qed.

Lemma total_get (g : world -> A) : total (get g).
Proof. intros w; eexists _, _; reflexivity. Qed.

Lemma total_modify (g : world -> world) : total (modify g).
Proof. intros w; eexists _, _; reflexivity. Qed.

Lemma total_ask (o : nat -> A) : total (ask o).
Proof. intros w; eexists _, _; reflexivity. Qed.

Lemma total_attempt (c : M A) : total (attempt c).
Proof. intros w. unfold attempt. destruct (c w); eexists _, _; reflexivity. Qed.

Lemma total_bind (c : M A) (k : A -> M B) :
  total c -> (forall a, total (k a)) -> total (bind c k).
Proof.
  intros Hc Hk w. unfold bind. destruct (Hc w) as (w' & a & ->). apply Hk.
Qed.

Lemma total_try_except (c : M A) (h : exn -> M A) :
  (forall e, total (h e)) -> total (try_except c h).
Proof.
  intros Hh w. unfold try_except. destruct (c w) as [w' [e | a]].
  - apply Hh.
  - eexists _, _; reflexivity.
Qed.
End Totality.

(** Splits a goal [preserves f c] or [total c] along the structure of
    [c]. *)
Ltac step_frame :=
  first
    [ apply preserves_ret | apply preserves_raise | apply preserves_lift
    | apply preserves_get
    | apply preserves_modify; intros []; reflexivity
    | apply preserves_ask; intros []; reflexivity
    | apply preserves_attempt
    | apply preserves_bind; [ | intros ? ]
    | apply preserves_try_except; [ | intros ? ]
    | apply total_ret | apply total_get | apply total_modify | apply total_ask
    | apply total_attempt
    | apply total_bind; [ | intros ? ]
    | apply total_try_except; intros ?
    | match goal with
      | |- preserves _ (match ?x with _ => _ end) => destruct x
      | |- total (match ?x with _ => _ end) => destruct x
      end ].

Ltac frame := unfold io; repeat step_frame.

Section Post.
Context {A B : Type}.

Lemma post_ret (a : A) w (Q : world -> A -> Prop) : Q w a -> post (ret a) w Q.
Proof. intros H; eexists _, _; split; [reflexivity | exact H]. Qed.

Lemma post_get (g : world -> A) w (Q : world -> A -> Prop) :
  Q w (g w) -> post (get g) w Q.
Proof. intros H; eexists _, _; split; [reflexivity | exact H]. Qed.

Lemma post_modify (g : world -> world) w (Q : world -> unit -> Prop) :
  Q (g w) tt -> post (modify g) w Q.
Proof. intros H; eexists _, _; split; [reflexivity | exact H]. Qed.

Lemma post_ask (o : nat -> A) w (Q : world -> A -> Prop) :
  Q (tick w) (o (w_step w)) -> post (ask o) w Q.
Proof. intros H; eexists _, _; split; [reflexivity | exact H]. Qed.

Lemma post_bind (c : M A) (k : A -> M B) w (Q : world -> B -> Prop) :
  post c w (fun w1 a => post (k a) w1 Q) -> post (bind c k) w Q.
Proof.
  intros (w1 & a & Hc & w2 & b & Hk & HQ). exists w2, b. split; [ | exact HQ].
  unfold bind. rewrite Hc. exact Hk.
Qed.

Lemma post_attempt (c : M A) w (Q : world -> exn + A -> Prop) :
  (forall w1 r, c w = (w1, r) -> Q w1 r) -> post (attempt c) w Q.
Proof.
  intros H. unfold post, attempt. specialize (H (fst (c w)) (snd (c w))).
  destruct (c w) as [w1 r]. eexists _, _; split; [reflexivity | apply H; reflexivity].
Qed.

Lemma post_swallow (c : M unit) w (Q : world -> unit -> Prop) :
  (forall w1 r, c w = (w1, r) -> Q w1 tt) ->
  post (try_except c (fun _ => ret tt)) w Q.
Proof.
  intros H. unfold post, try_except. specialize (H (fst (c w)) (snd (c w))).
  destruct (c w) as [w1 [e | []]];
    (eexists _, _; split; [reflexivity | exact (H eq_refl)]).
Qed.

Lemma post_mono (c : M A) w (P Q : world -> A -> Prop) :
  post c w P -> (forall w' a, P w' a -> Q w' a) -> post c w Q.
Proof. intros (w' & a & Hc & HP) H. exists w', a. auto. Qed.

Lemma post_run (c : M A) w (Q : world -> A -> Prop) w' a :
  c w = (w', inr a) -> post c w Q -> Q w' a.
Proof. intros Hc (w1 & a1 & Hc1 & HQ). congruence. Qed.
End Post.

(** What a run leaves of a component that the computation preserves. *)
Lemma preserved {A X} (f : world -> X) (c : M A) w w1 r :
  preserves f c -> c w = (w1, r) -> f w1 = f w.
Proof. intros H Hc. specialize (H w). rewrite Hc in H. exact H. Qed.

Lemma io_preserves {X} (f : world -> X) (E : env) (op : io_op) :
  (forall w, f (tick w) = f w) -> preserves f (io E op).
Proof.
  intros H. unfold io. apply preserves_bind.
  - apply preserves_ask, H.
  - intros []; [apply preserves_raise | apply preserves_ret].
Qed.

(** ** What the writers touch *)

Lemma append_task_result_patch E tid text cat conf kw ms :
  preserves w_patch (append_task_result E tid text cat conf kw ms).
Proof. unfold append_task_result. frame. Qed.

Lemma append_task_result_llm E tid text cat conf kw ms :
  preserves w_llm (append_task_result E tid text cat conf kw ms).
Proof. unfold append_task_result. frame. Qed.

Lemma append_task_result_audit E tid text cat conf kw ms :
  preserves w_audit (append_task_result E tid text cat conf kw ms).
Proof. unfold append_task_result. frame. Qed.

Lemma append_audit_entry_patch E path num tid old new conf ts dry :
  preserves w_patch (append_audit_entry E path num tid old new conf ts dry).
Proof. unfold append_audit_entry. frame. Qed.

Lemma append_audit_entry_llm E path num tid old new conf ts dry :
  preserves w_llm (append_audit_entry E path num tid old new conf ts dry).
Proof. unfold append_audit_entry. frame. Qed.

Lemma append_audit_entry_feed E path num tid old new conf ts dry :
  preserves w_feed (append_audit_entry E path num tid old new conf ts dry).
Proof. unfold append_audit_entry. frame. Qed.

(** ** The PATCH of [update_incident] *)

Lemma update_incident_dry E tid cat conf ag wn snow sub imp urg w :
  update_incident E true tid cat conf ag wn snow sub imp urg w = (w, inr true).
Proof. reflexivity. Qed.

Lemma update_incident_live E tid cat conf ag wn snow sub imp urg w :
  let request :=
    {| patch_ticket := tid;
       patch_body := update_data E (utc_iso E (w_step w)) cat conf ag wn
                       snow sub imp urg |} in
  exists w' b,
    update_incident E false tid cat conf ag wn snow sub imp urg w = (w', inr b)
    /\ w_patch w' = w_patch w ++ [request]
    /\ w_llm w' = w_llm w /\ w_audit w' = w_audit w /\ w_feed w' = w_feed w
    /\ w_out w' = w_out w.
Proof.
  intros request. unfold update_incident, bind, ask, modify, ret.
  eexists _, _. split; [reflexivity | ]. simpl. auto.
Qed.

Lemma update_data_layers E now cat conf ag wn snow sub imp urg :
  update_data E now cat conf ag wn snow sub imp urg
  = notes_layer E cat conf wn
      (cond_insert (truthy urg) "urgency" urg
      (cond_insert (truthy imp) "impact" imp
      (cond_insert (truthy sub) "subcategory" sub
      (category_layer snow
      (cond_insert (opt_truthy ag) "assignment_group" (PStr (default "" ag))
      (<["u_classification_timestamp" := PStr now]>
      (<["u_auto_classified" := PStr "true"]>
      (<["u_confidence_score" :=
           PStr (float_str E (py_round2 E (conf * 100)%float))]>
      (<["u_auto_classification_category" := cat]> ∅))))))))).
Proof. reflexivity. Qed.

Lemma lookup_cond_insert_ne b (key key' : string) v (data : gmap string pyval) :
  key' <> key -> cond_insert b key' v data !! key = data !! key.
Proof.
  intros Hne. unfold cond_insert. destruct b; [ | reflexivity].
  by rewrite lookup_insert_ne.
Qed.

Lemma lookup_category_layer_ne snow (key : string) (data : gmap string pyval) :
  key <> "category" -> category_layer snow data !! key = data !! key.
Proof.
  intros Hne. unfold category_layer.
  destruct (truthy snow); [ | reflexivity].
  destruct snow; try reflexivity. by rewrite lookup_insert_ne.
Qed.

Lemma lookup_category_layer snow (data : gmap string pyval) :
  category_layer snow data !! "category"
  = match snow with
    | PStr s => if String.eqb s "" then data !! "category"
                else Some (PStr (str_take 40 s))
    | _ => data !! "category"
    end.
Proof.
  unfold category_layer. destruct snow as [ | | | | s | | ];
    try (destruct (truthy _); reflexivity).
  cbn [truthy]. destruct (String.eqb s ""); cbn [negb]; [reflexivity | ].
  by rewrite lookup_insert_eq.
Qed.

Lemma lookup_notes_layer_ne E cat conf wn (key : string) (data : gmap string pyval) :
  key <> "work_notes" -> notes_layer E cat conf wn data !! key = data !! key.
Proof.
  intros Hne. unfold notes_layer.
  destruct (opt_truthy wn); by rewrite lookup_insert_ne.
Qed.

(** Reads a key of [update_data] other than "category" and "work_notes"
    that is set at the start. *)
Ltac read_update_data :=
  rewrite update_data_layers;
  rewrite lookup_notes_layer_ne by discriminate;
  rewrite !lookup_cond_insert_ne by discriminate;
  rewrite ?lookup_category_layer_ne by discriminate;
  rewrite ?lookup_cond_insert_ne by discriminate.

Lemma update_data_category E now cat conf ag wn snow sub imp urg :
  update_data E now cat conf ag wn snow sub imp urg !! "category"
  = match snow with
    | PStr s => if String.eqb s "" then None else Some (PStr (str_take 40 s))
    | _ => None
    end.
Proof.
  rewrite update_data_layers.
  rewrite lookup_notes_layer_ne by discriminate.
  rewrite !lookup_cond_insert_ne by discriminate.
  rewrite lookup_category_layer.
  rewrite lookup_cond_insert_ne by discriminate.
  assert (Hbase :
    (<["u_classification_timestamp" := PStr now]>
     (<["u_auto_classified" := PStr "true"]>
     (<["u_confidence_score" :=
          PStr (float_str E (py_round2 E (conf * 100)%float))]>
     (<["u_auto_classification_category" := cat]> (∅ : gmap string pyval)))))
    !! "category" = None) by (by simplify_map_eq).
  rewrite Hbase. destruct snow; reflexivity.
Qed.

(** ** The classifier *)

Lemma classify_empty E ch w :
  classify E "" (category_choices ch) (subcategory_choices ch)
    (impact_choices ch) (urgency_choices ch) w
  = (w, inr (FAILED "Empty description")).
Proof. reflexivity. Qed.

(** What [classify] does with a non-empty description when the endpoint
    answers with a text that decodes to a JSON object. *)
Lemma classify_answer E description ch w raw result :
  description <> "" ->
  azure_openai E (w_step w) (request_of description ch) = inr raw ->
  extract_json E raw = inr (PDict result) ->
  classify E description (category_choices ch) (subcategory_choices ch)
    (impact_choices ch) (urgency_choices ch) w
  = (tick (log_llm (request_of description ch) w),
     match invalid_enum result ch with
     | Some (name, value) => inl (ValueError_invalid name value)
     | None => inr (SUCCESS (details_of E result))
     end).
Proof.
  intros Hne Hraw Hjson. unfold classify.
  destruct (String.eqb_spec description ""); [contradiction | ].
  unfold bind at 1. unfold call_azure_openai, bind, modify, ask, lift.
  simpl. fold (request_of description ch). rewrite Hraw. simpl.
  rewrite Hjson. simpl. unfold invalid_enum, field, details_of, raise, ret.
  repeat match goal with
         | |- context [if ?c then _ else _] => destruct c; simpl; try reflexivity
         end.
Qed.

Lemma classify_patch E description ch :
  preserves w_patch (classify E description (category_choices ch)
    (subcategory_choices ch) (impact_choices ch) (urgency_choices ch)).
Proof. unfold classify, call_azure_openai. frame. Qed.

Lemma classify_audit E description ch :
  preserves w_audit (classify E description (category_choices ch)
    (subcategory_choices ch) (impact_choices ch) (urgency_choices ch)).
Proof. unfold classify, call_azure_openai. frame. Qed.

Lemma classify_feed E description ch :
  preserves w_feed (classify E description (category_choices ch)
    (subcategory_choices ch) (impact_choices ch) (urgency_choices ch)).
Proof. unfold classify, call_azure_openai. frame. Qed.

(* ===================================================================== *)
(** * Confidence normalization (C7) *)
(* ===================================================================== *)

(** Two floats are different when [==] tells them apart and the first is
    not a NaN. *)
Lemma float_neq (x y : float) :
  PrimFloat.eqb x x = true -> PrimFloat.eqb x y = false -> x <> y.
Proof. intros Hx Hxy ->. rewrite Hx in Hxy. discriminate. Qed.

(** C7, as stated, fails: the string " high " is no number and is none
    of "high", "medium", "low" in any case, so that the stated rule gives
    0.0; [classify] strips it first and gives 0.9. *)
(** [float()] and [strip()] do not agree on white space: the separator
    U+001C is removed by [strip()] and not by [float()], the no-break
    space U+00A0 and the next-line character U+0085 by both. *)
Lemma confidence_white_space E :
  normalize_confidence E (PStr (String "028" "0.5")) = 0.0%float
  /\ normalize_confidence E (PStr (String "028" "high")) = 0.9%float
  /\ normalize_confidence E (PStr (String "160" "high")) = 0.9%float
  /\ normalize_confidence E (PStr (String "133" "Low ")) = 0.3%float
  /\ normalize_confidence E (PStr (String "160" "0.5"))
     = strtod E (String "160" "0.5")
  /\ normalize_confidence E (PStr " 1_0.5e-3 ") = strtod E " 1_0.5e-3 "
  /\ normalize_confidence E (PStr "1__0") = 0.0%float.
Proof. repeat split; reflexivity. Qed.

Lemma C7_counterexample :
  let E := example_env example_reply [] example_choices None no_failure in
  let confidence_raw := PStr " high " in
  py_float E confidence_raw = None
  /\ stated_confidence confidence_raw = 0.0%float
  /\ normalize_confidence E confidence_raw = 0.9%float
  /\ normalize_confidence E confidence_raw <> stated_confidence confidence_raw.
Proof.
  repeat split; try reflexivity.
  apply float_neq; reflexivity.
Qed.

(** C7 (amended): the confidence never decides on acceptance: an answer
    whose four labels pass the checks is accepted whatever its confidence
    field holds.  The field is normalized as follows: a value that
    [float()] accepts (a float, an int in range, a bool, a string that is
    a float literal) is converted by [float()]; otherwise a string that
    is "high", "medium" or "low" after stripping white space and
    lower-casing gives 0.9, 0.6, 0.3; everything else gives 0.0.  In
    particular "High", "MEDIUM", "low", 0.73, "not-a-number" give 0.9,
    0.6, 0.3, 0.73, 0.0. *)
Theorem C7_confidence_normalization E description ch w raw result :
  description <> "" ->
  azure_openai E (w_step w) (request_of description ch) = inr raw ->
  extract_json E raw = inr (PDict result) ->
  invalid_enum result ch = None ->
  let confidence_raw := default (PFloat 0) (assoc_get result "confidence") in
  (exists w' d,
     classify E description (category_choices ch) (subcategory_choices ch)
       (impact_choices ch) (urgency_choices ch) w = (w', inr (SUCCESS d))
     /\ d_confidence d = normalize_confidence E confidence_raw)
  /\ normalize_confidence E confidence_raw
     = match confidence_raw with
       | PFloat f => f
       | PInt z => default 0%float (float_of_Z z)
       | PBool b => if b then 1%float else 0%float
       | PStr s =>
           if is_float_literal s then strtod E s
           else if String.eqb (str_lower (str_strip s)) "high" then 0.9%float
           else if String.eqb (str_lower (str_strip s)) "medium" then 0.6%float
           else if String.eqb (str_lower (str_strip s)) "low" then 0.3%float
           else 0.0%float
       | _ => 0.0%float
       end
  /\ normalize_confidence E (PStr "High") = 0.9%float
  /\ normalize_confidence E (PStr "MEDIUM") = 0.6%float
  /\ normalize_confidence E (PStr "low") = 0.3%float
  /\ normalize_confidence E (PFloat 0.73) = 0.73%float
  /\ normalize_confidence E (PStr "not-a-number") = 0.0%float.
Proof.
  intros Hne Hraw Hjson Hvalid confidence_raw. split; [ | split].
  - rewrite (classify_answer E description ch w raw result Hne Hraw Hjson).
    rewrite Hvalid. eexists _, _. split; reflexivity.
  - clearbody confidence_raw. unfold normalize_confidence, py_float.
    destruct confidence_raw as [ | b | z | f | s | l | d ]; try reflexivity.
    destruct (is_float_literal s); reflexivity.
  - repeat split; reflexivity.
Qed.

Lemma C7_confidence_normalization_witness :
  let E := example_env example_reply [] example_choices None no_failure in
  let description := "mail client crashes" in
  (exists w' d,
     classify E description (category_choices example_choices)
       (subcategory_choices example_choices) (impact_choices example_choices)
       (urgency_choices example_choices) empty_world = (w', inr (SUCCESS d))
     /\ d_confidence d = 0.73%float)
  /\ normalize_confidence E (PStr "High") = 0.9%float.
Proof.
  intros E description.
  pose proof (C7_confidence_normalization E description example_choices
                empty_world description
                [("category", PStr "software"); ("subcategory", PStr "email");
                 ("impact", PStr "2"); ("urgency", PStr "3");
                 ("confidence", PFloat 0.73)]
                ltac:(discriminate) eq_refl eq_refl eq_refl) as H.
  split; [ exact (proj1 H) | exact (proj1 (proj2 (proj2 H))) ].
Defined.

(* ===================================================================== *)
(** * One incident *)
(* ===================================================================== *)

(** Walks through a computation with the laws of [post]; every
    [attempt] and every swallowed [try] leaves its run as a hypothesis. *)
Ltac walk :=
  repeat first
    [ apply post_ret
    | apply post_bind
    | apply post_ask
    | apply post_get
    | apply post_modify
    | apply post_swallow; intros ? ? ?
    | apply post_attempt; intros ? ? ?
    | match goal with
      | |- post (match ?x with _ => _ end) _ _ => destruct x
      end ].

Ltac unfold_io :=
  unfold connector_update_incident, update_incident, append_task_result,
    append_audit_entry, classify, call_azure_openai.

(** Adds [f w1 = f w] for every recorded run [c w = (w1, r)] of a
    computation that preserves [f]. *)
Ltac framed f :=
  repeat match goal with
         | H : ?c ?w = (?w1, ?r) |- _ =>
             lazymatch goal with
             | _ : f w1 = f w |- _ => fail
             | _ =>
                 let Hf := fresh "Hf" in
                 assert (Hf : f w1 = f w)
                   by (apply (preserved f c w w1 r);
                       [ unfold_io; frame | exact H ])
             end
         end.

(** Opens the accessors of the world in the hypotheses and the goal. *)
Ltac worlds :=
  unfold tick, log_llm, log_patch, set_feed, set_latest, set_archive, set_csv,
    set_audit, log_out in *; simpl in *.

Lemma process_incident_post E self ch path ts cs inc w
    (Q : world -> CycleStats -> Prop) :
  let run := classify E (default "" (inc_short_description inc))
               (category_choices ch) (subcategory_choices ch)
               (impact_choices ch) (urgency_choices ch) w in
  (forall e, snd run = inl e -> Q (fst run) (incr_errors cs)) ->
  (forall s, snd run = inr (FAILED s) -> Q (tick (fst run)) (incr_errors cs)) ->
  (forall d, snd run = inr (SUCCESS d) ->
     post (update_classified E self path ts cs inc
             (elapsed_ms E (w_step (fst run))) d) (tick (fst run)) Q) ->
  post (process_incident E self ch path ts cs inc) w Q.
Proof.
  intros run Hraise Hfailed Hsuccess. unfold process_incident.
  apply post_bind, post_attempt. intros w1 r Hrun.
  subst run. rewrite Hrun in *. simpl in *.
  destruct r as [e | [s | d]].
  - apply post_ret. eauto.
  - apply post_bind, post_ask, post_ret. eauto.
  - apply post_bind, post_ask. eauto.
Qed.

(** The counters after the second half of the loop body. *)
Lemma update_classified_counters E self path ts cs inc ms d w :
  post (update_classified E self path ts cs inc ms d) w
    (fun w' cs' =>
       retrieved cs' = retrieved cs
       /\ classified cs' = S (classified cs)
       /\ (updated cs' = S (updated cs) /\ errors cs' = errors cs
           \/ updated cs' = updated cs /\ errors cs' = S (errors cs))
       /\ w_llm w' = w_llm w).
Proof.
  unfold update_classified. walk; framed w_llm; simpl.
  all: repeat split; auto; worlds; congruence.
Qed.

Lemma process_incident_counters E self ch path ts cs inc w :
  post (process_incident E self ch path ts cs inc) w
    (fun w' cs' =>
       let failed := if classification_fails E ch inc w then 1 else 0 in
       retrieved cs' = retrieved cs
       /\ classified cs' + failed = S (classified cs)
       /\ updated cs' + failed <= S (updated cs)
       /\ updated cs <= updated cs').
Proof.
  apply process_incident_post; unfold classification_fails.
  - intros e ->. simpl. lia.
  - intros s ->. simpl. lia.
  - intros d ->. eapply post_mono; [apply update_classified_counters | ].
    simpl. intros w' cs' (? & ? & [[? ?] | [? ?]] & ?); lia.
Qed.

(* ===================================================================== *)
(** * The counters of a cycle (C5) *)
(* ===================================================================== *)

Lemma process_incidents_counters E self ch path ts incidents :
  forall cs w,
    post (process_incidents E self ch path ts cs incidents) w
      (fun w' cs' =>
         let failed := classification_errors E self ch path ts cs incidents w in
         retrieved cs' = retrieved cs
         /\ classified cs' + failed = classified cs + length incidents
         /\ updated cs' + failed <= updated cs + length incidents
         /\ updated cs <= updated cs').
Proof.
  induction incidents as [ | inc rest IH]; intros cs w.
  - apply post_ret. simpl. lia.
  - cbn [process_incidents classification_errors]. apply post_bind.
    destruct (process_incident_counters E self ch path ts cs inc w)
      as (w1 & cs1 & Hrun & Hret & Hcl & Hup & Hmono).
    exists w1, cs1. split; [exact Hrun | ]. rewrite Hrun.
    eapply post_mono; [apply IH | ].
    cbn [length]. intros w' cs' (? & ? & ? & ?). cbn zeta in *. lia.
Qed.

Lemma prepare_cycle_counters E self limit sample_size w :
  post (prepare_cycle E self limit sample_size) w
    (fun _ p =>
       classified (fst p) = 0 /\ updated (fst p) = 0 /\ errors (fst p) = 0
       /\ match snd p with
          | Loop incidents _ _ _ => length incidents <= retrieved (fst p)
          | _ => True
          end).
Proof.
  unfold prepare_cycle, get_new_incidents, get_choice_values,
    get_priority_lookup_values.
  walk; simpl; repeat split; auto.
  all: destruct sample_size as [n | ]; [destruct (0 <? n)%Z | ];
    rewrite ?length_take; lia.
Qed.

(** C5: every cycle returns, and its counters satisfy
    retrieved >= classified >= updated, and classified plus the number of
    incidents whose classification failed is at most retrieved. *)
Theorem C5_cycle_counters E self limit sample_size w :
  exists w' self' cs,
    process_tickets E self limit sample_size w = (w', inr (self', cs))
    /\ updated cs <= classified cs <= retrieved cs
    /\ classified cs + errors_from_classification E self limit sample_size w
       <= retrieved cs.
Proof.
  unfold process_tickets, errors_from_classification.
  destruct (prepare_cycle_counters E self limit sample_size w)
    as (w1 & [cs1 p] & Hprep & Hcl & Hup & Herr & Hp).
  unfold bind at 1. rewrite Hprep. simpl in *.
  destruct p as [ | | incidents ch path ts].
  - eexists _, _, _. split; [reflexivity | ]. lia.
  - eexists _, _, _. split; [reflexivity | ]. lia.
  - destruct (process_incidents_counters E self ch path ts incidents cs1 w1)
      as (w2 & cs2 & Hrun & Hret & Hcl2 & Hup2 & _).
    unfold bind. rewrite Hrun. eexists _, _, _. split; [reflexivity | ].
    cbn zeta in *. lia.
Qed.

(* ===================================================================== *)
(** * A failed classification inside a cycle (C8) *)
(* ===================================================================== *)

Lemma process_incidents_returns E self ch path ts cs incidents w :
  exists w' cs', process_incidents E self ch path ts cs incidents w = (w', inr cs').
Proof.
  destruct (process_incidents_counters E self ch path ts incidents cs w)
    as (w' & cs' & Hrun & _). eauto.
Qed.

Lemma process_incidents_app E self ch path ts before after :
  forall cs w,
    process_incidents E self ch path ts cs (before ++ after) w
    = bind (process_incidents E self ch path ts cs before)
        (fun cs1 => process_incidents E self ch path ts cs1 after) w.
Proof.
  induction before as [ | inc rest IH]; intros cs w.
  - reflexivity.
  - cbn [app process_incidents]. unfold bind.
    destruct (process_incident E self ch path ts cs inc w) as [w1 [e | cs1]].
    + reflexivity.
    + rewrite IH. reflexivity.
Qed.

(** An incident whose classification fails costs one error and nothing
    else: no PATCH, no audit row, no result record. *)
Lemma process_incident_failed E self ch path ts cs inc w :
  classification_fails E ch inc w = true ->
  post (process_incident E self ch path ts cs inc) w
    (fun w' cs' =>
       cs' = incr_errors cs /\ w_patch w' = w_patch w
       /\ w_audit w' = w_audit w /\ w_feed w' = w_feed w).
Proof.
  intros Hfails. unfold classification_fails in Hfails.
  pose proof (classify_patch E (default "" (inc_short_description inc)) ch w) as Hp.
  pose proof (classify_audit E (default "" (inc_short_description inc)) ch w) as Ha.
  pose proof (classify_feed E (default "" (inc_short_description inc)) ch w) as Hf.
  apply process_incident_post.
  - intros e _. auto.
  - intros s _. worlds. auto.
  - intros d Hd. rewrite Hd in Hfails. discriminate.
Qed.

Lemma bind_preserved {A B X} (f : world -> X) (c : M A) (k : A -> M B) w :
  (forall a, preserves f (k a)) -> f (fst (bind c k w)) = f (fst (c w)).
Proof.
  intros Hk. unfold bind. destruct (c w) as [w1 [e | a]]; [reflexivity | apply Hk].
Qed.

Lemma call_azure_openai_requests E req w :
  w_llm (fst (call_azure_openai E req w)) = w_llm w ++ [req].
Proof.
  unfold call_azure_openai, bind, modify, ask, lift. simpl.
  destruct (azure_openai E (w_step w) req); reflexivity.
Qed.

Lemma classify_requests E description ch w :
  w_llm (fst (classify E description (category_choices ch)
                (subcategory_choices ch) (impact_choices ch)
                (urgency_choices ch) w))
  = w_llm w ++ (if String.eqb description "" then [] else [request_of description ch]).
Proof.
  unfold classify. destruct (String.eqb description "").
  - simpl. rewrite app_nil_r. reflexivity.
  - rewrite bind_preserved by (intros; frame).
    apply call_azure_openai_requests.
Qed.

Lemma process_incident_requests E self ch path ts cs inc w :
  post (process_incident E self ch path ts cs inc) w
    (fun w' _ => w_llm w' = w_llm w ++ requests_for ch inc).
Proof.
  pose proof (classify_requests E (default "" (inc_short_description inc)) ch w)
    as Hreq.
  apply process_incident_post.
  - intros e _. exact Hreq.
  - intros s _. exact Hreq.
  - intros d _. eapply post_mono; [apply update_classified_counters | ].
    intros w' cs' (_ & _ & _ & Hllm). rewrite Hllm. exact Hreq.
Qed.

Lemma process_incidents_requests E self ch path ts incidents :
  forall cs w,
    post (process_incidents E self ch path ts cs incidents) w
      (fun w' _ => w_llm w' = w_llm w ++ concat (map (requests_for ch) incidents)).
Proof.
  induction incidents as [ | inc rest IH]; intros cs w.
  - apply post_ret. simpl. rewrite app_nil_r. reflexivity.
  - cbn [process_incidents map concat]. apply post_bind.
    eapply post_mono; [apply process_incident_requests | ].
    intros w1 cs1 H1. eapply post_mono; [apply IH | ].
    intros w2 cs2 H2. simpl in *. rewrite H2, H1, app_assoc. reflexivity.
Qed.

(** C8: [classify] answers an empty description with the "FAILED" result
    "Empty description" and leaves the world as it is: no completion
    request is sent.  In a cycle, an incident whose classification fails
    (an empty description is one such failure) adds one to [errors] and
    changes nothing else, and the loop goes on with the incidents after
    it: all incidents are classified in the order of the batch, with
    one completion request for every non-empty description. *)
Theorem C8_failed_classification E self ch path ts cs before inc after w :
  (forall w0,
     classify E "" (category_choices ch) (subcategory_choices ch)
       (impact_choices ch) (urgency_choices ch) w0
     = (w0, inr (FAILED "Empty description")))
  /\ (forall w0 inc0,
        default "" (inc_short_description inc0) = "" ->
        classification_fails E ch inc0 w0 = true)
  /\ (classification_fails E ch inc
        (fst (process_incidents E self ch path ts cs before w)) = true ->
      exists w1 cs1 w2 w3 cs3,
        process_incidents E self ch path ts cs before w = (w1, inr cs1)
        /\ process_incident E self ch path ts cs1 inc w1
           = (w2, inr (incr_errors cs1))
        /\ w_patch w2 = w_patch w1 /\ w_audit w2 = w_audit w1
        /\ w_feed w2 = w_feed w1
        /\ process_incidents E self ch path ts (incr_errors cs1) after w2
           = (w3, inr cs3)
        /\ process_incidents E self ch path ts cs (before ++ inc :: after) w
           = (w3, inr cs3)
        /\ w_llm w3
           = w_llm w ++ concat (map (requests_for ch) (before ++ inc :: after))).
Proof.
  split; [ | split].
  - intros w0. apply classify_empty.
  - intros w0 inc0 Hempty. unfold classification_fails. rewrite Hempty.
    rewrite classify_empty. reflexivity.
  - intros Hfails.
    destruct (process_incidents_returns E self ch path ts cs before w)
      as (w1 & cs1 & Hbefore).
    rewrite Hbefore in Hfails. simpl in Hfails.
    destruct (process_incident_failed E self ch path ts cs1 inc w1 Hfails)
      as (w2 & cs2 & Hinc & -> & Hpatch & Haudit & Hfeed).
    destruct (process_incidents_returns E self ch path ts (incr_errors cs1) after w2)
      as (w3 & cs3 & Hafter).
    assert (Hall : process_incidents E self ch path ts cs (before ++ inc :: after) w
                   = (w3, inr cs3)).
    { rewrite process_incidents_app. unfold bind at 1. rewrite Hbefore.
      cbn [process_incidents]. unfold bind. rewrite Hinc. exact Hafter. }
    exists w1, cs1, w2, w3, cs3. repeat split; auto.
    exact (post_run _ _ _ _ _ Hall
             (process_incidents_requests E self ch path ts _ cs w)).
Qed.

(** The scenario of the specification: one incident with an empty
    description among four others. *)
Lemma C8_failed_classification_witness :
  let incidents :=
    [example_incident "1" "mail client crashes" None;
     example_incident "2" "switch port down" None] in
  let E := example_env example_reply [] example_choices (Some 200%Z) no_failure in
  exists w3 cs3,
    process_incidents E live_scheduler example_choices None "ts"
      {| retrieved := 5; classified := 0; updated := 0; errors := 0 |}
      (incidents ++ example_incident "3" "" None :: incidents) empty_world
    = (w3, inr cs3)
    /\ map req_description (w_llm w3)
       = ["mail client crashes"; "switch port down";
          "mail client crashes"; "switch port down"].
Proof.
  intros incidents E.
  destruct (proj2 (proj2 (C8_failed_classification E live_scheduler example_choices
                            None "ts"
                            {| retrieved := 5; classified := 0; updated := 0;
                               errors := 0 |}
                            incidents (example_incident "3" "" None) incidents
                            empty_world)) eq_refl)
    as (w1 & cs1 & w2 & w3 & cs3 & _ & _ & _ & _ & _ & _ & Hall & Hllm).
  exists w3, cs3. split; [exact Hall | ]. rewrite Hllm. reflexivity.
Defined.

(* ===================================================================== *)
(** * Answers outside the vocabularies (C1) *)
(* ===================================================================== *)





(* ===================================================================== *)
(** * A missing vocabulary (C4) *)
(* ===================================================================== *)

Lemma get_new_incidents_frame {X} (f : world -> X) E c limit :
  (forall w, f (tick w) = f w) -> preserves f (get_new_incidents E c limit).
Proof.
  intros H. unfold get_new_incidents. destruct c.
  - apply preserves_ask, H.
  - apply preserves_ret.
Qed.

(** C4: when the incident list is not empty and the category, impact or
    urgency vocabulary comes back empty, the cycle returns the counters
    {retrieved: R, classified: 0, updated: 0, errors: 0} at once: no
    completion request and no PATCH is sent, no file is written, and
    [self.stats] stays as it is. *)
Theorem C4_missing_vocabulary E self limit sample_size w w1 incidents :
  get_new_incidents E (sch_connector self) limit w = (w1, inr incidents) ->
  incidents <> [] ->
  snow_choices E (w_step w1) "category" = []
  \/ fst (snow_priority E (S (S (w_step w1)))) = []
  \/ snd (snow_priority E (S (S (w_step w1)))) = [] ->
  exists w',
    process_tickets E self limit sample_size w
    = (w', inr (self, {| retrieved := length incidents; classified := 0;
                         updated := 0; errors := 0 |}))
    /\ w_llm w' = w_llm w /\ w_patch w' = w_patch w
    /\ w_audit w' = w_audit w /\ w_feed w' = w_feed w.
Proof.
  intros Hget Hne Hempty.
  assert (Hllm : w_llm w1 = w_llm w)
    by (eapply preserved; [apply get_new_incidents_frame | exact Hget]; intros []; reflexivity).
  assert (Hpatch : w_patch w1 = w_patch w)
    by (eapply preserved; [apply get_new_incidents_frame | exact Hget]; intros []; reflexivity).
  assert (Haudit : w_audit w1 = w_audit w)
    by (eapply preserved; [apply get_new_incidents_frame | exact Hget]; intros []; reflexivity).
  assert (Hfeed : w_feed w1 = w_feed w)
    by (eapply preserved; [apply get_new_incidents_frame | exact Hget]; intros []; reflexivity).
  unfold process_tickets, prepare_cycle. unfold bind at 1 2. rewrite Hget.
  destruct incidents as [ | inc rest]; [contradiction | ].
  cbn [is_empty].
  unfold get_choice_values, get_priority_lookup_values, bind, ask. cbn [w_step tick].
  assert (Hcond :
    is_empty (snow_choices E (w_step w1) "category")
    || is_empty (fst (snow_priority E (S (S (w_step w1)))))
    || is_empty (snd (snow_priority E (S (S (w_step w1))))) = true).
  { destruct Hempty as [-> | [-> | ->]]; cbn [is_empty orb];
      rewrite ?orb_true_r; reflexivity. }
  rewrite Hcond. eexists. split; [reflexivity | ].
  worlds. auto.
Qed.

(** The scenario of the specification: the category vocabulary is empty. *)
Lemma C4_missing_vocabulary_witness :
  let incidents := [example_incident "1" "mail client crashes" None;
                    example_incident "2" "switch port down" None] in
  let ch := {| category_choices := []; subcategory_choices := ["email"];
               impact_choices := ["1"]; urgency_choices := ["1"] |} in
  let E := example_env example_reply incidents ch (Some 200%Z) no_failure in
  exists w',
    process_tickets E live_scheduler 50 None empty_world
    = (w', inr (live_scheduler,
                {| retrieved := 2; classified := 0; updated := 0; errors := 0 |}))
    /\ w_llm w' = [] /\ w_patch w' = [] /\ w_audit w' = ∅ /\ w_feed w' = None.
Proof.
  intros incidents ch E.
  exact (C4_missing_vocabulary E live_scheduler 50 None empty_world
           (tick empty_world) incidents eq_refl ltac:(discriminate)
           (or_introl eq_refl)).
Defined.

(* ===================================================================== *)
(** * The body of the PATCH (C3, C9, C10) *)
(* ===================================================================== *)

Lemma update_data_markers E now cat conf ag wn snow sub imp urg :
  let body := update_data E now cat conf ag wn snow sub imp urg in
  body !! "u_auto_classification_category" = Some cat
  /\ body !! "u_confidence_score"
     = Some (PStr (float_str E (py_round2 E (conf * 100)%float)))
  /\ body !! "u_auto_classified" = Some (PStr "true")
  /\ body !! "u_classification_timestamp" = Some (PStr now).
Proof.
  cbv zeta. repeat split; read_update_data; by simplify_map_eq.
Qed.

Lemma update_data_work_notes E now cat conf ag notes snow sub imp urg :
  notes <> "" ->
  update_data E now cat conf ag (Some notes) snow sub imp urg !! "work_notes"
  = Some (PStr notes).
Proof.
  intros Hne. rewrite update_data_layers. unfold notes_layer.
  assert (Htruthy : opt_truthy (Some notes) = true).
  { simpl. destruct (String.eqb_spec notes ""); [contradiction | reflexivity]. }
  rewrite Htruthy. cbn [default]. by rewrite lookup_insert_eq.
Qed.

Lemma patched_without body ticket (key : string) :
  body !! key = None -> patched ticket body !! key = ticket !! key.
Proof. intros H. unfold patched. by rewrite lookup_union_r. Qed.

Lemma update_incident_without_category E tid cat conf ag wn snow sub imp urg w :
  snow = PNone \/ snow = PStr "" ->
  exists w' b,
    update_incident E false tid cat conf ag wn snow sub imp urg w = (w', inr b)
    /\ sent_without_category w w'.
Proof.
  intros Hsnow.
  destruct (update_incident_live E tid cat conf ag wn snow sub imp urg w)
    as (w' & b & Hrun & Hpatch & _).
  exists w', b. split; [exact Hrun | ].
  eexists. split; [exact Hpatch | ]. cbn [patch_body].
  assert (Hnone : update_data E (utc_iso E (w_step w)) cat conf ag wn snow sub imp urg
                  !! "category" = None).
  { rewrite update_data_category. destruct Hsnow as [-> | ->]; reflexivity. }
  split; [exact Hnone | ]. intros ticket. apply patched_without, Hnone.
Qed.

Lemma rollback_action_commit E tid num old new w :
  exists w' b,
    update_incident E false (Some tid) (PStr old) 0.0%float None
      (Rollback.work_notes_of (Rollback.patch_data old new))
      (PStr old) PNone PNone PNone w = (w', inr b)
    /\ Rollback.rollback_action E true (tid, num, old, new) w
       = (log_out (if b then PrintPatched num tid else PrintFailed num tid) w',
          inr tt).
Proof.
  destruct (update_incident_live E (Some tid) (PStr old) 0.0%float None
              (Rollback.work_notes_of (Rollback.patch_data old new))
              (PStr old) PNone PNone PNone w) as (w' & b & Hrun & _).
  exists w', b. split; [exact Hrun | ].
  unfold Rollback.rollback_action. cbn [negb]. unfold bind. rewrite Hrun.
  destruct b; reflexivity.
Qed.

(** C10: a live call of [update_incident] whose [snow_category] is None
    or empty sends a PATCH whose body has no "category", so that the
    ticket keeps its category; the rollback of an audit row whose
    [old_category] is empty is such a call, and leaves the category of
    the ticket at the value it has. *)
Theorem C10_empty_snow_category E tid cat conf ag wn sub imp urg w
    (row_id row_number new : string) :
  (exists w' b,
     update_incident E false tid cat conf ag wn PNone sub imp urg w = (w', inr b)
     /\ sent_without_category w w')
  /\ (exists w' b,
        update_incident E false tid cat conf ag wn (PStr "") sub imp urg w
        = (w', inr b)
        /\ sent_without_category w w')
  /\ (exists w',
        Rollback.rollback_action E true (row_id, row_number, "", new) w
        = (w', inr tt)
        /\ sent_without_category w w').
Proof.
  split; [ | split].
  - apply update_incident_without_category. auto.
  - apply update_incident_without_category. auto.
  - destruct (rollback_action_commit E row_id row_number "" new w)
      as (w' & b & Hrun & Haction).
    destruct (update_incident_without_category E (Some row_id) (PStr "")
                0.0%float None
                (Rollback.work_notes_of (Rollback.patch_data "" new))
                (PStr "") PNone PNone PNone w (or_intror eq_refl))
      as (w'' & b' & Hrun' & Hsent).
    rewrite Hrun in Hrun'. injection Hrun' as <- <-.
    eexists. split; [exact Haction | ]. exact Hsent.
Qed.

(** C3 fails on the code: with [--commit] the rollback of a row sends,
    through [update_incident], a PATCH that sets "u_auto_classified" to
    "true" and "u_auto_classification_category" to the old category; the
    [patch_data] that [main] builds with the markers cleared is not what
    is sent.  The work note of [patch_data] is attached. *)
Theorem C3_rollback_keeps_markers E tid num old new w :
  exists w' request,
    Rollback.rollback_action E true (tid, num, old, new) w = (w', inr tt)
    /\ w_patch w' = w_patch w ++ [request]
    /\ patch_ticket request = Some tid
    /\ patch_body request !! "u_auto_classified" = Some (PStr "true")
    /\ patch_body request !! "u_auto_classification_category" = Some (PStr old)
    /\ patch_body request !! "work_notes"
       = Some (PStr ("Rollback: restored category to '" +:+ old
                     +:+ "' (was: '" +:+ new +:+ "')"))
    /\ Rollback.patch_data old new !! "u_auto_classified" = Some (PStr "false")
    /\ Rollback.patch_data old new !! "u_auto_classification_category"
       = Some (PStr "").
Proof.
  destruct (rollback_action_commit E tid num old new w)
    as (w' & b & Hrun & Haction).
  destruct (update_incident_live E (Some tid) (PStr old) 0.0%float None
              (Rollback.work_notes_of (Rollback.patch_data old new))
              (PStr old) PNone PNone PNone w)
    as (w'' & b' & Hrun' & Hpatch & _).
  rewrite Hrun in Hrun'. injection Hrun' as <- <-.
  eexists _, _. split; [exact Haction | ].
  split; [destruct b; exact Hpatch | ].
  cbn [patch_ticket patch_body].
  destruct (update_data_markers E (utc_iso E (w_step w)) (PStr old) 0.0%float None
              (Rollback.work_notes_of (Rollback.patch_data old new))
              (PStr old) PNone PNone PNone) as (Hcat & _ & Hmark & _).
  split; [reflexivity | ]. split; [exact Hmark | ]. split; [exact Hcat | ].
  split; [ | split].
  - unfold Rollback.work_notes_of, Rollback.patch_data.
    rewrite lookup_insert_eq. apply update_data_work_notes. discriminate.
  - unfold Rollback.patch_data. by simplify_map_eq.
  - unfold Rollback.patch_data. by simplify_map_eq.
Qed.

(* ===================================================================== *)
(** * The live update of a classified incident (C9) *)
(* ===================================================================== *)

Lemma str_take_length n s : String.length (str_take n s) <= n.
Proof.
  unfold str_take. revert s. induction n as [ | n IH]; intros [ | c s]; simpl;
    try lia.
  specialize (IH s). lia.
Qed.

(** What [classify] accepts is in the vocabularies. *)
Lemma classify_success E description ch w d :
  snd (classify E description (category_choices ch) (subcategory_choices ch)
         (impact_choices ch) (urgency_choices ch) w) = inr (SUCCESS d) ->
  py_in (d_category d) (category_choices ch) = true
  /\ (truthy (d_subcategory d) = true ->
      py_in (d_subcategory d) (subcategory_choices ch) = true)
  /\ py_in (d_impact d) (impact_choices ch) = true
  /\ py_in (d_urgency d) (urgency_choices ch) = true.
Proof.
  unfold classify. destruct (String.eqb description ""); [intros [=] | ].
  unfold call_azure_openai, bind, modify, ask, lift, raise, ret. simpl.
  destruct (azure_openai E (w_step w) _) as [e | raw]; [intros [=] | ].
  destruct (extract_json E raw) as [e | result]; [intros [=] | ].
  destruct (dict_get result "category" PNone) as [e | category]; [intros [=] | ].
  destruct (dict_get result "subcategory" PNone) as [e | subcategory];
    [intros [=] | ].
  destruct (dict_get result "impact" PNone) as [e | impact]; [intros [=] | ].
  destruct (dict_get result "urgency" PNone) as [e | urgency]; [intros [=] | ].
  destruct (dict_get result "confidence" (PFloat 0)) as [e | confidence_raw];
    [intros [=] | ].
  destruct (py_in category (category_choices ch)) eqn:Hcat; simpl;
    [ | intros [=]].
  destruct (truthy subcategory) eqn:Htruthy;
    destruct (py_in subcategory (subcategory_choices ch)) eqn:Hsub; simpl;
    try (intros [=]; fail);
    (destruct (py_in impact (impact_choices ch)) eqn:Himp; simpl;
     [ | intros [=]]);
    (destruct (py_in urgency (urgency_choices ch)) eqn:Hurg; simpl;
     [ | intros [=]]);
    intros [= <-]; simpl; repeat split; auto; congruence.
Qed.

Lemma py_in_str v choices :
  py_in v choices = true -> exists s, v = PStr s /\ s ∈ choices.
Proof.
  destruct v; simpl; try discriminate.
  intros H. apply bool_decide_eq_true in H. eauto.
Qed.

(** The PATCH that the loop body sends through the live connector. *)
Lemma update_classified_live E self path ts cs inc ms d w :
  sch_connector self = ServiceNowConnector false ->
  post (update_classified E self path ts cs inc ms d) w
    (fun w' _ =>
       exists now notes,
         w_patch w'
         = w_patch w
           ++ [ {| patch_ticket := inc_sys_id inc;
                   patch_body :=
                     update_data E now (d_category d) (d_confidence d) None
                       (Some notes) (d_category d) (d_subcategory d)
                       (d_impact d) (d_urgency d) |} ]).
Proof.
  intros Hlive. unfold update_classified. rewrite Hlive.
  cbn [connector_update_incident].
  walk; framed w_patch; eexists _, _; worlds;
    repeat match goal with H : w_patch _ = _ |- _ => rewrite H; clear H end;
    reflexivity.
Qed.

(** C9, as stated, fails: the vocabulary below has the empty category,
    the model chooses it, and the live update is sent without any
    "category" in its body. *)
Lemma C9_counterexample :
  let ch := {| category_choices := [""; "software"];
               subcategory_choices := ["email"];
               impact_choices := ["1"; "2"; "3"];
               urgency_choices := ["1"; "2"; "3"] |} in
  let incidents := [example_incident "9" "empty category" (Some "inquiry")] in
  let E := example_env example_reply incidents ch (Some 200%Z) no_failure in
  exists w self cs,
    process_tickets E live_scheduler 50 None empty_world = (w, inr (self, cs))
    /\ cs = {| retrieved := 1; classified := 1; updated := 1; errors := 0 |}
    /\ map patch_ticket (w_patch w) = [Some "9"]
    /\ map (fun r => patch_body r !! "category") (w_patch w) = [None]
    /\ map (fun r => patch_body r !! "u_auto_classification_category") (w_patch w)
       = [Some (PStr "")].
Proof.
  eexists _, _, _. split; [vm_compute; reflexivity | ].
  repeat split; vm_compute; reflexivity.
Qed.

(** C9 (amended): for every live update of a classified incident whose
    classified category is not empty, the PATCH that is sent for the
    ticket carries as "category" the first 40 characters of the
    classified category, and sets u_auto_classification_category to the
    classified category, u_confidence_score to str(round(confidence *
    100, 2)), u_auto_classified to "true" and u_classification_timestamp
    to the time of the update. *)
Theorem C9_live_update E self ch path ts cs inc w d :
  sch_connector self = ServiceNowConnector false ->
  snd (classify E (default "" (inc_short_description inc)) (category_choices ch)
         (subcategory_choices ch) (impact_choices ch) (urgency_choices ch) w)
  = inr (SUCCESS d) ->
  d_category d <> PStr "" ->
  exists w' cs' request category now,
    process_incident E self ch path ts cs inc w = (w', inr cs')
    /\ w_patch w' = w_patch w ++ [request]
    /\ patch_ticket request = inc_sys_id inc
    /\ d_category d = PStr category
    /\ patch_body request !! "category" = Some (PStr (str_take 40 category))
    /\ String.length (str_take 40 category) <= 40
    /\ patch_body request !! "u_auto_classification_category"
       = Some (PStr category)
    /\ patch_body request !! "u_confidence_score"
       = Some (PStr (float_str E (py_round2 E (d_confidence d * 100)%float)))
    /\ patch_body request !! "u_auto_classified" = Some (PStr "true")
    /\ patch_body request !! "u_classification_timestamp" = Some (PStr now).
Proof.
  intros Hlive Hclassified Hnonempty.
  destruct (classify_success E _ ch w d Hclassified) as (Hcat & _).
  destruct (py_in_str _ _ Hcat) as (category & Hstr & _).
  pose proof (classify_patch E (default "" (inc_short_description inc)) ch w)
    as Hframe.
  assert (Hpost :
    post (process_incident E self ch path ts cs inc) w
      (fun w' _ =>
         exists now notes,
           w_patch w'
           = w_patch w
             ++ [ {| patch_ticket := inc_sys_id inc;
                     patch_body :=
                       update_data E now (d_category d) (d_confidence d) None
                         (Some notes) (d_category d) (d_subcategory d)
                         (d_impact d) (d_urgency d) |} ])).
  { apply process_incident_post.
    - intros e He. rewrite He in Hclassified. discriminate.
    - intros s Hs. rewrite Hs in Hclassified. discriminate.
    - intros d' Hd'. rewrite Hd' in Hclassified. injection Hclassified as ->.
      eapply post_mono; [apply update_classified_live, Hlive | ].
      intros w' _ (now & notes & Hpatch). exists now, notes.
      rewrite Hpatch. worlds. rewrite Hframe. reflexivity. }
  destruct Hpost as (w' & cs' & Hrun & now & notes & Hpatch).
  destruct (update_data_markers E now (d_category d) (d_confidence d) None
              (Some notes) (d_category d) (d_subcategory d) (d_impact d)
              (d_urgency d)) as (Hauto & Hscore & Hmark & Htime).
  eexists w', cs', _, category, now.
  split; [exact Hrun | ]. split; [exact Hpatch | ]. cbn [patch_ticket patch_body].
  split; [reflexivity | ]. split; [exact Hstr | ].
  split.
  { rewrite update_data_category, Hstr.
    destruct (String.eqb_spec category ""); [ | reflexivity].
    subst category. contradiction. }
  split; [apply str_take_length | ].
  split; [rewrite Hauto; congruence | ].
  auto.
Qed.

Lemma C9_live_update_witness :
  let E := example_env example_reply [] example_choices (Some 200%Z) no_failure in
  let inc := example_incident "1" "mail client crashes" (Some "inquiry") in
  let cs := {| retrieved := 1; classified := 0; updated := 0; errors := 0 |} in
  exists w' cs' request,
    process_incident E live_scheduler example_choices None "ts" cs inc empty_world
    = (w', inr cs')
    /\ w_patch w' = [request]
    /\ patch_body request !! "category" = Some (PStr "software")
    /\ patch_body request !! "u_auto_classified" = Some (PStr "true").
Proof.
  intros E inc cs.
  destruct (C9_live_update E live_scheduler example_choices None "ts" cs inc
              empty_world
              {| d_category := PStr "software"; d_subcategory := PStr "email";
                 d_impact := PStr "2"; d_urgency := PStr "3";
                 d_confidence := 0.73%float |}
              eq_refl eq_refl ltac:(discriminate))
    as (w' & cs' & request & category & now & Hrun & Hpatch & _ & Hcat & Hbody
        & _ & _ & _ & Hmark & _).
  injection Hcat as <-.
  exists w', cs', request. auto.
Defined.

(* ===================================================================== *)
(** * Dry-run cycles (C6) *)
(* ===================================================================== *)

(** C6, as stated, fails: the write of the result feed fails, the
    exception is swallowed at line 176, and the dry-run cycle classifies
    one incident without the feed growing. *)
Lemma C6_counterexample :
  let incidents := [example_incident "1" "mail client crashes" None] in
  let E := example_env example_reply incidents example_choices (Some 200%Z)
             (fun op => match op with IoWriteJson => true | _ => false end) in
  exists w self cs,
    process_tickets E dry_scheduler 50 None empty_world = (w, inr (self, cs))
    /\ cs = {| retrieved := 1; classified := 1; updated := 1; errors := 0 |}
    /\ feed_records w = feed_records empty_world.
Proof.
  eexists _, _, _. split; [vm_compute; reflexivity | ].
  split; vm_compute; reflexivity.
Qed.

Lemma post_io E op w (Q : world -> unit -> Prop) :
  reliable_files E -> Q (tick w) tt -> post (io E op) w Q.
Proof.
  intros Hio HQ. unfold io. apply post_bind, post_ask. rewrite Hio.
  apply post_ret, HQ.
Qed.

Lemma post_try {A} (c : M A) (h : exn -> M A) w (Q : world -> A -> Prop) :
  post c w Q -> post (try_except c h) w Q.
Proof.
  intros (w' & a & Hc & HQ). exists w', a. split; [ | exact HQ].
  unfold try_except. rewrite Hc. reflexivity.
Qed.

(** ** Steps that forget the world they start from *)

Lemma post_bind_kept {A B} (c : M A) (k : A -> M B) w (R : A -> Prop)
    (Q : world -> B -> Prop) :
  post c w (fun w1 a => kept w w1 /\ R a) ->
  (forall w1 a, kept w w1 -> R a -> post (k a) w1 Q) ->
  post (bind c k) w Q.
Proof.
  intros Hc Hk. apply post_bind. eapply post_mono; [exact Hc | ].
  intros w1 a [Hkept HR]. apply Hk; assumption.
Qed.

Lemma ask_kept {A} (o : nat -> A) w :
  post (ask o) w (fun w1 a => kept w w1 /\ a = o (w_step w)).
Proof. apply post_ask. repeat split. Qed.

Lemma get_kept {A} (g : world -> A) w :
  post (get g) w (fun w1 a => kept w w1 /\ a = g w).
Proof. apply post_get. repeat split. Qed.

Lemma io_kept E op w :
  reliable_files E -> post (io E op) w (fun w1 _ => kept w w1 /\ True).
Proof. intros Hio. apply post_io; [exact Hio | ]. repeat split. Qed.

Lemma modify_kept (g : world -> world) w :
  kept w (g w) -> post (modify g) w (fun w1 _ => kept w w1 /\ True).
Proof. intros H. apply post_modify. auto. Qed.

Ltac kept_trans := unfold kept in *; intuition congruence.

Lemma append_task_result_grows E tid text cat conf kw ms w :
  reliable_files E ->
  post (append_task_result E tid text cat conf kw ms) w
    (fun w' _ =>
       exists record,
         feed_records w' = feed_records w ++ [record]
         /\ rr_ticket_id record = tid /\ rr_input_text record = text
         /\ rr_category record = cat /\ rr_confidence record = conf
         /\ w_patch w' = w_patch w /\ w_audit w' = w_audit w
         /\ w_llm w' = w_llm w).
Proof.
  intros Hio. unfold append_task_result.
  eapply post_bind_kept; [apply ask_kept | ]. intros w1 now K1 ->.
  eapply post_bind_kept; [apply io_kept, Hio | ]. intros w2 [] K2 _.
  (* the existing records *)
  eapply post_bind_kept with (R := fun data => data = feed_records w).
  { apply post_try.
    eapply post_bind_kept; [apply get_kept | ]. intros w3 feed K3 ->.
    assert (Hfeed : w_feed w2 = w_feed w) by kept_trans.
    unfold feed_records. rewrite <- Hfeed.
    destruct (w_feed w2) as [content | ].
    - eapply post_bind_kept; [apply io_kept, Hio | ]. intros w4 [] K4 _.
      apply post_ret. split; [kept_trans | ]. destruct content; reflexivity.
    - apply post_ret. split; [kept_trans | reflexivity]. }
  intros w3 data K3 ->.
  eapply post_bind_kept; [apply io_kept, Hio | ]. intros w4 [] K4 _.
  (* the archive *)
  eapply post_bind_kept with (R := fun _ => True).
  { apply post_try.
    eapply post_bind_kept; [apply get_kept | ]. intros w5 feed K5 ->.
    destruct (w_feed w4) as [content | ].
    - eapply post_bind_kept; [apply ask_kept | ]. intros w6 ts K6 ->.
      apply post_try.
      eapply post_bind_kept; [apply io_kept, Hio | ]. intros w7 [] K7 _.
      apply post_modify. split; [ | exact I].
      assert (kept w7 (set_archive
                         (<[archive_path (utc_compact E (w_step w5)) := content]>
                            (w_archive w7)) w7)) by (repeat split).
      kept_trans.
    - apply post_ret. split; [kept_trans | exact I]. }
  intros w5 [] K5 _.
  (* the feed itself *)
  eapply post_bind_kept; [apply io_kept, Hio | ]. intros w6 [] K6 _.
  apply post_bind, post_modify.
  set (record := {| rr_timestamp := utc_iso E (w_step w) +:+ "Z";
                    rr_ticket_id := tid; rr_input_text := text;
                    rr_category := cat; rr_confidence := conf;
                    rr_matched_keywords := kw; rr_execution_time_ms := ms |}).
  assert (Hwritten :
    forall w7, kept (set_feed (FeedRecords (feed_records w ++ [record])) w6) w7 ->
      exists record0,
        feed_records w7 = feed_records w ++ [record0]
        /\ rr_ticket_id record0 = tid /\ rr_input_text record0 = text
        /\ rr_category record0 = cat /\ rr_confidence record0 = conf
        /\ w_patch w7 = w_patch w /\ w_audit w7 = w_audit w
        /\ w_llm w7 = w_llm w).
  { intros w7 (Hl & Hp & Ha & Hf). exists record. unfold feed_records at 1.
    rewrite Hf. cbn [w_feed set_feed]. split; [reflexivity | ].
    cbn [w_llm w_patch w_audit set_feed] in Hl, Hp, Ha.
    repeat split; try reflexivity; kept_trans. }
  generalize dependent (set_feed (FeedRecords (feed_records w ++ [record])) w6).
  intros w7 Hwritten.
  (* the latest snapshot *)
  eapply post_bind_kept with (R := fun _ => True).
  { apply post_try.
    eapply post_bind_kept; [apply io_kept, Hio | ]. intros w8 [] K8 _.
    apply post_modify. split; [ | exact I].
    assert (kept w8 (set_latest (feed_records w ++ [record]) w8)) by (repeat split).
    kept_trans. }
  intros w8 [] K8 _.
  (* the CSV mirror *)
  eapply post_bind_kept; [apply get_kept | ]. intros w9 csv K9 ->.
  eapply post_bind_kept; [apply io_kept, Hio | ]. intros w10 [] K10 _.
  eapply post_bind_kept; [apply io_kept, Hio | ]. intros w11 [] K11 _.
  eapply post_bind_kept; [apply modify_kept; repeat split | ].
  intros w12 [] K12 _.
  eapply post_bind_kept; [apply io_kept, Hio | ]. intros w13 [] K13 _.
  apply post_modify. apply Hwritten.
  assert (kept w13 (set_csv (default [] (w_csv w8) ++ [record]) w13))
    by (repeat split).
  kept_trans.
Qed.

(** In dry-run no PATCH is sent and no audit file is touched. *)
Lemma update_classified_dry E self ts cs inc ms d w :
  sch_connector self <> ServiceNowConnector false ->
  post (update_classified E self None ts cs inc ms d) w
    (fun w' _ => w_patch w' = w_patch w /\ w_audit w' = w_audit w).
Proof.
  intros Hdry. unfold update_classified.
  destruct (sch_connector self) as [[ | ] | test_data]; [ | contradiction | ];
    cbn [connector_update_incident];
    walk; framed w_patch; framed w_audit; worlds; split; congruence.
Qed.

Lemma feed_records_same w w' : w_feed w' = w_feed w -> feed_records w' = feed_records w.
Proof. intros H. unfold feed_records. rewrite H. reflexivity. Qed.

Lemma update_classified_feed E self path ts cs inc ms d w :
  reliable_files E ->
  post (update_classified E self path ts cs inc ms d) w
    (fun w' _ => exists record, feed_records w' = feed_records w ++ [record]).
Proof.
  intros Hio. unfold update_classified. apply post_bind, post_try.
  eapply post_mono; [apply append_task_result_grows, Hio | ].
  intros w1 _ (record & Hgrow & _).
  walk; framed w_feed; exists record; rewrite <- Hgrow;
    apply feed_records_same; worlds; congruence.
Qed.

Lemma process_incident_dry E self ch ts cs inc w :
  sch_connector self <> ServiceNowConnector false ->
  post (process_incident E self ch None ts cs inc) w
    (fun w' _ => w_patch w' = w_patch w /\ w_audit w' = w_audit w).
Proof.
  intros Hdry.
  pose proof (classify_patch E (default "" (inc_short_description inc)) ch w) as Hp.
  pose proof (classify_audit E (default "" (inc_short_description inc)) ch w) as Ha.
  apply process_incident_post.
  - auto.
  - intros s _. worlds. auto.
  - intros d _. eapply post_mono; [apply update_classified_dry, Hdry | ].
    intros w' _ [Hp' Ha']. worlds. split; congruence.
Qed.

Lemma process_incident_feed E self ch path ts cs inc w :
  reliable_files E ->
  post (process_incident E self ch path ts cs inc) w
    (fun w' cs' =>
       exists records,
         feed_records w' = feed_records w ++ records
         /\ classified cs' = classified cs + length records).
Proof.
  intros Hio.
  pose proof (classify_feed E (default "" (inc_short_description inc)) ch w) as Hf.
  assert (Hfeed : forall w1, w_feed w1 = w_feed w -> feed_records w1 = feed_records w)
    by (intros w1 H; unfold feed_records; rewrite H; reflexivity).
  apply process_incident_post.
  - intros e _. exists []. rewrite app_nil_r. simpl. split; [auto | lia].
  - intros s _. exists []. rewrite app_nil_r. simpl. split; [ | lia].
    apply Hfeed. worlds. exact Hf.
  - intros d _.
    destruct (update_classified_counters E self path ts cs inc
                (elapsed_ms E
                   (w_step (fst (classify E (default "" (inc_short_description inc))
                                   (category_choices ch) (subcategory_choices ch)
                                   (impact_choices ch) (urgency_choices ch) w))))
                d (tick (fst (classify E (default "" (inc_short_description inc))
                                (category_choices ch) (subcategory_choices ch)
                                (impact_choices ch) (urgency_choices ch) w))))
      as (w' & cs' & Hrun & _ & Hcl & _).
    exists w', cs'. split; [exact Hrun | ].
    destruct (post_run _ _ _ _ _ Hrun
                (update_classified_feed E self path ts cs inc _ d _ Hio))
      as (record & Hgrow).
    exists [record]. rewrite Hgrow. split.
    + f_equal. apply Hfeed. worlds. exact Hf.
    + simpl. lia.
Qed.

Lemma process_incidents_dry E self ch ts incidents :
  sch_connector self <> ServiceNowConnector false ->
  forall cs w,
    post (process_incidents E self ch None ts cs incidents) w
      (fun w' _ => w_patch w' = w_patch w /\ w_audit w' = w_audit w).
Proof.
  intros Hdry. induction incidents as [ | inc rest IH]; intros cs w.
  - apply post_ret. auto.
  - cbn [process_incidents]. apply post_bind.
    eapply post_mono; [apply process_incident_dry, Hdry | ].
    intros w1 cs1 [Hp Ha]. eapply post_mono; [apply IH | ].
    intros w2 cs2 [Hp2 Ha2]. split; congruence.
Qed.

Lemma process_incidents_feed E self ch path ts incidents :
  reliable_files E ->
  forall cs w,
    post (process_incidents E self ch path ts cs incidents) w
      (fun w' cs' =>
         exists records,
           feed_records w' = feed_records w ++ records
           /\ classified cs' = classified cs + length records).
Proof.
  intros Hio. induction incidents as [ | inc rest IH]; intros cs w.
  - apply post_ret. exists []. rewrite app_nil_r. simpl. split; [auto | lia].
  - cbn [process_incidents]. apply post_bind.
    eapply post_mono; [apply process_incident_feed, Hio | ].
    intros w1 cs1 (records1 & Hf1 & Hc1). eapply post_mono; [apply IH | ].
    intros w2 cs2 (records2 & Hf2 & Hc2). exists (records1 ++ records2).
    rewrite Hf2, Hf1, app_assoc, length_app. split; [reflexivity | lia].
Qed.

(** The audit path that lines 119-124 choose when they do not raise. *)
Lemma audit_path_made E (dry : bool) ts w w1 (o : option string) :
  (if dry then ret None
   else io E IoMakedirs ;;; ret (Some (audit_path ts))) w = (w1, inr o) ->
  o = if dry then None else Some (audit_path ts).
Proof.
  destruct dry.
  - intros H. injection H as _ <-. reflexivity.
  - unfold io, bind, ask, raise, ret. cbn beta iota.
    destruct (io_fails E (w_step w) IoMakedirs); simpl; intros H;
      [discriminate H | injection H as _ <-; reflexivity].
Qed.

(** What the first part of a cycle leaves alone, and the audit path it
    chooses. *)
Lemma prepare_cycle_frame E self limit sample_size w :
  post (prepare_cycle E self limit sample_size) w
    (fun w' p =>
       w_patch w' = w_patch w /\ w_audit w' = w_audit w
       /\ w_feed w' = w_feed w /\ w_llm w' = w_llm w
       /\ match snd p with
          | Loop _ _ path ts =>
              path = if sch_dry_run self then None else Some (audit_path ts)
          | _ => True
          end).
Proof.
  unfold prepare_cycle, get_new_incidents, get_choice_values,
    get_priority_lookup_values.
  walk; framed w_patch; framed w_audit; framed w_feed; framed w_llm;
    cbn [snd]; repeat split;
    try (eapply audit_path_made; eassumption);
    worlds; congruence.
Qed.

(** C6 (amended): in a dry-run cycle the update operation reports
    success without sending anything, no PATCH is sent and no audit file
    is created or changed; when no file operation fails, the result feed
    grows by exactly one record per classified incident (a failed write
    of the feed is logged and the record is skipped). *)
Theorem C6_dry_run E self limit sample_size w :
  sch_dry_run self = true ->
  sch_connector self <> ServiceNowConnector false ->
  (forall tid cat conf ag wn snow sub imp urg w0,
     update_incident E true tid cat conf ag wn snow sub imp urg w0
     = (w0, inr true))
  /\ exists w' self' cs,
       process_tickets E self limit sample_size w = (w', inr (self', cs))
       /\ w_patch w' = w_patch w /\ w_audit w' = w_audit w
       /\ (reliable_files E ->
           exists records,
             feed_records w' = feed_records w ++ records
             /\ length records = classified cs).
Proof.
  intros Hdry Hconnector. split; [intros; reflexivity | ].
  unfold process_tickets.
  destruct (prepare_cycle_frame E self limit sample_size w)
    as (w1 & [cs1 p] & Hprep & Hp & Ha & Hf & _ & Hpath).
  destruct (prepare_cycle_counters E self limit sample_size w)
    as (w1' & p' & Hprep' & Hcl & _).
  rewrite Hprep in Hprep'. injection Hprep' as <- <-. cbn [fst snd] in *.
  unfold bind at 1. rewrite Hprep.
  assert (Hsame : feed_records w1 = feed_records w)
    by (unfold feed_records; rewrite Hf; reflexivity).
  destruct p as [ | | incidents ch path ts].
  - eexists _, _, _. split; [reflexivity | ]. repeat split; auto.
    intros _. exists []. rewrite app_nil_r. auto.
  - eexists _, _, _. split; [reflexivity | ]. repeat split; auto.
    intros _. exists []. rewrite app_nil_r. auto.
  - rewrite Hdry in Hpath. subst path.
    destruct (process_incidents_dry E self ch ts incidents Hconnector cs1 w1)
      as (w2 & cs2 & Hrun & Hp2 & Ha2).
    unfold bind. rewrite Hrun. eexists _, _, _. split; [reflexivity | ].
    split; [congruence | ]. split; [congruence | ].
    intros Hio.
    destruct (post_run _ _ _ _ _ Hrun
                (process_incidents_feed E self ch None ts incidents Hio cs1 w1))
      as (records & Hgrow & Hcount).
    exists records. split; [congruence | lia].
Qed.

Lemma C6_dry_run_witness :
  let incidents := [example_incident "1" "mail client crashes" None;
                    example_incident "2" "laptop screen broken" None;
                    example_incident "3" "switch port down" None] in
  let E := example_env example_reply incidents example_choices (Some 200%Z)
             no_failure in
  exists w' self' cs,
    process_tickets E dry_scheduler 50 None empty_world = (w', inr (self', cs))
    /\ w_patch w' = [] /\ w_audit w' = ∅
    /\ exists records, feed_records w' = records /\ length records = classified cs.
Proof.
  intros incidents E.
  destruct (proj2 (C6_dry_run E dry_scheduler 50 None empty_world eq_refl
                     ltac:(discriminate)))
    as (w' & self' & cs & Hrun & Hp & Ha & Hfeed).
  exists w', self', cs. split; [exact Hrun | ].
  split; [exact Hp | ]. split; [exact Ha | ].
  apply Hfeed. intros n op. reflexivity.
Defined.

(* ===================================================================== *)
(** * The audit file and its rollback (C2) *)
(* ===================================================================== *)

(** C2, as stated, fails: the append to the audit file fails, the
    exception is swallowed at line 215, and the live cycle has updated
    one ticket while its audit file has no row. *)
Lemma C2_counterexample :
  let incidents := [example_incident "1" "mail client crashes" (Some "inquiry")] in
  let E := example_env example_reply incidents example_choices (Some 200%Z)
             (fun op => match op with IoAppendAudit => true | _ => false end) in
  exists w self cs,
    process_tickets E live_scheduler 50 None empty_world = (w, inr (self, cs))
    /\ cs = {| retrieved := 1; classified := 1; updated := 1; errors := 0 |}
    /\ map patch_ticket (w_patch w) = [Some "1"]
    /\ audit_rows w (audit_path "20260113T115055Z") = [].
Proof.
  eexists _, _, _. split; [vm_compute; reflexivity | ].
  repeat split; vm_compute; reflexivity.
Qed.

Lemma post_audit_io E op w (Q : world -> unit -> Prop) :
  audit_io_works E ->
  op = IoMakedirs \/ op = IoOpenAudit \/ op = IoAppendAudit \/ op = IoReadAudit ->
  Q (tick w) tt -> post (io E op) w Q.
Proof.
  intros Hio Hop HQ. unfold io. apply post_bind, post_ask.
  destruct (Hio (w_step w)) as (H1 & H2 & H3 & H4).
  destruct Hop as [-> | [-> | [-> | ->]]]; rewrite ?H1, ?H2, ?H3, ?H4;
    apply post_ret, HQ.
Qed.

Lemma append_audit_entry_appends E path num tid old new conf ts dry w :
  audit_io_works E ->
  post (append_audit_entry E path num tid old new conf ts dry) w
    (fun w' _ =>
       exists row,
         audit_rows w' path = audit_rows w path ++ [row]
         /\ row_ticket_id row = default "" tid
         /\ row_ticket_number row = default "" num
         /\ row_old_category row = default "" old).
Proof.
  intros Hio. unfold append_audit_entry.
  apply post_bind, (post_audit_io E _ _ _ Hio); [auto | ].
  apply post_bind, (post_audit_io E _ _ _ Hio); [auto | ].
  apply post_bind, post_modify.
  apply post_bind, (post_audit_io E _ _ _ Hio); [auto | ].
  apply post_modify. eexists. unfold audit_rows. worlds.
  rewrite !lookup_insert_eq. cbn [default]. split; [reflexivity | ].
  simpl. auto.
Qed.

(** The audit file after the second half of the loop body: one more row
    exactly when the update was counted. *)
Lemma update_classified_audit E self path ts cs inc ms d w :
  audit_io_works E ->
  post (update_classified E self (Some path) ts cs inc ms d) w
    (fun w' cs' =>
       updated cs' = updated cs /\ audit_rows w' path = audit_rows w path
       \/ updated cs' = S (updated cs)
          /\ exists row,
               audit_rows w' path = audit_rows w path ++ [row]
               /\ row_of_incident row inc).
Proof.
  intros Hio.
  assert (Hrows : forall w1, w_audit w1 = w_audit w ->
                             audit_rows w1 path = audit_rows w path)
    by (intros w1 H; unfold audit_rows; rewrite H; reflexivity).
  unfold update_classified.
  apply post_bind, post_swallow. intros w1 r1 H1.
  apply post_bind, post_ask.
  apply post_bind, post_attempt. intros w2 r2 H2.
  framed w_audit. worlds.
  destruct r2 as [e | [ | ]].
  - apply post_ret. left. split; [reflexivity | ]. apply Hrows. congruence.
  - apply post_bind, post_try.
    eapply post_mono; [apply append_audit_entry_appends, Hio | ].
    intros w3 _ (row & Happend & Hid & Hnum & Hold).
    apply post_ret. right. split; [reflexivity | ].
    exists row. split; [ | split; [ | split]]; try assumption.
    rewrite Happend. f_equal. apply Hrows. congruence.
  - apply post_ret. left. split; [reflexivity | ]. apply Hrows. congruence.
Qed.

Lemma process_incident_audit E self ch path ts cs inc w :
  audit_io_works E ->
  post (process_incident E self ch (Some path) ts cs inc) w
    (fun w' cs' =>
       updated cs' = updated cs /\ audit_rows w' path = audit_rows w path
       \/ updated cs' = S (updated cs)
          /\ exists row,
               audit_rows w' path = audit_rows w path ++ [row]
               /\ row_of_incident row inc).
Proof.
  intros Hio.
  pose proof (classify_audit E (default "" (inc_short_description inc)) ch w) as Ha.
  assert (Hrows : forall w1, w_audit w1 = w_audit w ->
                             audit_rows w1 path = audit_rows w path)
    by (intros w1 H; unfold audit_rows; rewrite H; reflexivity).
  apply process_incident_post.
  - intros e _. left. auto.
  - intros s _. left. split; [reflexivity | ]. apply Hrows. worlds. exact Ha.
  - intros d _. eapply post_mono; [apply update_classified_audit, Hio | ].
    intros w' cs' H.
    assert (Hstart : audit_rows
                       (tick (fst (classify E (default "" (inc_short_description inc))
                                     (category_choices ch) (subcategory_choices ch)
                                     (impact_choices ch) (urgency_choices ch) w)))
                       path = audit_rows w path)
      by (apply Hrows; worlds; exact Ha).
    rewrite Hstart in H. exact H.
Qed.

Lemma process_incidents_audit E self ch path ts incidents :
  audit_io_works E ->
  forall cs w,
    post (process_incidents E self ch (Some path) ts cs incidents) w
      (fun w' cs' =>
         exists rows done,
           audit_rows w' path = audit_rows w path ++ rows
           /\ updated cs' = updated cs + length rows
           /\ sublist done incidents
           /\ Forall2 row_of_incident rows done).
Proof.
  intros Hio. induction incidents as [ | inc rest IH]; intros cs w.
  - apply post_ret. exists [], []. rewrite app_nil_r. simpl.
    split; [reflexivity | ]. split; [lia | ]. split; constructor.
  - cbn [process_incidents]. apply post_bind.
    eapply post_mono; [apply process_incident_audit, Hio | ].
    intros w1 cs1 Hinc. eapply post_mono; [apply IH | ].
    intros w2 cs2 (rows & done & Hrows & Hupdated & Hsub & Hall).
    destruct Hinc as [[Hu Ha] | (Hu & row & Ha & Hrow)].
    + exists rows, done. rewrite Hrows, Ha, Hupdated, Hu.
      split; [reflexivity | ]. split; [reflexivity | ].
      split; [apply sublist_cons, Hsub | exact Hall].
    + exists (row :: rows), (inc :: done).
      rewrite Hrows, Ha, Hupdated, Hu, <- app_assoc. cbn [app length].
      split; [reflexivity | ]. split; [lia | ].
      split; [apply sublist_skip, Hsub | constructor; assumption].
Qed.

(** With [--commit] every action sends one PATCH, the inverse update of
    its row. *)
Lemma rollback_action_inverse E row w :
  post (Rollback.rollback_action E true (Rollback.action_of_row row)) w
    (fun w' _ =>
       exists request,
         w_patch w' = w_patch w ++ [request] /\ inverse_update row request).
Proof.
  unfold Rollback.action_of_row.
  destruct (rollback_action_commit E (row_ticket_id row) (row_ticket_number row)
              (row_old_category row) (row_new_category row) w)
    as (w1 & b & Hrun & Haction).
  destruct (update_incident_live E (Some (row_ticket_id row))
              (PStr (row_old_category row)) 0.0%float None
              (Rollback.work_notes_of
                 (Rollback.patch_data (row_old_category row) (row_new_category row)))
              (PStr (row_old_category row)) PNone PNone PNone w)
    as (w1' & b' & Hrun' & Hpatch & _).
  rewrite Hrun in Hrun'. injection Hrun' as <- <-.
  eexists _, tt. split; [exact Haction | ].
  eexists. split; [destruct b; exact Hpatch | ].
  split; [reflexivity | ]. intros Hold. cbn [patch_body].
  rewrite update_data_category.
  destruct (String.eqb_spec (row_old_category row) ""); [contradiction | reflexivity].
Qed.

Lemma rollback_actions_inverse E rows :
  forall w,
    post (Rollback.rollback_actions E true (map Rollback.action_of_row rows)) w
      (fun w' _ =>
         exists requests,
           w_patch w' = w_patch w ++ requests
           /\ Forall2 inverse_update rows requests).
Proof.
  induction rows as [ | row rest IH]; intros w.
  - apply post_ret. exists []. rewrite app_nil_r. split; [reflexivity | constructor].
  - cbn [map Rollback.rollback_actions]. apply post_bind.
    eapply post_mono; [apply rollback_action_inverse | ].
    intros w1 _ (request & Hp1 & Hinv). eapply post_mono; [apply IH | ].
    intros w2 _ (requests & Hp2 & Hall). exists (request :: requests).
    rewrite Hp2, Hp1, <- app_assoc. split; [reflexivity | constructor; assumption].
Qed.

Lemma main_commit E path w :
  audit_io_works E ->
  post (Rollback.main E path true) w
    (fun w' _ =>
       exists requests,
         w_patch w' = w_patch w ++ requests
         /\ Forall2 inverse_update (audit_rows w path) requests).
Proof.
  intros Hio. unfold Rollback.main, audit_rows. apply post_bind, post_get.
  destruct (w_audit w !! path) as [rows | ]; cbn [default].
  - apply post_bind, (post_audit_io E _ _ _ Hio); [auto | ].
    apply post_bind, post_modify.
    eapply post_mono; [apply rollback_actions_inverse | ].
    intros w' _ (requests & Hp & Hall). exists requests. split; [ | exact Hall].
    rewrite Hp. reflexivity.
  - apply post_modify. exists []. rewrite app_nil_r.
    split; [reflexivity | constructor].
Qed.

(** C2 (amended): for every live cycle that reaches its loop, whose
    audit file does not exist beforehand and whose operations on the
    audit file succeed (a failed append is logged and the row is
    skipped), the audit file holds as many rows as tickets were updated,
    one per updated incident in the order of the batch; the rollback of
    that file with [--commit] sends as many PATCH requests, the i-th to
    the ticket of the i-th row, and each request whose row has a
    non-empty old category sets "category" to that old category (its
    first 40 characters). *)
Theorem C2_audit_round_trip E self limit sample_size w w1 cs0 incidents ch path ts :
  audit_io_works E ->
  sch_dry_run self = false ->
  prepare_cycle E self limit sample_size w
  = (w1, inr (cs0, Loop incidents ch path ts)) ->
  w_audit w !! audit_path ts = None ->
  exists w' self' cs rows,
    process_tickets E self limit sample_size w = (w', inr (self', cs))
    /\ path = Some (audit_path ts)
    /\ audit_rows w' (audit_path ts) = rows
    /\ length rows = updated cs
    /\ (exists done, sublist done incidents /\ Forall2 row_of_incident rows done)
    /\ exists w'' requests,
         Rollback.main E (audit_path ts) true w' = (w'', inr tt)
         /\ w_patch w'' = w_patch w' ++ requests
         /\ length requests = updated cs
         /\ Forall2 inverse_update rows requests.
Proof.
  intros Hio Hlive Hprep Hfresh.
  pose proof (post_run _ _ _ _ _ Hprep
                (prepare_cycle_frame E self limit sample_size w))
    as (_ & Haudit & _ & _ & Hpath).
  pose proof (post_run _ _ _ _ _ Hprep
                (prepare_cycle_counters E self limit sample_size w))
    as (_ & Hupdated0 & _).
  cbn [fst snd] in *. rewrite Hlive in Hpath. subst path.
  destruct (process_incidents_audit E self ch (audit_path ts) ts incidents Hio cs0 w1)
    as (w' & cs & Hrun & rows & done & Hrows & Hupdated & Hsub & Hall).
  assert (Hstart : audit_rows w1 (audit_path ts) = [])
    by (unfold audit_rows; rewrite Haudit, Hfresh; reflexivity).
  rewrite Hstart in Hrows. cbn [app] in Hrows.
  destruct (main_commit E (audit_path ts) w' Hio)
    as (w'' & [] & Hmain & requests & Hpatch & Hinverse).
  rewrite Hrows in Hinverse.
  exists w', (with_stats self (add_cycle (sch_stats self) cs)), cs, rows.
  split.
  { unfold process_tickets, bind. rewrite Hprep, Hrun. reflexivity. }
  split; [reflexivity | ]. split; [exact Hrows | ].
  split; [lia | ]. split; [eauto | ].
  exists w'', requests. split; [exact Hmain | ]. split; [exact Hpatch | ].
  split; [ | exact Hinverse].
  apply Forall2_length in Hinverse. lia.
Qed.

Lemma C2_audit_round_trip_witness :
  let incidents := [example_incident "1" "mail client crashes" None;
                    example_incident "2" "laptop screen broken" (Some "inquiry");
                    example_incident "4" "switch port down" (Some "inquiry")] in
  let E := example_env example_reply incidents example_choices (Some 200%Z)
             no_failure in
  let file := audit_path "20260113T115055Z" in
  exists w' self' cs w'' requests,
    process_tickets E live_scheduler 50 None empty_world = (w', inr (self', cs))
    /\ length (audit_rows w' file) = updated cs
    /\ Rollback.main E file true w' = (w'', inr tt)
    /\ w_patch w'' = w_patch w' ++ requests
    /\ length requests = updated cs.
Proof.
  intros incidents E file.
  destruct (C2_audit_round_trip E live_scheduler 50 None empty_world
              (fst (prepare_cycle E live_scheduler 50 None empty_world))
              {| retrieved := 3; classified := 0; updated := 0; errors := 0 |}
              incidents example_choices (Some file) "20260113T115055Z"
              (fun n => conj eq_refl (conj eq_refl (conj eq_refl eq_refl))) eq_refl eq_refl eq_refl)
    as (w' & self' & cs & rows & Hrun & _ & Hrows & Hlen & _ & w'' & requests
        & Hmain & Hpatch & Hcount & _).
  exists w', self', cs, w'', requests. subst rows. auto.
Defined.

(* ===================================================================== *)
(** * Further properties of the cycle *)
(* ===================================================================== *)

Lemma process_incident_accounted E self ch path ts cs inc w :
  post (process_incident E self ch path ts cs inc) w
    (fun _ cs' => updated cs' + errors cs' = S (updated cs + errors cs)).
Proof.
  apply process_incident_post.
  - intros e _. simpl. lia.
  - intros s _. simpl. lia.
  - intros d _. eapply post_mono; [apply update_classified_counters | ].
    simpl. intros w' cs' (_ & _ & [[? ?] | [? ?]] & _); lia.
Qed.

Lemma process_incidents_accounted E self ch path ts incidents :
  forall cs w,
    post (process_incidents E self ch path ts cs incidents) w
      (fun _ cs' => updated cs' + errors cs' = updated cs + errors cs + length incidents).
Proof.
  induction incidents as [ | inc rest IH]; intros cs w.
  - apply post_ret. simpl. lia.
  - cbn [process_incidents]. apply post_bind.
    eapply post_mono; [apply process_incident_accounted | ].
    intros w1 cs1 H1. eapply post_mono; [apply IH | ].
    intros w2 cs2 H2. cbn beta in *. cbn [length]. lia.
Qed.

Lemma cycle_accounted E self limit sample_size w :
  exists w' self' cs,
    process_tickets E self limit sample_size w = (w', inr (self', cs))
    /\ updated cs + errors cs
       = length (processed_incidents E self limit sample_size w).
Proof.
  unfold process_tickets, processed_incidents.
  destruct (prepare_cycle_counters E self limit sample_size w)
    as (w1 & [cs1 p] & Hprep & Hcl & Hup & Herr & _).
  unfold bind at 1. rewrite Hprep. cbn [fst snd] in *.
  destruct p as [ | | incidents ch path ts].
  - eexists _, _, _. split; [reflexivity | ]. simpl. lia.
  - eexists _, _, _. split; [reflexivity | ]. simpl. lia.
  - destruct (process_incidents_accounted E self ch path ts incidents cs1 w1)
      as (w2 & cs2 & Hrun & Hacc).
    unfold bind. rewrite Hrun. eexists _, _, _. split; [reflexivity | ].
    cbn beta zeta in *. lia.
Qed.

(** X1: Every incident that reaches the loop ends in exactly one of the two
    counters [updated] and [errors]; the incidents that were classified
    and those whose classification failed add up to the same number. *)
Theorem cycle_accounts_for_every_incident E self limit sample_size w :
  exists w' self' cs,
    process_tickets E self limit sample_size w = (w', inr (self', cs))
    /\ updated cs + errors cs
       = length (processed_incidents E self limit sample_size w)
    /\ classified cs + errors_from_classification E self limit sample_size w
       = length (processed_incidents E self limit sample_size w).
Proof.
  unfold process_tickets, errors_from_classification, processed_incidents.
  destruct (prepare_cycle_counters E self limit sample_size w)
    as (w1 & [cs1 p] & Hprep & Hcl & Hup & Herr & _).
  unfold bind at 1. rewrite Hprep. cbn [fst snd] in *.
  destruct p as [ | | incidents ch path ts].
  - eexists _, _, _. split; [reflexivity | ]. simpl. lia.
  - eexists _, _, _. split; [reflexivity | ]. simpl. lia.
  - destruct (process_incidents_counters E self ch path ts incidents cs1 w1)
      as (w2 & cs2 & Hrun & _ & Hcl2 & _).
    pose proof (post_run _ _ _ _ _ Hrun
                  (process_incidents_accounted E self ch path ts incidents cs1 w1))
      as Hacc.
    unfold bind. rewrite Hrun. eexists _, _, _. split; [reflexivity | ].
    cbn beta zeta in *. split; lia.
Qed.

(** X2: An empty batch ends the cycle at once: all counters are zero,
    nothing but the fetch of the incidents has happened, and
    [self.stats] is as before. *)
Theorem empty_batch_ends_cycle E self limit sample_size w w1 :
  get_new_incidents E (sch_connector self) limit w = (w1, inr []) ->
  process_tickets E self limit sample_size w
  = (w1, inr (self, {| retrieved := 0; classified := 0; updated := 0;
                       errors := 0 |})).
Proof.
  intros Hget. unfold process_tickets, prepare_cycle. unfold bind at 1 2.
  rewrite Hget. reflexivity.
Qed.

Lemma empty_batch_ends_cycle_witness :
  let E := example_env example_reply [] example_choices (Some 200%Z) no_failure in
  process_tickets E live_scheduler 50 None empty_world
  = (tick empty_world,
     inr (live_scheduler,
          {| retrieved := 0; classified := 0; updated := 0; errors := 0 |})).
Proof.
  intros E.
  exact (empty_batch_ends_cycle E live_scheduler 50 None empty_world
           (tick empty_world) eq_refl).
Defined.

Lemma prepare_cycle_sample E self limit sample_size w w1 incidents :
  get_new_incidents E (sch_connector self) limit w = (w1, inr incidents) ->
  post (prepare_cycle E self limit sample_size) w
    (fun _ p =>
       retrieved (fst p) = length incidents
       /\ match snd p with
          | Loop sampled _ _ _ =>
              sampled
              = match sample_size with
                | Some n => if (0 <? n)%Z then take (Z.to_nat n) incidents
                            else incidents
                | None => incidents
                end
          | _ => True
          end).
Proof.
  intros Hget. unfold prepare_cycle. apply post_bind.
  exists w1, incidents. split; [exact Hget | ].
  unfold get_choice_values, get_priority_lookup_values.
  walk; cbn [fst snd retrieved]; auto.
Qed.

(** X3: The staged test: with [sample_size] n > 0 the loop gets at most the
    first n incidents of the batch, while [retrieved] counts the whole
    batch; without a positive [sample_size] the loop gets the whole
    batch or, when the cycle stops before the loop, nothing. *)
Theorem sample_size_takes_prefix E self limit sample_size w w1 incidents :
  get_new_incidents E (sch_connector self) limit w = (w1, inr incidents) ->
  let sampled :=
    match sample_size with
    | Some n => if (0 <? n)%Z then take (Z.to_nat n) incidents else incidents
    | None => incidents
    end in
  (processed_incidents E self limit sample_size w = sampled
   \/ processed_incidents E self limit sample_size w = [])
  /\ exists w' self' cs,
       process_tickets E self limit sample_size w = (w', inr (self', cs))
       /\ retrieved cs = length incidents
       /\ updated cs + errors cs <= length sampled.
Proof.
  intros Hget sampled.
  destruct (prepare_cycle_sample E self limit sample_size w w1 incidents Hget)
    as (w2 & [cs1 p] & Hprep & Hretrieved & Hsampled).
  cbn [fst snd] in *.
  assert (Hprocessed :
    processed_incidents E self limit sample_size w = sampled
    \/ processed_incidents E self limit sample_size w = []).
  { unfold processed_incidents. rewrite Hprep.
    destruct p; [right | right | left]; auto. }
  split; [exact Hprocessed | ].
  destruct (cycle_accounted E self limit sample_size w)
    as (w' & self' & cs & Hrun & Hacc).
  exists w', self', cs. split; [exact Hrun | ]. split.
  - revert Hrun. unfold process_tickets, bind. rewrite Hprep.
    destruct p as [ | | incs ch path ts].
    + intros [= <- <- <-]. exact Hretrieved.
    + intros [= <- <- <-]. exact Hretrieved.
    + destruct (process_incidents_counters E self ch path ts incs cs1 w2)
        as (w3 & cs3 & Hloop & Hret & _).
      rewrite Hloop. intros [= <- <- <-]. congruence.
  - rewrite Hacc. destruct Hprocessed as [-> | ->]; [lia | simpl; lia].
Qed.

Lemma sample_size_takes_prefix_witness :
  let incidents := [example_incident "1" "mail client crashes" None;
                    example_incident "2" "switch port down" None;
                    example_incident "3" "laptop screen broken" None] in
  let E := example_env example_reply incidents example_choices (Some 200%Z)
             no_failure in
  exists w' self' cs,
    process_tickets E live_scheduler 50 (Some 2%Z) empty_world
    = (w', inr (self', cs))
    /\ retrieved cs = 3 /\ updated cs + errors cs <= 2.
Proof.
  intros incidents E.
  exact (proj2 (sample_size_takes_prefix E live_scheduler 50 (Some 2%Z)
                  empty_world (tick empty_world) incidents eq_refl)).
Defined.

(** X4: [self.stats] after a cycle: [total_processed] grows by the
    classified incidents and [successfully_updated] by the updated ones;
    [errors] grows by the errors of the cycle or, when the cycle fails
    before its loop, by one; [successfully_classified] is never changed,
    nor are the mode and the connector. *)
Theorem cycle_updates_lifetime_stats E self limit sample_size w :
  exists w' self' cs,
    process_tickets E self limit sample_size w = (w', inr (self', cs))
    /\ sch_dry_run self' = sch_dry_run self
    /\ sch_connector self' = sch_connector self
    /\ total_processed (sch_stats self')
       = total_processed (sch_stats self) + classified cs
    /\ successfully_updated (sch_stats self')
       = successfully_updated (sch_stats self) + updated cs
    /\ successfully_classified (sch_stats self')
       = successfully_classified (sch_stats self)
    /\ (stats_errors (sch_stats self') = stats_errors (sch_stats self) + errors cs
        \/ stats_errors (sch_stats self') = stats_errors (sch_stats self) + 1
           /\ errors cs = 0 /\ classified cs = 0).
Proof.
  unfold process_tickets.
  destruct (prepare_cycle_counters E self limit sample_size w)
    as (w1 & [cs1 p] & Hprep & Hcl & Hup & Herr & _).
  unfold bind at 1. rewrite Hprep. cbn [fst snd] in *.
  destruct p as [ | | incidents ch path ts].
  - eexists _, _, _. split; [reflexivity | ].
    rewrite Hcl, Hup, Herr. repeat split; auto.
  - eexists _, _, _. split; [reflexivity | ].
    rewrite Hcl, Hup. cbn. repeat split; auto.
  - destruct (process_incidents_returns E self ch path ts cs1 incidents w1)
      as (w2 & cs2 & Hrun).
    unfold bind. rewrite Hrun. eexists _, _, _. split; [reflexivity | ].
    cbn. repeat split; auto.
Qed.

Lemma update_incident_reply E tid cat conf ag wn snow sub imp urg w :
  let request :=
    {| patch_ticket := tid;
       patch_body := update_data E (utc_iso E (w_step w)) cat conf ag wn
                       snow sub imp urg |} in
  update_incident E false tid cat conf ag wn snow sub imp urg w
  = (tick (log_patch request (tick w)),
     inr match snow_patch E (S (w_step w)) request with
         | Some code => (code =? 200)%Z
         | None => false
         end).
Proof. reflexivity. Qed.

(** The mock connector raises on the call of the scheduler. *)
Lemma update_classified_mock E self path ts cs inc ms d w test_data :
  sch_connector self = MockServiceNowConnector test_data ->
  post (update_classified E self path ts cs inc ms d) w
    (fun w' cs' =>
       cs' = incr_errors (incr_classified cs)
       /\ w_patch w' = w_patch w /\ w_audit w' = w_audit w).
Proof.
  intros Hmock. unfold update_classified. rewrite Hmock.
  cbn [connector_update_incident].
  apply post_bind, post_swallow. intros w1 r1 H1.
  apply post_bind, post_ask.
  apply post_bind, post_attempt. intros w2 r2 H2.
  unfold raise in H2. injection H2 as <- <-.
  apply post_ret. framed w_patch. framed w_audit. worlds. auto.
Qed.

Lemma process_incidents_mock E self ch path ts incidents test_data :
  sch_connector self = MockServiceNowConnector test_data ->
  forall cs w,
    post (process_incidents E self ch path ts cs incidents) w
      (fun w' cs' =>
         updated cs' = updated cs /\ w_patch w' = w_patch w
         /\ w_audit w' = w_audit w).
Proof.
  intros Hmock. induction incidents as [ | inc rest IH]; intros cs w.
  - apply post_ret. auto.
  - cbn [process_incidents]. apply post_bind.
    pose proof (classify_patch E (default "" (inc_short_description inc)) ch w) as Hp.
    pose proof (classify_audit E (default "" (inc_short_description inc)) ch w) as Ha.
    assert (Hinc :
      post (process_incident E self ch path ts cs inc) w
        (fun w' cs' =>
           updated cs' = updated cs /\ w_patch w' = w_patch w
           /\ w_audit w' = w_audit w)).
    { apply process_incident_post.
      - intros e _. auto.
      - intros s _. worlds. auto.
      - intros d _.
        eapply post_mono; [eapply update_classified_mock, Hmock | ].
        intros w' cs' (-> & Hp' & Ha'). worlds. repeat split; congruence. }
    eapply post_mono; [exact Hinc | ].
    intros w1 cs1 (Hu1 & Hp1 & Ha1). eapply post_mono; [apply IH | ].
    intros w2 cs2 (Hu2 & Hp2 & Ha2). repeat split; congruence.
Qed.

(** X5: With the mock connector no ticket is ever updated:
    [process_tickets] calls [update_incident] with the keywords
    [subcategory], [impact] and [urgency], which the method of the mock
    does not have, so that every incident that reached the loop is
    counted as an error, [updated] stays 0, and nothing is sent or
    written to an audit file. *)
Theorem mock_connector_never_updates E self limit sample_size w test_data :
  sch_connector self = MockServiceNowConnector test_data ->
  exists w' self' cs,
    process_tickets E self limit sample_size w = (w', inr (self', cs))
    /\ updated cs = 0
    /\ errors cs = length (processed_incidents E self limit sample_size w)
    /\ w_patch w' = w_patch w /\ w_audit w' = w_audit w.
Proof.
  intros Hmock.
  destruct (cycle_accounted E self limit sample_size w)
    as (w' & self' & cs & Hrun & Hacc).
  exists w', self', cs. split; [exact Hrun | ].
  revert Hrun. unfold process_tickets.
  destruct (prepare_cycle_frame E self limit sample_size w)
    as (w1 & [cs1 p] & Hprep & Hp & Ha & _).
  pose proof (post_run _ _ _ _ _ Hprep
                (prepare_cycle_counters E self limit sample_size w))
    as (_ & Hup & _).
  unfold bind at 1. rewrite Hprep. cbn [fst snd] in *.
  assert (Hzero : forall w2 self2,
            (w2, @inr exn _ (self2, cs1)) = (w', inr (self', cs)) ->
            w2 = w1 ->
            updated cs = 0
            /\ errors cs = length (processed_incidents E self limit sample_size w)
            /\ w_patch w' = w_patch w /\ w_audit w' = w_audit w).
  { intros w2 self2 [= <- <- <-] ->. split; [exact Hup | ].
    split; [lia | auto]. }
  destruct p as [ | | incidents ch path ts].
  - intros H. exact (Hzero _ _ H eq_refl).
  - intros H. exact (Hzero _ _ H eq_refl).
  - destruct (process_incidents_mock E self ch path ts incidents test_data Hmock
                cs1 w1) as (w2 & cs2 & Hloop & Hu2 & Hp2 & Ha2).
    unfold bind. rewrite Hloop. intros [= <- <- <-].
    split; [congruence | ]. split; [lia | ]. split; congruence.
Qed.

Lemma mock_connector_never_updates_witness :
  let incidents := [example_incident "1" "mail client crashes" None;
                    example_incident "2" "switch port down" None] in
  let E := example_env example_reply [] example_choices (Some 200%Z) no_failure in
  let self := {| sch_dry_run := true;
                 sch_connector := MockServiceNowConnector incidents;
                 sch_stats := sch_stats dry_scheduler |} in
  exists w' self' cs,
    process_tickets E self 50 None empty_world = (w', inr (self', cs))
    /\ updated cs = 0 /\ errors cs = 2.
Proof.
  intros incidents E self.
  destruct (mock_connector_never_updates E self 50 None empty_world incidents
              eq_refl) as (w' & self' & cs & Hrun & Hup & Herr & _).
  exists w', self', cs. split; [exact Hrun | ]. split; [exact Hup | ].
  rewrite Herr. reflexivity.
Defined.

Lemma is_empty_false {A} (l : list A) : l <> [] -> is_empty l = false.
Proof. destruct l; [contradiction | reflexivity]. Qed.

(** X6: In live mode a failure to create the folder of the audit file ends
    the cycle before any incident is classified: the counters are
    {retrieved: R, 0, 0, 0}, one error is added to [self.stats], and no
    completion request or PATCH is sent. *)
Theorem audit_directory_failure_is_fatal E self limit sample_size w w1 incidents :
  sch_dry_run self = false ->
  get_new_incidents E (sch_connector self) limit w = (w1, inr incidents) ->
  incidents <> [] ->
  snow_choices E (w_step w1) "category" <> [] ->
  fst (snow_priority E (S (S (w_step w1)))) <> [] ->
  snd (snow_priority E (S (S (w_step w1)))) <> [] ->
  io_fails E (S (S (S (S (w_step w1))))) IoMakedirs = true ->
  exists w',
    process_tickets E self limit sample_size w
    = (w', inr (with_stats self (add_fatal (sch_stats self)),
                {| retrieved := length incidents; classified := 0;
                   updated := 0; errors := 0 |}))
    /\ w_llm w' = w_llm w /\ w_patch w' = w_patch w /\ w_audit w' = w_audit w.
Proof.
  intros Hlive Hget Hne Hcat Himp Hurg Hio.
  assert (Hllm : w_llm w1 = w_llm w)
    by (eapply preserved; [apply get_new_incidents_frame | exact Hget];
        intros []; reflexivity).
  assert (Hpatch : w_patch w1 = w_patch w)
    by (eapply preserved; [apply get_new_incidents_frame | exact Hget];
        intros []; reflexivity).
  assert (Haudit : w_audit w1 = w_audit w)
    by (eapply preserved; [apply get_new_incidents_frame | exact Hget];
        intros []; reflexivity).
  unfold process_tickets, prepare_cycle. unfold bind at 1 2. rewrite Hget.
  rewrite (is_empty_false incidents Hne).
  unfold get_choice_values, get_priority_lookup_values, bind, ask.
  cbn [w_step tick].
  rewrite (is_empty_false _ Hcat), (is_empty_false _ Himp),
    (is_empty_false _ Hurg). cbn [orb].
  rewrite Hlive. unfold attempt, io, bind, ask. cbn [w_step tick].
  rewrite Hio. eexists. split; [reflexivity | ]. worlds. auto.
Qed.

Lemma audit_directory_failure_is_fatal_witness :
  let incidents := [example_incident "1" "mail client crashes" None] in
  let E := example_env example_reply incidents example_choices (Some 200%Z)
             (fun op => match op with IoMakedirs => true | _ => false end) in
  exists w',
    process_tickets E live_scheduler 50 None empty_world
    = (w', inr (with_stats live_scheduler (add_fatal (sch_stats live_scheduler)),
                {| retrieved := 1; classified := 0; updated := 0; errors := 0 |}))
    /\ w_llm w' = [] /\ w_patch w' = [] /\ w_audit w' = ∅.
Proof.
  intros incidents E.
  exact (audit_directory_failure_is_fatal E live_scheduler 50 None empty_world
           (tick empty_world) incidents eq_refl eq_refl ltac:(discriminate)
           ltac:(discriminate) ltac:(discriminate) ltac:(discriminate) eq_refl).
Defined.

Lemma process_incident_patches E self ch path ts cs inc w :
  sch_connector self = ServiceNowConnector false ->
  post (process_incident E self ch path ts cs inc) w
    (fun w' cs' =>
       classified cs' = classified cs /\ w_patch w' = w_patch w
       \/ classified cs' = S (classified cs)
          /\ exists request,
               w_patch w' = w_patch w ++ [request]
               /\ patch_ticket request = inc_sys_id inc).
Proof.
  intros Hlive.
  pose proof (classify_patch E (default "" (inc_short_description inc)) ch w) as Hp.
  apply process_incident_post.
  - intros e _. left. auto.
  - intros s _. left. worlds. auto.
  - intros d _.
    match goal with
    | |- post ?c ?w0 _ =>
        destruct (update_classified_counters E self path ts cs inc
                    (elapsed_ms E (w_step (fst (classify E
                       (default "" (inc_short_description inc))
                       (category_choices ch) (subcategory_choices ch)
                       (impact_choices ch) (urgency_choices ch) w)))) d w0)
          as (w' & cs' & Hrun & _ & Hcl & _)
    end.
    exists w', cs'. split; [exact Hrun | ]. right. split; [exact Hcl | ].
    destruct (post_run _ _ _ _ _ Hrun
                (update_classified_live E self path ts cs inc _ d _ Hlive))
      as (now & notes & Hpatch).
    eexists. split; [rewrite Hpatch; worlds; rewrite Hp; reflexivity | ].
    reflexivity.
Qed.

Lemma process_incidents_patches E self ch path ts incidents :
  sch_connector self = ServiceNowConnector false ->
  forall cs w,
    post (process_incidents E self ch path ts cs incidents) w
      (fun w' cs' =>
         exists requests done,
           w_patch w' = w_patch w ++ requests
           /\ classified cs' = classified cs + length requests
           /\ sublist done incidents
           /\ map patch_ticket requests = map inc_sys_id done).
Proof.
  intros Hlive. induction incidents as [ | inc rest IH]; intros cs w.
  - apply post_ret. exists [], []. rewrite app_nil_r. simpl.
    split; [reflexivity | ]. split; [lia | ]. split; constructor.
  - cbn [process_incidents]. apply post_bind.
    eapply post_mono; [apply process_incident_patches, Hlive | ].
    intros w1 cs1 Hinc. eapply post_mono; [apply IH | ].
    intros w2 cs2 (requests & done & Hp2 & Hc2 & Hsub & Hmap).
    destruct Hinc as [[Hc1 Hp1] | (Hc1 & request & Hp1 & Hticket)].
    + exists requests, done. rewrite Hp2, Hp1, Hc2, Hc1.
      split; [reflexivity | ]. split; [reflexivity | ].
      split; [apply sublist_cons, Hsub | exact Hmap].
    + exists (request :: requests), (inc :: done).
      rewrite Hp2, Hp1, Hc2, Hc1, <- app_assoc. cbn [app length map].
      split; [reflexivity | ]. split; [lia | ].
      split; [apply sublist_skip, Hsub | congruence].
Qed.

(** X7: In a live cycle every classified incident is sent to the ticket
    system exactly once: the cycle sends as many PATCH requests as it
    classified incidents, to their tickets, in the order of the batch. *)
Theorem live_cycle_patches_each_classified_once E self limit sample_size w :
  sch_connector self = ServiceNowConnector false ->
  exists w' self' cs requests done,
    process_tickets E self limit sample_size w = (w', inr (self', cs))
    /\ w_patch w' = w_patch w ++ requests
    /\ length requests = classified cs
    /\ sublist done (processed_incidents E self limit sample_size w)
    /\ map patch_ticket requests = map inc_sys_id done.
Proof.
  intros Hlive. unfold process_tickets, processed_incidents.
  destruct (prepare_cycle_frame E self limit sample_size w)
    as (w1 & [cs1 p] & Hprep & Hp & _).
  pose proof (post_run _ _ _ _ _ Hprep
                (prepare_cycle_counters E self limit sample_size w))
    as (Hcl & _).
  unfold bind at 1. rewrite Hprep. cbn [fst snd] in *.
  destruct p as [ | | incidents ch path ts].
  - eexists _, _, _, [], []. split; [reflexivity | ].
    rewrite app_nil_r. repeat split; auto; constructor.
  - eexists _, _, _, [], []. split; [reflexivity | ].
    rewrite app_nil_r. repeat split; auto; constructor.
  - destruct (process_incidents_patches E self ch path ts incidents Hlive cs1 w1)
      as (w2 & cs2 & Hrun & requests & done & Hp2 & Hc2 & Hsub & Hmap).
    unfold bind. rewrite Hrun. eexists _, _, _, requests, done.
    split; [reflexivity | ]. split; [congruence | ]. split; [lia | ]. auto.
Qed.

Lemma live_cycle_patches_each_classified_once_witness :
  let incidents := [example_incident "1" "mail client crashes" None;
                    example_incident "2" "laptop screen broken" None;
                    example_incident "3" "switch port down" None] in
  let E := example_env example_reply incidents example_choices None no_failure in
  exists w' self' cs requests,
    process_tickets E live_scheduler 50 None empty_world = (w', inr (self', cs))
    /\ w_patch w' = requests /\ length requests = classified cs.
Proof.
  intros incidents E.
  destruct (live_cycle_patches_each_classified_once E live_scheduler 50 None
              empty_world eq_refl)
    as (w' & self' & cs & requests & done & Hrun & Hp & Hlen & _).
  exists w', self', cs, requests. auto.
Defined.

(** What the answer of the ticket system to the PATCH decides. *)
Lemma update_classified_by_reply E self path ts cs inc ms d w :
  sch_connector self = ServiceNowConnector false ->
  post (update_classified E self path ts cs inc ms d) w
    (fun w' cs' =>
       exists n request,
         match snow_patch E n request with
         | Some code =>
             if (code =? 200)%Z then cs' = incr_updated (incr_classified cs)
             else cs' = incr_errors (incr_classified cs)
                  /\ w_audit w' = w_audit w
         | None => cs' = incr_errors (incr_classified cs)
                   /\ w_audit w' = w_audit w
         end).
Proof.
  intros Hlive. unfold update_classified. rewrite Hlive.
  cbn [connector_update_incident].
  apply post_bind, post_swallow. intros w1 r1 H1.
  apply post_bind, post_ask.
  apply post_bind, post_attempt. intros w2 r2 H2.
  rewrite update_incident_reply in H2. injection H2 as <- <-.
  framed w_audit.
  match goal with
  | |- context [snow_patch E ?n ?request] =>
      destruct (snow_patch E n request) as [code | ] eqn:Hreply;
      [destruct (code =? 200)%Z eqn:Hcode | ]
  end.
  - apply post_bind, post_swallow. intros w3 r3 H3. apply post_ret.
    eexists _, _. rewrite Hreply, Hcode. reflexivity.
  - apply post_ret. eexists _, _. rewrite Hreply, Hcode. worlds. auto.
  - apply post_ret. eexists _, _. rewrite Hreply. worlds. auto.
Qed.

Lemma process_incidents_rejected E self ch path ts incidents :
  sch_connector self = ServiceNowConnector false ->
  (forall n request, snow_patch E n request <> Some 200%Z) ->
  forall cs w,
    post (process_incidents E self ch path ts cs incidents) w
      (fun w' cs' => updated cs' = updated cs /\ w_audit w' = w_audit w).
Proof.
  intros Hlive Hrejected. induction incidents as [ | inc rest IH]; intros cs w.
  - apply post_ret. auto.
  - cbn [process_incidents]. apply post_bind.
    pose proof (classify_audit E (default "" (inc_short_description inc)) ch w) as Ha.
    assert (Hinc :
      post (process_incident E self ch path ts cs inc) w
        (fun w' cs' => updated cs' = updated cs /\ w_audit w' = w_audit w)).
    { apply process_incident_post.
      - intros e _. auto.
      - intros s _. worlds. auto.
      - intros d _.
        eapply post_mono; [apply update_classified_by_reply, Hlive | ].
        intros w' cs' (n & request & Hreply).
        specialize (Hrejected n request).
        destruct (snow_patch E n request) as [code | ].
        + destruct (Z.eqb_spec code 200); [congruence | ].
          destruct Hreply as [-> Ha']. worlds. split; congruence.
        + destruct Hreply as [-> Ha']. worlds. split; congruence. }
    eapply post_mono; [exact Hinc | ].
    intros w1 cs1 (Hu1 & Ha1). eapply post_mono; [apply IH | ].
    intros w2 cs2 (Hu2 & Ha2). split; congruence.
Qed.

(** X8: When the ticket system accepts no PATCH (no answer with status 200:
    another status, or the request raises), a live cycle updates
    nothing and writes no audit row, and every incident that reached the
    loop is counted as an error. *)
Theorem rejected_updates_are_errors E self limit sample_size w :
  sch_connector self = ServiceNowConnector false ->
  (forall n request, snow_patch E n request <> Some 200%Z) ->
  exists w' self' cs,
    process_tickets E self limit sample_size w = (w', inr (self', cs))
    /\ updated cs = 0
    /\ errors cs = length (processed_incidents E self limit sample_size w)
    /\ w_audit w' = w_audit w.
Proof.
  intros Hlive Hrejected.
  destruct (cycle_accounted E self limit sample_size w)
    as (w' & self' & cs & Hrun & Hacc).
  exists w', self', cs. split; [exact Hrun | ].
  revert Hrun. unfold process_tickets.
  destruct (prepare_cycle_frame E self limit sample_size w)
    as (w1 & [cs1 p] & Hprep & _ & Ha & _).
  pose proof (post_run _ _ _ _ _ Hprep
                (prepare_cycle_counters E self limit sample_size w))
    as (_ & Hup & _).
  unfold bind at 1. rewrite Hprep. cbn [fst snd] in *.
  destruct p as [ | | incidents ch path ts].
  - intros [= <- <- <-]. split; [exact Hup | ]. split; [lia | exact Ha].
  - intros [= <- <- <-]. split; [exact Hup | ]. split; [lia | exact Ha].
  - destruct (process_incidents_rejected E self ch path ts incidents Hlive
                Hrejected cs1 w1) as (w2 & cs2 & Hloop & Hu2 & Ha2).
    unfold bind. rewrite Hloop. intros [= <- <- <-].
    split; [congruence | ]. split; [lia | congruence].
Qed.

Lemma rejected_updates_are_errors_witness :
  let incidents := [example_incident "1" "mail client crashes" None;
                    example_incident "2" "switch port down" None] in
  let E := example_env example_reply incidents example_choices (Some 403%Z)
             no_failure in
  exists w' self' cs,
    process_tickets E live_scheduler 50 None empty_world = (w', inr (self', cs))
    /\ updated cs = 0 /\ errors cs = 2 /\ w_audit w' = ∅.
Proof.
  intros incidents E.
  destruct (rejected_updates_are_errors E live_scheduler 50 None empty_world
              eq_refl ltac:(intros n request; discriminate))
    as (w' & self' & cs & Hrun & Hup & Herr & Ha).
  exists w', self', cs. split; [exact Hrun | ]. split; [exact Hup | ].
  split; [rewrite Herr; reflexivity | exact Ha].
Defined.

(* ===================================================================== *)
(** * Further properties of the classifier *)
(* ===================================================================== *)

Lemma string_app_cons c s t : String c s +:+ t = String c (s +:+ t).
Proof. reflexivity. Qed.

Lemma string_app_nil t : "" +:+ t = t.
Proof. reflexivity. Qed.

Lemma list_ascii_of_string_app s1 s2 :
  list_ascii_of_string (s1 +:+ s2)
  = list_ascii_of_string s1 ++ list_ascii_of_string s2.
Proof.
  induction s1 as [ | c s1 IH]; [reflexivity | ].
  rewrite string_app_cons. cbn [list_ascii_of_string app]. by rewrite IH.
Qed.

Lemma list_ascii_length s : length (list_ascii_of_string s) = String.length s.
Proof. induction s as [ | c s IH]; simpl; [reflexivity | by rewrite IH]. Qed.

Lemma string_length_app s1 s2 :
  String.length (s1 +:+ s2) = String.length s1 + String.length s2.
Proof.
  induction s1 as [ | c s1 IH]; [reflexivity | ].
  rewrite string_app_cons. cbn [String.length]. by rewrite IH.
Qed.

Lemma string_app_assoc s1 s2 s3 : (s1 +:+ s2) +:+ s3 = s1 +:+ (s2 +:+ s3).
Proof.
  induction s1 as [ | c s1 IH]; [reflexivity | ].
  rewrite !string_app_cons. by rewrite IH.
Qed.

Lemma find_char_first c before after :
  find_char c before = None ->
  find_char c (before ++ c :: after) = Some (length before).
Proof.
  induction before as [ | x before IH]; simpl.
  - intros _. rewrite Ascii.eqb_refl. reflexivity.
  - destruct (Ascii.eqb x c); [discriminate | ].
    destruct (find_char c before); [discriminate | ].
    intros _. rewrite IH; reflexivity.
Qed.

Lemma rfind_char_last c before after :
  rfind_char c after = None ->
  rfind_char c (before ++ c :: after) = Some (length before).
Proof.
  intros Hafter. induction before as [ | x before IH]; simpl.
  - rewrite Hafter, Ascii.eqb_refl. reflexivity.
  - rewrite IH. reflexivity.
Qed.

Lemma substring_prefix body after :
  substring 0 (String.length body) (body +:+ after) = body.
Proof.
  induction body as [ | c body IH].
  - rewrite string_app_nil. destruct after; reflexivity.
  - rewrite string_app_cons. cbn [String.length substring]. by rewrite IH.
Qed.

Lemma substring_middle before body after :
  substring (String.length before) (String.length body)
    (before +:+ (body +:+ after)) = body.
Proof.
  induction before as [ | c before IH].
  - exact (substring_prefix body after).
  - rewrite string_app_cons. cbn [String.length substring]. exact IH.
Qed.

(** X9: [_extract_json]: a text that decodes as it is gives its value; a
    text that does not, but holds a block from its first "{" to its
    last "}", gives the value of that block, or fails when the block
    does not decode; a text without "{" fails. *)
Theorem extract_json_takes_the_block E :
  (forall text v, json_loads E text = Some v -> extract_json E text = inr v)
  /\ (forall before inner after,
        let block := String "{" (inner +:+ "}") in
        json_loads E (before +:+ (block +:+ after)) = None ->
        find_char "{"%char (list_ascii_of_string before) = None ->
        rfind_char "}"%char (list_ascii_of_string after) = None ->
        extract_json E (before +:+ (block +:+ after))
        = match json_loads E block with
          | Some v => inr v
          | None => inl ValueError_no_json
          end)
  /\ (forall text,
        json_loads E text = None ->
        find_char "{"%char (list_ascii_of_string text) = None ->
        extract_json E text = inl ValueError_no_json).
Proof.
  split; [ | split].
  - intros text v Hv. unfold extract_json. rewrite Hv. reflexivity.
  - intros before inner after block Hnone Hbefore Hafter. unfold extract_json.
    rewrite Hnone.
    assert (Hstart :
      find_char "{"%char (list_ascii_of_string (before +:+ (block +:+ after)))
      = Some (String.length before)).
    { rewrite list_ascii_of_string_app. unfold block.
      rewrite string_app_cons. cbn [list_ascii_of_string].
      rewrite find_char_first by exact Hbefore.
      rewrite list_ascii_length. reflexivity. }
    assert (Hend :
      rfind_char "}"%char (list_ascii_of_string (before +:+ (block +:+ after)))
      = Some (String.length before + S (String.length inner))).
    { replace (before +:+ (block +:+ after))
        with ((before +:+ String "{" inner) +:+ String "}" after).
      - rewrite list_ascii_of_string_app. cbn [list_ascii_of_string].
        rewrite rfind_char_last by exact Hafter.
        rewrite list_ascii_length, string_length_app. reflexivity.
      - unfold block. rewrite string_app_assoc. f_equal.
        rewrite !string_app_cons. f_equal.
        rewrite string_app_assoc. reflexivity. }
    rewrite Hstart, Hend.
    destruct (Nat.ltb_spec (String.length before)
                (String.length before + S (String.length inner))); [ | lia].
    replace (String.length before + S (String.length inner) + 1
             - String.length before) with (String.length block)
      by (unfold block; cbn [String.length]; rewrite string_length_app;
          cbn [String.length]; lia).
    rewrite substring_middle. reflexivity.
  - intros text Hnone Hmiss. unfold extract_json. rewrite Hnone, Hmiss.
    reflexivity.
Qed.

Lemma extract_json_takes_the_block_witness :
  let decode := fun text =>
    if String.eqb text "{category: software}" then Some (PDict [("category", PStr "software")])
    else None in
  let E := example_env decode [] example_choices None no_failure in
  extract_json E "Here is the answer: {category: software} I hope it helps."
  = inr (PDict [("category", PStr "software")]).
Proof.
  intros decode E.
  exact (proj1 (proj2 (extract_json_takes_the_block E))
           "Here is the answer: " "category: software" " I hope it helps."
           eq_refl eq_refl eq_refl).
Defined.

(* ===================================================================== *)
(** * The classifier and an answer it cannot use *)
(* ===================================================================== *)

(** X10: [classify] on a non-empty description sends its completion request
    once and passes on what goes wrong with the answer: the exception of
    the request, the failure to find JSON in the text, and the
    AttributeError of [.get] when the JSON is not an object.  There is
    no second request and no default result. *)
Theorem classify_passes_on_unusable_answers E description ch w :
  description <> "" ->
  let run := classify E description (category_choices ch)
               (subcategory_choices ch) (impact_choices ch)
               (urgency_choices ch) w in
  fst run = tick (log_llm (request_of description ch) w)
  /\ match azure_openai E (w_step w) (request_of description ch) with
     | inl e => snd run = inl e
     | inr raw =>
         match extract_json E raw with
         | inl e => snd run = inl e
         | inr (PDict _) => True
         | inr _ => snd run = inl AttributeError
         end
     end.
Proof.
  intros Hne run. subst run. unfold classify.
  destruct (String.eqb_spec description ""); [contradiction | ].
  unfold call_azure_openai, bind, modify, ask, lift.
  cbn [fst snd w_step log_llm]. fold (request_of description ch).
  destruct (azure_openai E (w_step w) (request_of description ch)) as [e | raw];
    [split; reflexivity | ].
  cbn [fst snd].
  destruct (extract_json E raw) as [e | result]; [split; reflexivity | ].
  destruct result; try (split; reflexivity).
  split; [ | exact I]. cbn [dict_get].
  unfold raise, ret.
  repeat match goal with
         | |- context [if ?c then _ else _] => destruct c
         end; reflexivity.
Qed.

Lemma classify_passes_on_unusable_answers_witness :
  let E := example_env (fun text => if String.eqb text "[1, 2]" then Some (PList [PInt 1; PInt 2]) else None)
             [] example_choices None no_failure in
  snd (classify E "[1, 2]" (category_choices example_choices)
         (subcategory_choices example_choices) (impact_choices example_choices)
         (urgency_choices example_choices) empty_world) = inl AttributeError.
Proof.
  intros E.
  exact (proj2 (classify_passes_on_unusable_answers E "[1, 2]" example_choices
                  empty_world ltac:(discriminate))).
Defined.

(* ===================================================================== *)
(** * The body and the outcome of an update *)
(* ===================================================================== *)

Lemma lookup_notes_layer E cat conf wn (data : gmap string pyval) :
  exists notes, notes_layer E cat conf wn data !! "work_notes" = Some (PStr notes).
Proof.
  unfold notes_layer. destruct (opt_truthy wn); eexists; by rewrite lookup_insert_eq.
Qed.

Lemma lookup_cond_insert b (key : string) v (data : gmap string pyval) :
  data !! key = None ->
  cond_insert b key v data !! key = if b then Some v else None.
Proof.
  intros Hnone. unfold cond_insert. destruct b; [by rewrite lookup_insert_eq | exact Hnone].
Qed.

(** X11: The optional fields of the PATCH body: "subcategory", "impact" and
    "urgency" are sent exactly when their value is true for Python,
    "assignment_group" exactly when a non-empty group is given, a work
    note is always sent, and the body never has a key outside the ten
    that [update_incident] assigns. *)
Theorem update_data_optional_fields E now cat conf ag wn snow sub imp urg :
  let body := update_data E now cat conf ag wn snow sub imp urg in
  body !! "subcategory" = (if truthy sub then Some sub else None)
  /\ body !! "impact" = (if truthy imp then Some imp else None)
  /\ body !! "urgency" = (if truthy urg then Some urg else None)
  /\ body !! "assignment_group"
     = match ag with
       | Some group => if String.eqb group "" then None else Some (PStr group)
       | None => None
       end
  /\ (exists notes, body !! "work_notes" = Some (PStr notes))
  /\ (forall key, is_Some (body !! key) ->
        key ∈ ["u_auto_classification_category"; "u_confidence_score";
               "u_auto_classified"; "u_classification_timestamp";
               "assignment_group"; "category"; "subcategory"; "impact";
               "urgency"; "work_notes"]).
Proof.
  cbv zeta. rewrite update_data_layers.
  set (base := <["u_classification_timestamp" := PStr now]> _).
  assert (Hbase : forall key : string,
            key <> "u_classification_timestamp" -> key <> "u_auto_classified" ->
            key <> "u_confidence_score" -> key <> "u_auto_classification_category" ->
            base !! key = None).
  { intros key H1 H2 H3 H4. subst base. by simplify_map_eq. }
  clearbody base.
  split; [ | split; [ | split; [ | split; [ | split]]]].
  - rewrite lookup_notes_layer_ne by discriminate.
    rewrite !lookup_cond_insert_ne by discriminate.
    apply lookup_cond_insert.
    rewrite lookup_category_layer_ne, lookup_cond_insert_ne by discriminate.
    apply Hbase; discriminate.
  - rewrite lookup_notes_layer_ne by discriminate.
    rewrite lookup_cond_insert_ne by discriminate.
    apply lookup_cond_insert.
    rewrite lookup_cond_insert_ne, lookup_category_layer_ne,
      lookup_cond_insert_ne by discriminate.
    apply Hbase; discriminate.
  - rewrite lookup_notes_layer_ne by discriminate.
    apply lookup_cond_insert.
    rewrite !lookup_cond_insert_ne by discriminate.
    rewrite lookup_category_layer_ne, lookup_cond_insert_ne by discriminate.
    apply Hbase; discriminate.
  - rewrite lookup_notes_layer_ne by discriminate.
    rewrite !lookup_cond_insert_ne by discriminate.
    rewrite lookup_category_layer_ne by discriminate.
    rewrite lookup_cond_insert by (apply Hbase; discriminate).
    destruct ag as [group | ]; [ | reflexivity]. cbn [opt_truthy default].
    destruct (String.eqb group ""); reflexivity.
  - apply lookup_notes_layer.
  - intros key [v Hv].
    match goal with
    | |- key ∈ ?keys => destruct (decide (key ∈ keys)) as [ | Hout]; [assumption | ]
    end.
    exfalso. rewrite !not_elem_of_cons in Hout.
    destruct Hout as (H1 & H2 & H3 & H4 & H5 & H6 & H7 & H8 & H9 & H10 & _).
    rewrite lookup_notes_layer_ne in Hv by assumption.
    rewrite !lookup_cond_insert_ne in Hv by congruence.
    rewrite lookup_category_layer_ne in Hv by assumption.
    rewrite lookup_cond_insert_ne in Hv by congruence.
    rewrite Hbase in Hv by assumption. discriminate.
Qed.

(** X12: [update_incident] never raises.  In dry-run it answers True and
    sends nothing; live, it sends one PATCH to the ticket and answers
    True exactly when the reply has status 200: another status, or an
    exception of the request, gives False. *)
Theorem update_incident_never_raises E dry tid cat conf ag wn snow sub imp urg w :
  exists w' b,
    update_incident E dry tid cat conf ag wn snow sub imp urg w = (w', inr b)
    /\ if dry then w' = w /\ b = true
       else exists request,
              w_patch w' = w_patch w ++ [request]
              /\ patch_ticket request = tid
              /\ b = match snow_patch E (S (w_step w)) request with
                     | Some code => (code =? 200)%Z
                     | None => false
                     end.
Proof.
  destruct dry.
  - exists w, true. repeat split.
  - eexists _, _. split; [apply update_incident_reply | ].
    eexists. split; [reflexivity | ]. split; reflexivity.
Qed.

(* ===================================================================== *)
(** * The result files *)
(* ===================================================================== *)

(** Runs a computation on a world given by its components. *)
Ltac run_files :=
  cbv beta iota zeta delta [bind ret raise try_except attempt ask get modify lift io tick
       set_feed set_latest set_archive set_csv set_audit log_out
       w_step w_llm w_patch w_feed w_latest w_archive w_csv w_audit w_out
       fst snd].

(** X13: [append_task_result] when every file operation goes through: the
    feed becomes the array of its former records (none when it was
    missing or not an array) followed by the new record, the latest
    snapshot holds the same array, the CSV mirror gains the record, and
    the former content of the feed, when there was one, is copied into
    the archive under the time stamp of the call. *)
Theorem append_task_result_snapshots E tid text cat conf kw ms w :
  reliable_files E ->
  post (append_task_result E tid text cat conf kw ms) w
    (fun w' _ =>
       let record :=
         {| rr_timestamp := utc_iso E (w_step w) +:+ "Z"; rr_ticket_id := tid;
            rr_input_text := text; rr_category := cat; rr_confidence := conf;
            rr_matched_keywords := kw; rr_execution_time_ms := ms |} in
       let data := feed_records w ++ [record] in
       w_feed w' = Some (FeedRecords data)
       /\ w_latest w' = Some data
       /\ w_csv w' = Some (default [] (w_csv w) ++ [record])
       /\ match w_feed w with
          | Some content =>
              exists ts, w_archive w' = <[archive_path ts := content]> (w_archive w)
          | None => w_archive w' = w_archive w
          end).
Proof.
  intros Hio. destruct w as [n llm patch feed latest archive csv audit out].
  unfold post, append_task_result, feed_records.
  destruct feed as [content | ]; run_files; repeat (rewrite Hio; run_files).
  all: eexists _, _; (split; [reflexivity | ]).
  all: run_files; repeat split; eauto.
Qed.

Lemma append_task_result_snapshots_witness :
  let E := example_env example_reply [] example_choices None no_failure in
  post (append_task_result E (Some "1") "mail client crashes" (PStr "software")
          0.73 [] 12)
    {| w_step := 0; w_llm := []; w_patch := []; w_feed := Some FeedOther;
       w_latest := None; w_archive := ∅; w_csv := None; w_audit := ∅;
       w_out := [] |}
    (fun w' _ =>
       exists record,
         w_feed w' = Some (FeedRecords [record])
         /\ w_latest w' = Some [record]
         /\ w_csv w' = Some [record]
         /\ exists ts, w_archive w' = <[archive_path ts := FeedOther]> ∅).
Proof.
  intros E.
  eapply post_mono;
    [apply (append_task_result_snapshots E (Some "1") "mail client crashes"
              (PStr "software") 0.73 [] 12); intros n op; reflexivity | ].
  cbv beta. intros w' _ (Hfeed & Hlatest & Hcsv & Harchive).
  eexists. split; [exact Hfeed | ]. split; [exact Hlatest | ].
  split; [exact Hcsv | exact Harchive].
Defined.

(** Splits on the outcome of each file operation but the write of the
    feed, which [Hw] makes fail. *)
Ltac run_failures Hw :=
  run_files;
  repeat match goal with
         | |- context [io_fails ?E ?n IoWriteJson] => rewrite (Hw n); run_files
         | |- context [io_fails ?E ?n ?op] =>
             destruct (io_fails E n op) eqn:?; run_files
         end.

(** X14: When the write of the feed fails, [append_task_result] raises
    OSError, whatever the other file operations do, and the feed, the
    latest snapshot and the CSV mirror are as they were. *)
Theorem failed_feed_write_keeps_result_files E tid text cat conf kw ms w :
  (forall n, io_fails E n IoWriteJson = true) ->
  exists w',
    append_task_result E tid text cat conf kw ms w = (w', inl OSError)
    /\ w_feed w' = w_feed w /\ w_latest w' = w_latest w
    /\ w_csv w' = w_csv w.
Proof.
  intros Hw. destruct w as [n llm patch feed latest archive csv audit out].
  unfold append_task_result.
  destruct feed as [content | ]; run_failures Hw;
    eexists; (split; [reflexivity | ]); run_files; repeat split.
Qed.

Lemma failed_feed_write_keeps_result_files_witness :
  let E := example_env example_reply [] example_choices None
             (fun op => match op with IoWriteJson => true | _ => false end) in
  exists w',
    append_task_result E (Some "1") "mail client crashes" (PStr "software")
      0.73 [] 12 empty_world = (w', inl OSError)
    /\ w_feed w' = None /\ w_latest w' = None /\ w_csv w' = None.
Proof.
  intros E.
  exact (failed_feed_write_keeps_result_files E (Some "1") "mail client crashes"
           (PStr "software") 0.73 [] 12 empty_world (fun n => eq_refl)).
Defined.

(** Splits on the outcome of the two best-effort file operations; [Hio]
    makes the others succeed. *)
Ltac run_best_effort Hio :=
  run_files;
  repeat match goal with
         | |- context [io_fails ?E ?n IoWriteLatest] =>
             destruct (io_fails E n IoWriteLatest) eqn:?; run_files
         | |- context [io_fails ?E ?n IoCopyArchive] =>
             destruct (io_fails E n IoCopyArchive) eqn:?; run_files
         | |- context [io_fails ?E ?n ?op] =>
             rewrite (Hio n op) by discriminate; run_files
         end.

(** X15: The archive copy and the latest snapshot are best effort: when the
    other file operations go through, [append_task_result] returns, the
    feed and the CSV mirror gain the record, and the latest snapshot
    either holds the new array or is as it was. *)
Theorem optional_snapshots_do_not_stop_the_feed E tid text cat conf kw ms w :
  (forall n op, op <> IoWriteLatest -> op <> IoCopyArchive ->
     io_fails E n op = false) ->
  post (append_task_result E tid text cat conf kw ms) w
    (fun w' _ =>
       exists record,
         feed_records w' = feed_records w ++ [record]
         /\ w_csv w' = Some (default [] (w_csv w) ++ [record])
         /\ (w_latest w' = Some (feed_records w') \/ w_latest w' = w_latest w)).
Proof.
  intros Hio. destruct w as [n llm patch feed latest archive csv audit out].
  unfold post, append_task_result, feed_records.
  destruct feed as [content | ]; run_best_effort Hio.
  all: eexists _, _; (split; [reflexivity | ]).
  all: run_files; eexists; split; [reflexivity | ]; split; [reflexivity | ]; auto.
Qed.

Lemma optional_snapshots_do_not_stop_the_feed_witness :
  let E := example_env example_reply [] example_choices None
             (fun op => match op with
                        | IoWriteLatest | IoCopyArchive => true
                        | _ => false
                        end) in
  post (append_task_result E (Some "1") "mail client crashes" (PStr "software")
          0.73 [] 12) empty_world
    (fun w' _ =>
       exists record,
         feed_records w' = [record] /\ w_csv w' = Some [record]
         /\ (w_latest w' = Some (feed_records w') \/ w_latest w' = None)).
Proof.
  intros E.
  apply (optional_snapshots_do_not_stop_the_feed E (Some "1")
           "mail client crashes" (PStr "software") 0.73 [] 12 empty_world).
  intros n op Hlatest Harchive. destruct op; try reflexivity; contradiction.
Defined.


(* ===================================================================== *)
(** * The rollback without and with [--commit] *)
(* ===================================================================== *)

Lemma rollback_actions_preview E actions :
  forall w,
    let run := Rollback.rollback_actions E false actions w in
    snd run = inr tt
    /\ w_out (fst run)
       = w_out w ++ map (fun '(ticket_id, ticket_number, old_category, _) =>
                           PrintWouldPatch ticket_number ticket_id old_category)
                      actions
    /\ w_patch (fst run) = w_patch w /\ w_audit (fst run) = w_audit w
    /\ w_feed (fst run) = w_feed w.
Proof.
  induction actions as [ | [[[tid num] old] new] rest IH]; intros w; cbv zeta.
  - cbn. rewrite app_nil_r. repeat split.
  - cbn [Rollback.rollback_actions map].
    unfold Rollback.rollback_action.
    cbv beta iota zeta delta [negb modify bind].
    destruct (IH (log_out (PrintWouldPatch num tid old) w))
      as (Hret & Hout & Hpatch & Haudit & Hfeed).
    split; [exact Hret | ]. rewrite Hout, Hpatch, Haudit, Hfeed.
    cbn [w_out w_patch w_audit w_feed log_out]. rewrite <- app_assoc.
    repeat split.
Qed.

(** X17: The rollback without [--commit] sends nothing: the PATCH log, the
    audit files and the feed are as they were whatever happens; when
    the audit file is missing the run prints that it was not found, and
    when it is read it prints the number of its rows and then, for each
    row in order, the change it would make. *)
Theorem rollback_preview_sends_nothing E path w :
  let run := Rollback.main E path false w in
  w_patch (fst run) = w_patch w /\ w_audit (fst run) = w_audit w
  /\ w_feed (fst run) = w_feed w
  /\ match w_audit w !! path with
     | None => snd run = inr tt /\ w_out (fst run) = w_out w ++ [PrintNotFound path]
     | Some rows =>
         if io_fails E (w_step w) IoReadAudit
         then snd run = inl OSError /\ w_out (fst run) = w_out w
         else snd run = inr tt
              /\ w_out (fst run)
                 = w_out w ++ PrintFound (length rows) false
                    :: map (fun row =>
                              PrintWouldPatch (row_ticket_number row)
                                (row_ticket_id row) (row_old_category row))
                         rows
     end.
Proof.
  cbv zeta. unfold Rollback.main.
  cbv beta iota zeta delta [bind get io ask modify].
  destruct (w_audit w !! path) as [rows | ]; [ | repeat split].
  destruct (io_fails E (w_step w) IoReadAudit); [repeat split | ].
  cbv beta iota zeta delta [ret].
  destruct (rollback_actions_preview E (map Rollback.action_of_row rows)
              (log_out (PrintFound (length (map Rollback.action_of_row rows)) false)
                 (tick w)))
    as (Hret & Hout & Hpatch & Haudit & Hfeed).
  rewrite Hpatch, Haudit, Hfeed, Hout, Hret.
  cbn [w_out w_patch w_audit w_feed log_out tick].
  rewrite length_map, map_map, <- app_assoc. repeat split.
Qed.

Lemma rollback_actions_report E rows :
  forall w,
    post (Rollback.rollback_actions E true (map Rollback.action_of_row rows)) w
      (fun w' _ =>
         exists lines,
           w_out w' = w_out w ++ lines
           /\ Forall2 (fun row line =>
                         exists n request,
                           patch_ticket request = Some (row_ticket_id row)
                           /\ line = if match snow_patch E n request with
                                        | Some code => (code =? 200)%Z
                                        | None => false
                                        end
                                     then PrintPatched (row_ticket_number row)
                                            (row_ticket_id row)
                                     else PrintFailed (row_ticket_number row)
                                            (row_ticket_id row))
                rows lines).
Proof.
  induction rows as [ | row rest IH]; intros w.
  - apply post_ret. exists []. rewrite app_nil_r. split; [reflexivity | constructor].
  - cbn [map Rollback.rollback_actions]. apply post_bind.
    unfold Rollback.action_of_row at 1. unfold Rollback.rollback_action.
    cbn [negb]. unfold post. unfold bind at 1. rewrite update_incident_reply.
    cbv zeta.
    set (request := {| patch_ticket := Some (row_ticket_id row); patch_body := _ |}).
    set (b := match snow_patch E (S (w_step w)) request with
              | Some code => (code =? 200)%Z
              | None => false
              end).
    assert (Hline :
      exists line,
        (if b then modify (log_out (PrintPatched (row_ticket_number row)
                                      (row_ticket_id row)))
         else modify (log_out (PrintFailed (row_ticket_number row)
                                 (row_ticket_id row))))
          (tick (log_patch request (tick w)))
        = (log_out line (tick (log_patch request (tick w))), inr tt)
        /\ line = if b then PrintPatched (row_ticket_number row) (row_ticket_id row)
                  else PrintFailed (row_ticket_number row) (row_ticket_id row)).
    { destruct b; eexists; split; reflexivity. }
    destruct Hline as (line & Hrun & Hline).
    eexists _, tt. split; [exact Hrun | ].
    eapply post_mono; [apply IH | ].
    intros w2 _ (lines & Hout & Hall). exists (line :: lines).
    rewrite Hout. cbn [w_out log_out tick log_patch].
    rewrite <- app_assoc. split; [reflexivity | ].
    constructor; [ | exact Hall].
    exists (S (w_step w)), request. split; [reflexivity | exact Hline].
Qed.

(** X18: The rollback with [--commit] of an audit file that is read: the run
    returns, and after the number of rows it prints one line per row,
    in order: "patched" when the PATCH to the ticket of the row was
    answered with status 200, "failed" otherwise; a failed row does not
    stop the rows after it. *)
Theorem rollback_commit_reports_each_row E path rows w :
  w_audit w !! path = Some rows ->
  io_fails E (w_step w) IoReadAudit = false ->
  post (Rollback.main E path true) w
    (fun w' _ =>
       exists lines,
         w_out w' = w_out w ++ PrintFound (length rows) true :: lines
         /\ Forall2 (fun row line =>
                       exists n request,
                         patch_ticket request = Some (row_ticket_id row)
                         /\ line = if match snow_patch E n request with
                                      | Some code => (code =? 200)%Z
                                      | None => false
                                      end
                                   then PrintPatched (row_ticket_number row)
                                          (row_ticket_id row)
                                   else PrintFailed (row_ticket_number row)
                                          (row_ticket_id row))
              rows lines).
Proof.
  intros Hfile Hread. unfold Rollback.main. apply post_bind, post_get.
  rewrite Hfile. apply post_bind. unfold io. apply post_bind, post_ask.
  rewrite Hread. apply post_ret. apply post_bind, post_modify.
  eapply post_mono; [apply rollback_actions_report | ].
  intros w' _ (lines & Hout & Hall). exists lines. split; [ | exact Hall].
  rewrite Hout. cbn [w_out log_out tick]. rewrite length_map, <- app_assoc.
  reflexivity.
Qed.

Lemma rollback_commit_reports_each_row_witness :
  let E := example_env example_reply [] example_choices (Some 500%Z) no_failure in
  let row := {| row_run_timestamp := "20260113T115055Z"; row_ticket_number := "INC4";
                row_ticket_id := "4"; row_old_category := "inquiry";
                row_new_category := "network"; row_confidence := "0.730";
                row_dry_run := "False" |} in
  let w := set_audit (<["outputs/audit.csv" := [row; row]]> ∅) empty_world in
  post (Rollback.main E "outputs/audit.csv" true) w
    (fun w' _ =>
       w_out w' = [PrintFound 2 true; PrintFailed "INC4" "4"; PrintFailed "INC4" "4"]).
Proof.
  intros E row w.
  eapply post_mono;
    [apply (rollback_commit_reports_each_row E "outputs/audit.csv" [row; row] w);
     reflexivity | ].
  cbv beta. intros w' _ (lines & Hout & Hall). rewrite Hout.
  inversion Hall as [ | r1 l1 rs1 ls1 (n1 & q1 & _ & H1) Hrest]; subst.
  inversion Hrest as [ | r2 l2 rs2 ls2 (n2 & q2 & _ & H2) Hnil]; subst.
  inversion Hnil; subst. reflexivity.
Defined.

(* ===================================================================== *)
(** * The single-cycle runner *)
(* ===================================================================== *)

Lemma dry_cycle_frame E self limit sample_size w :
  sch_dry_run self = true ->
  sch_connector self <> ServiceNowConnector false ->
  exists w' self' cs,
    process_tickets E self limit sample_size w = (w', inr (self', cs))
    /\ w_patch w' = w_patch w /\ w_audit w' = w_audit w
    /\ sch_dry_run self' = true.
Proof.
  intros Hdry Hconnector. unfold process_tickets.
  destruct (prepare_cycle_frame E self limit sample_size w)
    as (w1 & [cs1 p] & Hprep & Hp & Ha & _ & _ & Hpath).
  cbn [fst snd] in *. unfold bind at 1. rewrite Hprep.
  destruct p as [ | | incidents ch path ts].
  - eexists _, _, _. split; [reflexivity | ]. repeat split; auto.
  - eexists _, _, _. split; [reflexivity | ]. repeat split; auto.
  - rewrite Hdry in Hpath. subst path.
    destruct (process_incidents_dry E self ch ts incidents Hconnector cs1 w1)
      as (w2 & cs2 & Hrun & Hp2 & Ha2).
    unfold bind. rewrite Hrun. eexists _, _, _. split; [reflexivity | ].
    split; [congruence | ]. split; [congruence | exact Hdry].
Qed.

(** X19: The runner without [--commit] never changes a ticket, whatever
    the DRY_RUN variable says: no PATCH is sent and no audit file is
    created or changed.  When one of the three Azure variables is
    missing or empty the constructor of the classifier raises
    RuntimeError, and when SCHEDULE_INTERVAL is not an int the
    constructor of the scheduler raises ValueError: the run then ends
    before the cycle, with nothing done.  Otherwise the cycle runs in
    dry-run mode and returns its counters. *)
Theorem runner_without_commit_is_dry E vars limit sample_size w :
  let run := Runner.main E vars false limit sample_size w in
  w_patch (fst run) = w_patch w /\ w_audit (fst run) = w_audit w
  /\ if negb (opt_truthy (AZURE_OPENAI_ENDPOINT vars)
              && opt_truthy (AZURE_OPENAI_API_KEY vars)
              && opt_truthy (AZURE_OPENAI_DEPLOYMENT vars))
     then run = (w, inl RuntimeError)
     else if negb (SCHEDULE_INTERVAL_is_int vars)
     then run = (w, inl ValueError_interval)
     else exists self' cs,
            snd run = inr (self', cs) /\ sch_dry_run self' = true.
Proof.
  cbv zeta. unfold Runner.main, init, classifier_init, bind, lift.
  destruct (opt_truthy (AZURE_OPENAI_ENDPOINT vars)
            && opt_truthy (AZURE_OPENAI_API_KEY vars)
            && opt_truthy (AZURE_OPENAI_DEPLOYMENT vars));
    cbn [negb]; [ | repeat split].
  destruct (SCHEDULE_INTERVAL_is_int vars); cbn [negb]; [ | repeat split].
  destruct (dry_cycle_frame E (new_scheduler false true) limit
              (if (0 <? sample_size)%Z then Some sample_size else None) w
              eq_refl ltac:(discriminate))
    as (w' & self' & cs & Hrun & Hp & Ha & Hdry).
  cbn [negb]. rewrite Hrun. cbn [fst snd].
  split; [exact Hp | ]. split; [exact Ha | ]. eauto.
Qed.

(* ===================================================================== *)
(** * Required fields *)
(* ===================================================================== *)

Lemma collect_missing_filter data required :
  forall missing,
    Validators.collect_missing data required missing
    = missing ++ filter (fun field => Validators.absent data field = true) required.
Proof.
  induction required as [ | field rest IH]; intros missing.
  - cbn. by rewrite app_nil_r.
  - cbn [Validators.collect_missing]. rewrite IH.
    destruct (Validators.absent data field) eqn:Habsent.
    + rewrite filter_cons_True by exact Habsent. by rewrite <- app_assoc.
    + rewrite filter_cons_False by congruence. reflexivity.
Qed.

(** X20: [validate_required_fields] reports as missing exactly the required
    fields that the data does not have or has with a value that is
    false for Python (None, "", 0, an empty list or dict), in the order
    of the required fields, and answers valid exactly when every
    required field has a value that is true for Python. *)
Theorem validate_required_fields_reports_absent data required :
  let report := Validators.validate_required_fields data required in
  Validators.missing_fields report
  = filter (fun field => Validators.absent data field = true) required
  /\ (Validators.valid report = true <->
      forall field, field ∈ required ->
        exists v, data !! field = Some v /\ truthy v = true)
  /\ (Validators.valid report = false <-> Validators.missing_fields report <> []).
Proof.
  cbv zeta. unfold Validators.validate_required_fields.
  cbn [Validators.valid Validators.missing_fields].
  rewrite collect_missing_filter. cbn [app].
  split; [reflexivity | ]. split.
  - rewrite Nat.eqb_eq, length_zero_iff_nil.
    induction required as [ | field rest IH].
    + split; [intros _ field Hin; by apply elem_of_nil in Hin | reflexivity].
    + destruct (Validators.absent data field) eqn:Habsent.
      * rewrite filter_cons_True by exact Habsent. split; [discriminate | ].
        intros Hall. destruct (Hall field) as (v & Hv & Htrue); [left | ].
        unfold Validators.absent in Habsent. rewrite Hv, Htrue in Habsent.
        discriminate.
      * rewrite filter_cons_False by congruence. rewrite IH. split.
        -- intros Hall f Hin. apply elem_of_cons in Hin as [-> | Hin]; [ | auto].
           unfold Validators.absent in Habsent.
           destruct (data !! field) as [v | ]; [ | discriminate].
           exists v. split; [reflexivity | ].
           by destruct (truthy v).
        -- intros Hall f Hin. apply Hall. by right.
  - destruct (filter _ required); cbn; split; congruence.
Qed.

(* ===================================================================== *)
(** * The merge of two configurations *)
(* ===================================================================== *)

Lemma assoc_get_dict_set_eq key v members :
  assoc_get (dict_set key v members) key = Some v.
Proof.
  induction members as [ | [k x] rest IH]; cbn.
  - by rewrite String.eqb_refl.
  - destruct (String.eqb k key) eqn:Hk; cbn; rewrite Hk; [reflexivity | exact IH].
Qed.

Lemma assoc_get_dict_set_ne key key' v members :
  key' <> key ->
  assoc_get (dict_set key v members) key' = assoc_get members key'.
Proof.
  intros Hne. induction members as [ | [k x] rest IH]; cbn.
  - destruct (String.eqb_spec key key'); [congruence | reflexivity].
  - destruct (String.eqb_spec k key) as [-> | Hk]; cbn.
    + destruct (String.eqb_spec key key'); [congruence | reflexivity].
    + destruct (String.eqb k key'); [reflexivity | exact IH].
Qed.

Lemma assoc_get_none members key :
  assoc_get members key = None <-> key ∉ map fst members.
Proof.
  induction members as [ | [k x] rest IH]; cbn.
  - split; [intros _ Hin; by apply elem_of_nil in Hin | reflexivity].
  - rewrite not_elem_of_cons. destruct (String.eqb_spec k key) as [-> | Hk].
    + split; [discriminate | intros [Hne _]; contradiction].
    + rewrite IH. split; [intros H; split; [congruence | exact H] | intros [_ H]; exact H].
Qed.

Lemma merge_loop_other items key :
  key ∉ map fst items ->
  forall result,
    assoc_get (ConfigLoader.merge_loop items result) key = assoc_get result key.
Proof.
  induction items as [ | [k v] rest IH]; intros Hout result; [reflexivity | ].
  cbn [map fst] in Hout. apply not_elem_of_cons in Hout as [Hne Hout].
  cbn [ConfigLoader.merge_loop]. rewrite IH by exact Hout.
  apply assoc_get_dict_set_ne. exact Hne.
Qed.

Lemma merge_loop_assigned items key value :
  NoDup (map fst items) ->
  assoc_get items key = Some value ->
  forall result,
    assoc_get (ConfigLoader.merge_loop items result) key
    = Some (ConfigLoader.merged_value (assoc_get result key) value).
Proof.
  induction items as [ | [k v] rest IH]; intros Hnodup Hget result;
    [discriminate | ].
  cbn [map fst] in Hnodup. apply NoDup_cons in Hnodup as [Hfresh Hnodup].
  cbn [assoc_get] in Hget. cbn [ConfigLoader.merge_loop].
  destruct (String.eqb_spec k key) as [-> | Hk].
  - injection Hget as ->. rewrite merge_loop_other by exact Hfresh.
    apply assoc_get_dict_set_eq.
  - rewrite IH by assumption. f_equal. f_equal.
    apply assoc_get_dict_set_ne. congruence.
Qed.

(** X21: [merge] read key by key, for an override without repeated keys: a
    key that the override does not have keeps the value of the base; a
    key that it has gets the value of the override, except that two
    dicts are merged in the same way. *)
Theorem merge_reads_override_first base override key :
  NoDup (map fst override) ->
  assoc_get (ConfigLoader.merge base override) key
  = match assoc_get override key with
    | None => assoc_get base key
    | Some value =>
        Some match assoc_get base key, value with
             | Some (PDict b), PDict o => PDict (ConfigLoader.merge b o)
             | _, _ => value
             end
    end.
Proof.
  intros Hnodup. unfold ConfigLoader.merge at 1.
  destruct (assoc_get override key) as [value | ] eqn:Hget.
  - rewrite (merge_loop_assigned override key value) by assumption. f_equal.
    destruct (assoc_get base key) as [[ | | | | | | b] | ]; destruct value;
      reflexivity.
  - apply merge_loop_other. by apply assoc_get_none.
Qed.

Lemma merge_reads_override_first_witness :
  let base := [("servicenow", PDict [("url", PStr "https://dev"); ("timeout", PInt 5)]);
               ("dry_run", PBool true)] in
  let override := [("servicenow", PDict [("timeout", PInt 10)]);
                   ("log_level", PStr "DEBUG")] in
  assoc_get (ConfigLoader.merge base override) "servicenow"
  = Some (PDict [("url", PStr "https://dev"); ("timeout", PInt 10)]).
Proof.
  intros base override.
  rewrite (merge_reads_override_first base override "servicenow").
  - reflexivity.
  - apply (bool_decide_unpack _). vm_compute. exact I.
Defined.

Lemma dict_set_keys key v members :
  map fst (dict_set key v members)
  = if bool_decide (key ∈ map fst members) then map fst members
    else map fst members ++ [key].
Proof.
  induction members as [ | [k x] rest IH]; cbn.
  - rewrite bool_decide_eq_false_2 by (by apply not_elem_of_nil). reflexivity.
  - destruct (String.eqb_spec k key) as [-> | Hk]; cbn.
    + rewrite bool_decide_eq_true_2 by left. reflexivity.
    + rewrite IH. destruct (decide (key ∈ map fst rest)) as [Hin | Hout].
      * rewrite !bool_decide_eq_true_2; [reflexivity | by right | exact Hin].
      * rewrite !bool_decide_eq_false_2; [reflexivity | | exact Hout].
        rewrite not_elem_of_cons. split; congruence.
Qed.

Lemma filter_agree {A} (P Q : A -> Prop) `{!forall x, Decision (P x)}
    `{!forall x, Decision (Q x)} (l : list A) :
  (forall x, x ∈ l -> P x <-> Q x) -> filter P l = filter Q l.
Proof.
  induction l as [ | x l IH]; intros Hagree; [reflexivity | ].
  assert (Hrest : filter P l = filter Q l).
  { apply IH. intros y Hy. apply Hagree. by right. }
  destruct (decide (P x)) as [HP | HP].
  - rewrite !filter_cons_True; [by rewrite Hrest | | exact HP].
    apply Hagree; [left | exact HP].
  - rewrite !filter_cons_False; [exact Hrest | | exact HP].
    intros HQ. apply HP, Hagree; [left | exact HQ].
Qed.

(** X22: The keys of a merge, for an override without repeated keys: those of
    the base, in their order, followed by the keys that only the
    override has, in the order of the override. *)
Theorem merge_keeps_the_order_of_base base override :
  NoDup (map fst override) ->
  map fst (ConfigLoader.merge base override)
  = map fst base ++ filter (fun key => key ∉ map fst base) (map fst override).
Proof.
  unfold ConfigLoader.merge. revert base.
  induction override as [ | [k v] rest IH]; intros base Hnodup.
  - cbn. by rewrite app_nil_r.
  - cbn [map fst] in Hnodup. apply NoDup_cons in Hnodup as [Hfresh Hnodup].
    cbn [ConfigLoader.merge_loop map fst]. rewrite IH by exact Hnodup.
    set (v' := ConfigLoader.merged_value _ v).
    assert (Hkeys : forall key,
              key ∈ map fst rest ->
              key ∉ map fst (dict_set k v' base) <-> key ∉ map fst base).
    { intros key Hkey. rewrite dict_set_keys.
      destruct (bool_decide (k ∈ map fst base)); [reflexivity | ].
      cbv iota. rewrite not_elem_of_app, not_elem_of_cons.
      split; [tauto | ]. intros H. split; [exact H | ].
      split; [ | apply not_elem_of_nil]. intros ->. contradiction. }
    rewrite (filter_agree _ _ _ Hkeys). rewrite dict_set_keys.
    destruct (decide (k ∈ map fst base)) as [Hin | Hout].
    + rewrite bool_decide_eq_true_2 by exact Hin.
      rewrite filter_cons_False by (intros H; contradiction). reflexivity.
    + rewrite bool_decide_eq_false_2 by exact Hout.
      rewrite filter_cons_True by exact Hout. rewrite <- app_assoc.
      reflexivity.
Qed.

Lemma merge_keeps_the_order_of_base_witness :
  let base := [("servicenow", PDict [("url", PStr "https://dev")]);
               ("dry_run", PBool true)] in
  let override := [("log_level", PStr "DEBUG"); ("dry_run", PBool false);
                   ("limit", PInt 50)] in
  map fst (ConfigLoader.merge base override)
  = ["servicenow"; "dry_run"; "log_level"; "limit"].
Proof.
  intros base override.
  rewrite (merge_keeps_the_order_of_base base override).
  - reflexivity.
  - apply (bool_decide_unpack _). vm_compute. exact I.
Defined.

(* ===================================================================== *)
(** * The validation of the category mapping *)
(* ===================================================================== *)

Lemma check_mapping_found O items :
  (forall v, ValidateMapping.get_close_matches O v
               (ValidateMapping.get_category_choices O) <> None) ->
  forall missing,
    ValidateMapping.check_mapping O (ValidateMapping.get_category_choices O)
      items missing
    = inr (missing ++ flat_map (found_for O) items).
Proof.
  intros Hmatch. induction items as [ | [category value] rest IH]; intros missing.
  - cbn. by rewrite app_nil_r.
  - cbn [ValidateMapping.check_mapping flat_map]. unfold found_for at 1.
    cbn [fst snd].
    destruct (negb (truthy value)); [rewrite IH; by rewrite <- app_assoc | ].
    destruct (py_in value _); [rewrite IH; reflexivity | ].
    specialize (Hmatch value).
    destruct (ValidateMapping.get_close_matches O value _) as [ms | ];
      [ | contradiction].
    rewrite IH. by rewrite <- app_assoc.
Qed.

Lemma found_categories O items :
  map ValidateMapping.entry_category (flat_map (found_for O) items)
  = map fst (filter (fun item => lacking O item = true) items).
Proof.
  induction items as [ | [category value] rest IH]; [reflexivity | ].
  cbn [flat_map]. rewrite map_app, IH. unfold found_for, lacking at 2.
  cbn [fst snd].
  destruct (truthy value) eqn:Htruthy; cbn [negb orb].
  - destruct (py_in value _) eqn:Hin; cbn [negb].
    + rewrite filter_cons_False; [reflexivity | ].
      unfold lacking. cbn [snd]. rewrite Htruthy, Hin. discriminate.
    + rewrite filter_cons_True; [reflexivity | ].
      unfold lacking. cbn [snd]. rewrite Htruthy, Hin. reflexivity.
  - rewrite filter_cons_True; [reflexivity | ].
    unfold lacking. cbn [snd]. rewrite Htruthy. reflexivity.
Qed.

(** What an entry of the report says about the mapping. *)
Lemma found_entries O items :
  Forall (fun e =>
            match e with
            | ValidateMapping.EmptyMapping category =>
                exists value, (category, value) ∈ items /\ truthy value = false
            | ValidateMapping.Unmapped category value suggestion =>
                (category, value) ∈ items /\ truthy value = true
                /\ py_in value (ValidateMapping.get_category_choices O) = false
                /\ suggestion
                   = head (default [] (ValidateMapping.get_close_matches O value
                                         (ValidateMapping.get_category_choices O)))
            end)
    (flat_map (found_for O) items).
Proof.
  induction items as [ | [category value] rest IH]; [constructor | ].
  cbn [flat_map]. apply Forall_app. split.
  - unfold found_for. cbn [fst snd].
    destruct (truthy value) eqn:Htruthy; cbn [negb].
    + destruct (py_in value _) eqn:Hin; [constructor | ].
      constructor; [ | constructor]. split; [left | auto].
    + constructor; [ | constructor]. exists value. split; [left | auto].
  - eapply Forall_impl; [exact IH | ]. intros [c | c v s].
    + intros (v & Hin & Hv). exists v. split; [by right | exact Hv].
    + intros (Hin & H). split; [by right | exact H].
Qed.

(** X23: When the choices are there, the mapping loads as a dict and nothing
    fails, [main] writes a report that counts the choices and lists, in
    the order of the mapping, exactly the categories whose mapped value
    is empty or is not among the choices: the first as "empty", the
    others with their value and the first close match, if any. *)
Theorem report_lists_what_the_choices_lack O apply f mapping :
  ValidateMapping.get_category_choices O <> [] ->
  ValidateMapping.load_mapping O f = inr (PDict mapping) ->
  (forall v, ValidateMapping.get_close_matches O v
               (ValidateMapping.get_category_choices O) <> None) ->
  ValidateMapping.report_fails O = false ->
  ValidateMapping.save_fails O = false ->
  exists f' missing,
    ValidateMapping.main O apply f = (f', inr tt)
    /\ ValidateMapping.report_file f'
       = Some {| ValidateMapping.available_choices_count :=
                   length (ValidateMapping.get_category_choices O);
                 ValidateMapping.missing_mappings := missing |}
    /\ map ValidateMapping.entry_category missing
       = map fst (filter (fun item => lacking O item = true) mapping)
    /\ Forall (fun e =>
                 match e with
                 | ValidateMapping.EmptyMapping category =>
                     exists value, (category, value) ∈ mapping /\ truthy value = false
                 | ValidateMapping.Unmapped category value suggestion =>
                     (category, value) ∈ mapping /\ truthy value = true
                     /\ py_in value (ValidateMapping.get_category_choices O) = false
                     /\ suggestion
                        = head (default [] (ValidateMapping.get_close_matches O value
                                   (ValidateMapping.get_category_choices O)))
                 end) missing.
Proof.
  intros Hchoices Hload Hmatch Hreport Hsave.
  exists (fst (ValidateMapping.main O apply f)), (flat_map (found_for O) mapping).
  split; [ | split; [ | split; [apply found_categories | apply found_entries]]].
  all: unfold ValidateMapping.main; rewrite (is_empty_false _ Hchoices), Hload;
    rewrite (check_mapping_found O mapping Hmatch []), Hreport; cbn [app].
  all: destruct (apply && _);
    [destruct (ValidateMapping.apply_suggestions _ _ _) as [mapping' [ | ]];
     [rewrite Hsave | ] | ]; reflexivity.
Qed.

Lemma report_lists_what_the_choices_lack_witness :
  let O := {| ValidateMapping.get_category_choices := ["software"; "hardware"];
              ValidateMapping.get_close_matches := fun v choices =>
                Some match v with
                     | PStr s => if String.eqb s "Hardware" then ["hardware"] else []
                     | _ => []
                     end;
              ValidateMapping.load_fails := false;
              ValidateMapping.report_fails := false;
              ValidateMapping.save_fails := false;
              ValidateMapping.after_failed_report := fun _ => None;
              ValidateMapping.after_failed_save := fun _ => Some PNone |} in
  let mapping := [("apps", PStr "software"); ("devices", PStr "Hardware");
                  ("other", PStr "")] in
  let f := {| ValidateMapping.mapping_file := Some (PDict mapping);
              ValidateMapping.report_file := None; ValidateMapping.out := [] |} in
  exists f' missing,
    ValidateMapping.main O false f = (f', inr tt)
    /\ ValidateMapping.report_file f'
       = Some {| ValidateMapping.available_choices_count := 2;
                 ValidateMapping.missing_mappings := missing |}
    /\ map ValidateMapping.entry_category missing = ["devices"; "other"].
Proof.
  intros O mapping f.
  destruct (report_lists_what_the_choices_lack O false f mapping
              ltac:(discriminate) eq_refl ltac:(intros v; discriminate)
              eq_refl eq_refl)
    as (f' & missing & Hrun & Hreport & Hcats & _).
  exists f', missing. split; [exact Hrun | ]. split; [exact Hreport | exact Hcats].
Defined.

(** X24: A run without [--apply] never touches the mapping file,
    whether it returns or stops with an exception.  A run with
    [--apply] touches it only in [save_mapping]: either the run returns
    and says in its last line that the fixes were applied, or
    [save_mapping] itself fails, which can leave the file emptied or
    partly written.  A run that stops before, or that finds no usable
    suggestion, leaves the file as it is. *)
Theorem mapping_is_rewritten_only_by_apply O apply f :
  let run := ValidateMapping.main O apply f in
  ValidateMapping.mapping_file (fst run) = ValidateMapping.mapping_file f
  \/ apply = true
     /\ (snd run = inr tt
         /\ last (ValidateMapping.out (fst run)) = Some ValidateMapping.AppliedFixes
         \/ snd run = inl ValidateMapping.SaveFailed
            /\ ValidateMapping.mapping_file (fst run)
               = ValidateMapping.after_failed_save O (ValidateMapping.mapping_file f)).
Proof.
  cbv zeta. unfold ValidateMapping.main.
  destruct (is_empty _); [left; reflexivity | ].
  destruct (ValidateMapping.load_mapping O f) as [e | [ | | | | | | mapping]];
    try (left; reflexivity).
  destruct (ValidateMapping.check_mapping _ _ _ _) as [e | missing];
    [left; reflexivity | ].
  destruct (ValidateMapping.report_fails O); [left; reflexivity | ].
  destruct apply; cbn [andb]; [ | left; reflexivity].
  destruct (negb (is_empty missing)); [ | left; reflexivity].
  destruct (ValidateMapping.apply_suggestions _ _ _) as [mapping' [ | ]];
    [ | left; reflexivity].
  right. split; [reflexivity | ].
  destruct (ValidateMapping.save_fails O).
  - right. split; reflexivity.
  - left. split; [reflexivity | ].
    cbn [fst ValidateMapping.out ValidateMapping.print]. apply last_snoc.
Qed.

Lemma apply_suggestions_app first second :
  forall mapping changed,
    ValidateMapping.apply_suggestions (first ++ second) mapping changed
    = ValidateMapping.apply_suggestions second
        (fst (ValidateMapping.apply_suggestions first mapping changed))
        (snd (ValidateMapping.apply_suggestions first mapping changed)).
Proof.
  induction first as [ | e rest IH]; intros mapping changed; [reflexivity | ].
  cbn [app ValidateMapping.apply_suggestions].
  destruct (opt_truthy _); apply IH.
Qed.

Lemma dict_set_at key x v before after :
  key ∉ map fst before ->
  dict_set key x (before ++ (key, v) :: after) = before ++ (key, x) :: after.
Proof.
  induction before as [ | [k y] before IH]; intros Hout.
  - cbn. by rewrite String.eqb_refl.
  - cbn [map fst] in Hout. apply not_elem_of_cons in Hout as [Hne Hout].
    cbn [app dict_set]. destruct (String.eqb_spec k key); [congruence | ].
    by rewrite IH.
Qed.

(** What [--apply] does with the entry found for one item. *)
Lemma apply_suggestions_item O category value before after changed :
  category ∉ map fst before ->
  ValidateMapping.apply_suggestions (found_for O (category, value))
    (before ++ (category, value) :: after) changed
  = (before ++ repaired O (category, value) :: after,
     changed || match usable_suggestion O value with
                | Some _ => true
                | None => false
                end).
Proof.
  intros Hfresh. unfold found_for, repaired, usable_suggestion. cbn [fst snd].
  destruct (truthy value); cbn [negb andb];
    [ | cbn; by rewrite orb_false_r].
  destruct (py_in value _); cbn [negb andb]; [cbn; by rewrite orb_false_r | ].
  destruct (ValidateMapping.get_close_matches O value _) as [[ | s ms] | ];
    cbn [default id head ValidateMapping.apply_suggestions
         ValidateMapping.entry_suggestion ValidateMapping.entry_category
         opt_truthy];
    try (by rewrite orb_false_r).
  destruct (String.eqb s ""); cbn [negb]; [by rewrite orb_false_r | ].
  rewrite dict_set_at by exact Hfresh. by rewrite orb_true_r.
Qed.

(** What [--apply] does with the entries found for [items]. *)
Lemma apply_suggestions_repairs O items :
  forall before changed,
    NoDup (map fst (before ++ items)) ->
    ValidateMapping.apply_suggestions (flat_map (found_for O) items)
      (before ++ items) changed
    = (before ++ map (repaired O) items,
       changed || existsb (fun item => match usable_suggestion O (snd item) with
                                       | Some _ => true
                                       | None => false
                                       end) items).
Proof.
  induction items as [ | [category value] rest IH]; intros before changed Hnodup.
  - cbn. by rewrite orb_false_r, app_nil_r.
  - assert (Hfresh : category ∉ map fst before).
    { rewrite map_app in Hnodup. apply NoDup_app in Hnodup as (_ & Hdisjoint & _).
      intros Hin. apply (Hdisjoint _ Hin). left. }
    cbn [flat_map map existsb snd]. rewrite apply_suggestions_app.
    rewrite apply_suggestions_item by exact Hfresh. cbn [fst snd].
    rewrite (cons_middle _ before rest), app_assoc. rewrite IH.
    + rewrite <- app_assoc, orb_assoc. reflexivity.
    + rewrite <- app_assoc. cbn [app]. rewrite map_app in *.
      cbn [map] in *. unfold repaired. cbn [fst snd].
      destruct (usable_suggestion O value); exact Hnodup.
Qed.

(** X25: A run with [--apply] in which nothing fails, on a mapping that is a
    dict: when some mapped value has a usable suggestion, the mapping
    file is rewritten with every such value replaced by its suggestion,
    all keys in their places and all other values as they were;
    otherwise the file is left as it is. *)
Theorem apply_repairs_values_by_their_suggestions O f mapping :
  ValidateMapping.get_category_choices O <> [] ->
  ValidateMapping.load_mapping O f = inr (PDict mapping) ->
  NoDup (map fst mapping) ->
  (forall v, ValidateMapping.get_close_matches O v
               (ValidateMapping.get_category_choices O) <> None) ->
  ValidateMapping.report_fails O = false ->
  ValidateMapping.save_fails O = false ->
  exists f',
    ValidateMapping.main O true f = (f', inr tt)
    /\ (Exists (fun item => is_Some (usable_suggestion O (snd item))) mapping ->
        ValidateMapping.mapping_file f' = Some (PDict (map (repaired O) mapping)))
    /\ (Forall (fun item => usable_suggestion O (snd item) = None) mapping ->
        ValidateMapping.mapping_file f' = ValidateMapping.mapping_file f).
Proof.
  intros Hchoices Hload Hnodup Hmatch Hreport Hsave.
  unfold ValidateMapping.main. rewrite (is_empty_false _ Hchoices), Hload.
  rewrite (check_mapping_found O mapping Hmatch []), Hreport. cbn [app andb].
  destruct (negb (is_empty (flat_map (found_for O) mapping))) eqn:Hfound.
  - pose proof (apply_suggestions_repairs O mapping [] false Hnodup) as Happly.
    cbn [orb app] in Happly. rewrite Happly.
    destruct (existsb _ mapping) eqn:Hany.
    + rewrite Hsave. eexists. split; [reflexivity | ].
      split; [intros _; reflexivity | ].
      intros Hnone. exfalso. apply existsb_exists in Hany as (item & Hin & Hsome).
      rewrite Forall_forall in Hnone. rewrite (Hnone item) in Hsome;
        [discriminate | by apply list_elem_of_In].
    + eexists. split; [reflexivity | ]. split; [ | intros _; reflexivity].
      intros Hsome. exfalso. apply Exists_exists in Hsome as (item & Hin & [s Hs]).
      assert (Htrue : existsb (fun item => match usable_suggestion O (snd item) with
                                           | Some _ => true
                                           | None => false
                                           end) mapping = true).
      { apply existsb_exists. exists item. split; [by apply list_elem_of_In | ].
        by rewrite Hs. }
      congruence.
  - eexists. split; [reflexivity | ]. split; [ | intros _; reflexivity].
    intros Hsome. exfalso. apply Exists_exists in Hsome as (item & Hin & [s Hs]).
    apply negb_false_iff in Hfound.
    assert (Hnil : flat_map (found_for O) mapping = [])
      by (destruct (flat_map _ _); [reflexivity | discriminate]).
    apply list_elem_of_split in Hin as (l1 & l2 & ->).
    rewrite flat_map_app in Hnil. apply app_eq_nil in Hnil as [_ Hnil].
    cbn [flat_map] in Hnil. apply app_eq_nil in Hnil as [Hnil _].
    unfold found_for in Hnil. unfold usable_suggestion in Hs.
    destruct (truthy (snd item)); cbn [negb andb] in *; [ | discriminate].
    destruct (py_in (snd item) _); cbn [negb] in *; discriminate.
Qed.

Lemma apply_repairs_values_by_their_suggestions_witness :
  let O := {| ValidateMapping.get_category_choices := ["software"; "hardware"];
              ValidateMapping.get_close_matches := fun v choices =>
                Some match v with
                     | PStr s => if String.eqb s "Hardware" then ["hardware"] else []
                     | _ => []
                     end;
              ValidateMapping.load_fails := false;
              ValidateMapping.report_fails := false;
              ValidateMapping.save_fails := false;
              ValidateMapping.after_failed_report := fun _ => None;
              ValidateMapping.after_failed_save := fun _ => Some PNone |} in
  let mapping := [("apps", PStr "software"); ("devices", PStr "Hardware");
                  ("other", PStr "")] in
  let f := {| ValidateMapping.mapping_file := Some (PDict mapping);
              ValidateMapping.report_file := None; ValidateMapping.out := [] |} in
  exists f',
    ValidateMapping.main O true f = (f', inr tt)
    /\ ValidateMapping.mapping_file f'
       = Some (PDict [("apps", PStr "software"); ("devices", PStr "hardware");
                      ("other", PStr "")]).
Proof.
  intros O mapping f.
  destruct (apply_repairs_values_by_their_suggestions O f mapping
              ltac:(discriminate) eq_refl
              ltac:(apply (bool_decide_unpack _); vm_compute; exact I)
              ltac:(intros v; discriminate) eq_refl eq_refl)
    as (f' & Hrun & Hsome & _).
  exists f'. split; [exact Hrun | ]. apply Hsome.
  apply Exists_cons_tl, Exists_cons_hd. vm_compute. eauto.
Defined.
